(** * Ball-collection path planner (FRC/simulation/planner.py)

    A shallow embedding of the pure planning functions of [planner.py]:
    connectivity clustering, cluster selection, nearest-neighbour ordering,
    2-opt refinement, intake-aware waypoint pruning and Catmull-Rom
    smoothing, together with the properties the specification states about
    them.

    The Python code computes on numpy [float64] arrays.  The embedding is
    written once over an interface [Arith] of the scalar operations the code
    uses, and instantiated twice:
    - [float_arith]: IEEE 754 binary64 (Rocq's primitive floats), which is
      what numpy computes with and which evaluates inside Rocq;
    - [real_arith]: the real numbers, the exact arithmetic the specification
      reasons in.
    Structural properties (partition, permutation, subsequence, idempotence)
    are proved for every [Arith]; metric properties (path lengths, nearest,
    greatest score) are proved for [real_arith]. *)

From Stdlib Require Import List Arith ZArith Bool Lia Permutation Relations.
From Stdlib Require Import Reals Lra Floats.
Import ListNotations.


(** ** Scalars *)

(** The scalar operations [planner.py] applies to array elements. *)
Class Arith : Type := {
  num : Type;
  of_Z : Z -> num;                 (* float(k) for a Python int k *)
  nadd : num -> num -> num;
  nsub : num -> num -> num;
  nmul : num -> num -> num;
  ndiv : num -> num -> num;
  nopp : num -> num;
  nsqrt : num -> num;
  nltb : num -> num -> bool;       (* a < b *)
  nleb : num -> num -> bool;       (* a <= b *)
  neqb : num -> num -> bool        (* a == b *)
}.

Declare Scope num_scope.
Delimit Scope num_scope with num.
Bind Scope num_scope with num.
Infix "+" := nadd : num_scope.
Infix "-" := nsub : num_scope.
Infix "*" := nmul : num_scope.
Infix "/" := ndiv : num_scope.
Notation "- x" := (nopp x) : num_scope.
Infix "<?" := nltb : num_scope.
Infix "<=?" := nleb : num_scope.
Infix "=?" := neqb : num_scope.

(** binary64.  Integers of magnitude below 2^53 convert exactly. *)
Definition float_of_Z (z : Z) : float :=
  match z with
  | Z0 => PrimFloat.zero
  | Zpos _ => PrimFloat.of_uint63 (Uint63.of_Z z)
  | Zneg p => PrimFloat.opp (PrimFloat.of_uint63 (Uint63.of_Z (Zpos p)))
  end.

#[export] Instance float_arith : Arith := {
  num := float;
  of_Z := float_of_Z;
  nadd := PrimFloat.add;
  nsub := PrimFloat.sub;
  nmul := PrimFloat.mul;
  ndiv := PrimFloat.div;
  nopp := PrimFloat.opp;
  nsqrt := PrimFloat.sqrt;
  nltb := PrimFloat.ltb;
  nleb := PrimFloat.leb;
  neqb := PrimFloat.eqb
}.

Definition Rltb (a b : R) : bool := if Rlt_dec a b then true else false.
Definition Rleb (a b : R) : bool := if Rle_dec a b then true else false.
Definition Reqb (a b : R) : bool := if Req_dec_T a b then true else false.

Definition real_arith : Arith := {|
  num := R;
  of_Z := IZR;
  nadd := Rplus;
  nsub := Rminus;
  nmul := Rmult;
  ndiv := Rdiv;
  nopp := Ropp;
  nsqrt := R_sqrt.sqrt;
  nltb := Rltb;
  nleb := Rleb;
  neqb := Reqb
|}.

(** [x ** k] for an int [k >= 0].  On a Python float it is C's [pow]: a
    function of the platform's libm, accurate to under one unit in the last
    place, and not one of the operations that IEEE 754 rounds correctly.  It
    is kept apart from [Arith], so that what is proved for every [Arith] and
    every [Pow] holds whatever [pow] returns. *)
Class Pow (A : Arith) : Type := npow : num -> nat -> num.

(** The exact power, rounded once to nearest (ties to even).  This is what
    [t ** 2] and [t ** 3] are at the 20 values of [t] that [smooth_path]
    samples by default; [t * t * t], rounded twice, differs from it at four
    of them.  (Where the power overflows Python raises [OverflowError];
    [smooth_path] takes powers of [0 <= t < 1] only.) *)
Definition float_pow (x : float) (k : nat) : float :=
  match k with
  | O => PrimFloat.one
  | S _ =>
      match Prim2SF x with
      | S754_finite s m e =>
          let mk := Z.pow (Zpos m) (Z.of_nat k) in
          SF2Prim (binary_normalize prec emax
                     (if s && Nat.odd k then Z.opp mk else mk)
                     (Z.of_nat k * e) false)
      | S754_zero s =>
          if s && Nat.odd k then PrimFloat.neg_zero else PrimFloat.zero
      | S754_infinity s =>
          if s && Nat.odd k then PrimFloat.neg_infinity else PrimFloat.infinity
      | S754_nan => PrimFloat.nan
      end
  end.

#[export] Instance float_pow_arith : Pow float_arith := float_pow.
#[export] Instance real_pow_arith : Pow real_arith := pow.

(** ** Outcomes of a call

    A call returns a value, raises an exception, or (in the model only) uses
    up the iterations it was given for a [while] loop.  A loop whose number
    of iterations is bounded by the size of its input is given that bound,
    and the theorems show that it is never used up; the sweeps of 2-opt
    have no such bound, and [two_opt_improve] takes the allowance as an
    argument. *)

Inductive pyexn : Type := ZeroDivisionError | ValueError | TypeError.

Inductive outcome (T : Type) : Type :=
| Returns (v : T)
| Raises (e : pyexn)
| OutOfFuel.

Arguments Returns {T} v.
Arguments Raises {T} e.
Arguments OutOfFuel {T}.

Definition bind {T U : Type} (m : outcome T) (k : T -> outcome U) : outcome U :=
  match m with
  | Returns v => k v
  | Raises e => Raises e
  | OutOfFuel => OutOfFuel
  end.

Notation "'let*' x ':=' m 'in' k" := (bind m (fun x => k))
  (at level 10, x pattern, m at level 100, k at level 200).

(** A [for] loop whose body may raise. *)
Fixpoint for_each {S X : Type} (body : S -> X -> outcome S) (xs : list X) (s : S)
  : outcome S :=
  match xs with
  | [] => Returns s
  | x :: xs' => let* s' := body s x in for_each body xs' s'
  end.

(** [range(a, b)] *)
Definition range (a b : nat) : list nat := seq a (b - a).

(** [l[i] = v] for an index in range. *)
Fixpoint set_at {T : Type} (l : list T) (i : nat) (v : T) : list T :=
  match l, i with
  | [], _ => []
  | _ :: l', O => v :: l'
  | x :: l', S i' => x :: set_at l' i' v
  end.

Section Planner.

Context {A : Arith} {Pw : Pow A}.
Local Open Scope num_scope.

(** Literals of the source. *)
Definition zero : num := of_Z 0.
Definition one : num := of_Z 1.
Definition half : num := of_Z 1 / of_Z 2.                     (* 0.5 *)
Definition eps_swap : num := of_Z 1 / of_Z 10000000000.       (* 1e-10 *)
Definition eps_len : num := of_Z 1 / of_Z 1000000000000.      (* 1e-12 *)
Definition of_nat (n : nat) : num := of_Z (Z.of_nat n).

(** [x != x], numpy's [isnan]. *)
Definition isnan (x : num) : bool := negb (x =? x).

(** ** Points and (N, 2) arrays *)

Record point : Type := mkpt { px : num; py : num }.

Definition origin : point := mkpt zero zero.

Definition padd (p q : point) : point := mkpt (px p + px q) (py p + py q).
Definition psub (p q : point) : point := mkpt (px p - px q) (py p - py q).
Definition pneg (p : point) : point := mkpt (- px p) (- py p).
(** [c * p] and [p * c] for a scalar [c]. *)
Definition pscale (c : num) (p : point) : point := mkpt (c * px p) (c * py p).
Definition ptimes (p : point) (c : num) : point := mkpt (px p * c) (py p * c).

(** [np.dot(u, v)] *)
Definition dot (u v : point) : num := px u * px v + py u * py v.

(** [np.linalg.norm(v)]: the square root of the sum of the squares, each
    operation rounded on its own. *)
Definition norm (v : point) : num := nsqrt (px v * px v + py v * py v).

(** [a[i]] for an index the code keeps in range. *)
Definition at_ (pts : list point) (i : nat) : point := nth i pts origin.

(** [a[idx]] for a list of indices. *)
Definition take_idx (pts : list point) (idx : list nat) : list point :=
  map (at_ pts) idx.

(** [a[mask]] for a boolean mask. *)
Fixpoint take_mask (pts : list point) (mask : list bool) : list point :=
  match pts, mask with
  | p :: pts', b :: mask' =>
      if b then p :: take_mask pts' mask' else take_mask pts' mask'
  | _, _ => []
  end.

(** [np.sum(a)], accumulated from the left.  numpy adds long arrays in
    blocks; the order is immaterial in exact arithmetic, where the theorems
    on path lengths are stated. *)
Definition npsum (xs : list num) : num := fold_left nadd xs zero.

(** [np.diff(points, axis=0)] *)
Fixpoint diffs (pts : list point) : list point :=
  match pts with
  | p :: (q :: _) as tl => psub q p :: diffs tl
  | _ => []
  end.

Definition path_distance (points : list point) : num :=
  if (length points <? 2)%nat then zero
  else npsum (map norm (diffs points)).

(** ** Clustering *)

(** The distance of ball [i] from ball [curr], as the flood fill computes it:
    [np.linalg.norm(balls - balls[curr], axis=1)[i]]. *)
Definition ball_dist (balls : list point) (curr i : nat) : num :=
  norm (psub (at_ balls i) (at_ balls curr)).

Record bfs_state : Type := mkbfs {
  visited : list bool;
  in_cluster : list bool;
  queue : list nat
}.

(** The body of [for i in range(len(balls))] in [find_all_clusters]. *)
Definition bfs_visit (balls : list point) (radius : num) (curr : nat)
    (st : bfs_state) (i : nat) : bfs_state :=
  if negb (nth i (visited st) false) && (ball_dist balls curr i <=? radius)
  then mkbfs (set_at (visited st) i true)
             (set_at (in_cluster st) i true)
             (queue st ++ [i])
  else st.

(** [while queue: curr = queue.popleft(); ...] *)
Fixpoint bfs_loop (fuel : nat) (balls : list point) (radius : num)
    (st : bfs_state) : outcome bfs_state :=
  match queue st with
  | [] => Returns st
  | curr :: rest =>
      match fuel with
      | O => OutOfFuel
      | S fuel' =>
          bfs_loop fuel' balls radius
            (fold_left (bfs_visit balls radius curr)
                       (range 0 (length balls))
                       (mkbfs (visited st) (in_cluster st) rest))
      end
  end.

(** The body of [for seed in range(len(balls))]. *)
Definition cluster_from_seed (balls : list point) (radius : num)
    (acc : list bool * list (list point)) (seed : nat)
  : outcome (list bool * list (list point)) :=
  let '(visited0, clusters) := acc in
  if nth seed visited0 false then Returns acc
  else
    let in_cluster0 := set_at (repeat false (length balls)) seed true in
    let visited1 := set_at visited0 seed true in
    let* st := bfs_loop (2 * length balls + 1) balls radius
                        (mkbfs visited1 in_cluster0 [seed]) in
    Returns (visited st, clusters ++ [take_mask balls (in_cluster st)]).

Definition find_all_clusters (balls : list point) (radius : num)
  : outcome (list (list point)) :=
  if (length balls =? 0)%nat then Returns []
  else
    let* acc := for_each (cluster_from_seed balls radius)
                         (range 0 (length balls))
                         (repeat false (length balls), []) in
    Returns (snd acc).

(** [np.minimum(a, b)] and [np.maximum(a, b)]: a NaN in [a] wins. *)
Definition np_minimum (a b : num) : num := if (a <=? b) || isnan a then a else b.
Definition np_maximum (a b : num) : num := if (b <=? a) || isnan a then a else b.

(** [np.min(a)]; raises on an empty array. *)
Definition npmin (xs : list num) : outcome num :=
  match xs with
  | [] => Raises ValueError
  | x :: xs' => Returns (fold_left np_minimum xs' x)
  end.

Definition score_cluster (cluster : list point) (robot_pos : point)
    (distance_bias : num) : outcome (num * num) :=
  let dists := map (fun p => norm (psub p robot_pos)) cluster in
  let* min_dist := npmin dists in
  let denom := min_dist + distance_bias in
  if denom =? zero then Raises ZeroDivisionError
  else Returns (of_nat (length cluster) / denom, min_dist).

Record selection : Type := mksel {
  sel_cluster : list point;
  sel_score : num;
  sel_min_distance : num;
  sel_size : nat;
  sel_num_clusters : nat
}.

(** The body of [for c in clusters] in [select_best_cluster]; the state is
    [(best_cluster, best_score, best_min_dist)]. *)
Definition select_step (robot_pos : point) (distance_bias : num)
    (st : option (list point) * num * num) (c : list point)
  : outcome (option (list point) * num * num) :=
  let '(best_cluster, best_score, best_min_dist) := st in
  let* (s, md) := score_cluster c robot_pos distance_bias in
  if best_score <? s then Returns (Some c, s, md)
  else Returns (best_cluster, best_score, best_min_dist).

Definition select_best_cluster (balls : list point) (robot_pos : point)
    (radius distance_bias : num) : outcome (option selection) :=
  let* clusters := find_all_clusters balls radius in
  match clusters with
  | [] => Returns None
  | _ =>
      let* (best_cluster, best_score, best_min_dist) :=
        for_each (select_step robot_pos distance_bias) clusters
                 (None, of_Z (-1), zero) in
      match best_cluster with
      | None => Raises TypeError          (* len(None) *)
      | Some c =>
          Returns (Some (mksel c best_score best_min_dist
                               (length c) (length clusters)))
      end
  end.

(** ** Ordering *)

(** The scan of [np.argmin] after the first element: [mp] is the least value
    so far, at index [best]; a NaN ends the scan and is the answer. *)
Fixpoint argmin_scan (xs : list num) (i best : nat) (mp : num) : nat :=
  match xs with
  | [] => best
  | x :: xs' =>
      if negb (mp <=? x)
      then if isnan x then i else argmin_scan xs' (S i) i x
      else argmin_scan xs' (S i) best mp
  end.

Definition argmin (xs : list num) : outcome nat :=
  match xs with
  | [] => Raises ValueError
  | x :: xs' => Returns (if isnan x then O else argmin_scan xs' 1 O x)
  end.

(** [l.pop(k)]: the element and the list without it. *)
Definition pop (l : list nat) (k : nat) : nat * list nat :=
  (nth k l O, firstn k l ++ skipn (S k) l).

(** [while remaining: ...] *)
Fixpoint nn_loop (fuel : nat) (points : list point)
    (remaining ordered : list nat) (current : point) : outcome (list nat) :=
  match remaining with
  | [] => Returns ordered
  | _ :: _ =>
      match fuel with
      | O => OutOfFuel
      | S fuel' =>
          let dists := map (fun i => norm (psub (at_ points i) current))
                           remaining in
          let* nearest_idx := argmin dists in
          let '(chosen, remaining') := pop remaining nearest_idx in
          nn_loop fuel' points remaining' (ordered ++ [chosen])
                  (at_ points chosen)
      end
  end.

Definition nearest_neighbor_order (points : list point) (start : point)
  : outcome (list point) :=
  if (length points =? 0)%nat then Returns []
  else
    let* ordered := nn_loop (length points) points
                            (range 0 (length points)) [] start in
    Returns (take_idx points ordered).

(** ** 2-opt improvement *)

(** [tour[a:b] = tour[a:b][::-1]] *)
Definition reverse_slice (tour : list point) (a b : nat) : list point :=
  firstn a tour ++ rev (firstn (b - a) (skipn a tour)) ++ skipn b tour.

(** The body of the two nested [for] loops, at [(i, j)]. *)
Definition two_opt_step (n : nat) (i : nat) (st : list point * bool) (j : nat)
  : list point * bool :=
  let '(tour, improved) := st in
  let d_old0 := norm (psub (at_ tour i) (at_ tour (i + 1))) in
  let '(d_old, d_new) :=
    if (j + 1 <? n)%nat
    then (d_old0 + norm (psub (at_ tour j) (at_ tour (j + 1))),
          norm (psub (at_ tour i) (at_ tour j))
          + norm (psub (at_ tour (i + 1)) (at_ tour (j + 1))))
    else (d_old0, norm (psub (at_ tour i) (at_ tour j))) in
  if d_new <? d_old - eps_swap
  then (reverse_slice tour (i + 1) (j + 1), true)
  else (tour, improved).

(** One execution of the body of [while improved], from [improved = False]. *)
Definition two_opt_sweep (n : nat) (tour : list point) : list point * bool :=
  fold_left
    (fun st i => fold_left (two_opt_step n i) (range (i + 2) n) st)
    (range 0 (n - 1))
    (tour, false).

Fixpoint two_opt_loop (fuel : nat) (n : nat) (tour : list point)
  : outcome (list point) :=
  match fuel with
  | O => OutOfFuel
  | S fuel' =>
      let '(tour', improved) := two_opt_sweep n tour in
      if improved then two_opt_loop fuel' n tour' else Returns tour'
  end.

(** [fuel] bounds the number of sweeps of the [while] loop. *)
Definition two_opt_improve (fuel : nat) (tour : list point)
  : outcome (list point) :=
  if (length tour <? 4)%nat then Returns tour
  else two_opt_loop fuel (length tour) tour.

(** ** Intake-aware waypoint pruning *)

(** [np.clip(x, lo, hi)] *)
Definition np_clip (x lo hi : num) : num := np_minimum (np_maximum x lo) hi.

Definition _point_to_segment_dist (pt seg_start seg_end : point) : num :=
  let v := psub seg_end seg_start in
  let u := psub pt seg_start in
  let len_sq := dot v v in
  if len_sq <? eps_len then norm u
  else
    let t := np_clip (dot u v / len_sq) zero one in
    let projection := padd seg_start (pscale t v) in
    norm (psub pt projection).

(** The body of [for j in range(1, len(kept) - 1)]; the state is
    [(new_kept, changed)]. *)
Definition prune_step (waypoints : list point) (intake_half_width : num)
    (kept : list nat) (st : list nat * bool) (j : nat) : list nat * bool :=
  let '(new_kept, changed) := st in
  let seg_start := at_ waypoints (last new_kept O) in
  let seg_end := at_ waypoints (nth (j + 1) kept O) in
  let dist := _point_to_segment_dist (at_ waypoints (nth j kept O))
                                     seg_start seg_end in
  if intake_half_width <=? dist
  then (new_kept ++ [nth j kept O], changed)
  else (new_kept, true).

(** One execution of the body of [while changed]. *)
Definition prune_pass (waypoints : list point) (intake_half_width : num)
    (kept : list nat) : list nat * bool :=
  let '(new_kept, changed) :=
    fold_left (prune_step waypoints intake_half_width kept)
              (range 1 (length kept - 1))
              ([nth 0 kept O], false) in
  (new_kept ++ [last kept O], changed).

Fixpoint prune_loop (fuel : nat) (waypoints : list point)
    (intake_half_width : num) (kept : list nat) : outcome (list nat) :=
  match fuel with
  | O => OutOfFuel
  | S fuel' =>
      let '(kept', changed) := prune_pass waypoints intake_half_width kept in
      if changed then prune_loop fuel' waypoints intake_half_width kept'
      else Returns kept'
  end.

Definition prune_waypoints (waypoints : list point) (intake_half_width : num)
  : outcome (list point) :=
  if (length waypoints <=? 2)%nat then Returns waypoints
  else
    let* kept := prune_loop (length waypoints) waypoints intake_half_width
                            (range 0 (length waypoints)) in
    Returns (take_idx waypoints kept).

(** ** Catmull-Rom smoothing *)

(** The formula of the loop body. *)
Definition catmull_rom (p0 p1 p2 p3 : point) (t : num) : point :=
  pscale half
    (padd
       (padd
          (padd (pscale (of_Z 2) p1)
                (ptimes (padd (pneg p0) p2) t))
          (ptimes
             (psub (padd (psub (pscale (of_Z 2) p0) (pscale (of_Z 5) p1))
                         (pscale (of_Z 4) p2))
                   p3)
             (npow t 2)))
       (ptimes
          (padd (psub (padd (pneg p0) (pscale (of_Z 3) p1))
                      (pscale (of_Z 3) p2))
                p3)
          (npow t 3))).

Definition smooth_path (waypoints : list point) (num_interp : nat) : list point :=
  if (length waypoints <? 2)%nat then waypoints
  else
    let pts := [at_ waypoints 0] ++ waypoints ++ [last waypoints origin] in
    let result :=
      flat_map
        (fun i =>
           let p0 := at_ pts (i - 1) in
           let p1 := at_ pts i in
           let p2 := at_ pts (i + 1) in
           let p3 := at_ pts (i + 2) in
           map (fun t_idx =>
                  catmull_rom p0 p1 p2 p3 (of_nat t_idx / of_nat num_interp))
               (seq 0 num_interp))
        (seq 1 (length pts - 2 - 1)) in
    result ++ [last waypoints origin].

(** ** Full sweep *)

(** [field.INTAKE_WIDTH = 0.9] *)
Definition INTAKE_WIDTH : num := of_Z 9 / of_Z 10.
Definition INTAKE_HALF_WIDTH : num := INTAKE_WIDTH / of_Z 2.

Record sweep_plan : Type := mkplan {
  nn_waypoints : list point;
  nn_path : list point;
  nn_distance : num;
  opt_waypoints : list point;
  opt_path : list point;
  opt_distance : num;
  improvement_pct : num;
  total_waypoints : Z;
  pruned_waypoints : Z
}.

Definition plan_full_sweep (fuel : nat) (balls : list point) (robot_pos : point)
  : outcome (option sweep_plan) :=
  if (length balls =? 0)%nat then Returns None
  else
    let* ordered := nearest_neighbor_order balls robot_pos in
    let nn_waypoints0 := robot_pos :: ordered in
    let total := Z.of_nat (length nn_waypoints0) in
    let* opt_waypoints0 := two_opt_improve fuel nn_waypoints0 in
    let* nn_wps := prune_waypoints nn_waypoints0 INTAKE_HALF_WIDTH in
    let* opt_wps := prune_waypoints opt_waypoints0 INTAKE_HALF_WIDTH in
    let nn_p := smooth_path nn_wps 20 in
    let nn_dist := path_distance nn_p in
    let opt_p := smooth_path opt_wps 20 in
    let opt_dist := path_distance opt_p in
    let improvement :=
      if zero <? nn_dist then (nn_dist - opt_dist) / nn_dist * of_Z 100
      else zero in
    Returns (Some (mkplan nn_wps nn_p nn_dist opt_wps opt_p opt_dist
                          improvement total
                          (total - Z.of_nat (length opt_wps))%Z)).

End Planner.

Arguments point A : clear implicits.

(** ** The single-cluster planner

    [find_nearest_cluster] and [plan_nearest_cluster], the two functions of
    [planner.py] beside those above. *)

Section NearestCluster.

Context {A : Arith} {Pw : Pow A}.
Local Open Scope num_scope.

(** The body of [for i in range(len(balls))] in [find_nearest_cluster]; the
    state is [(in_cluster, queue)]: the mask of the cluster is also the
    record of what has been visited. *)
Definition flood_visit (balls : list (point A)) (radius : num) (curr : nat)
    (st : list bool * list nat) (i : nat) : list bool * list nat :=
  let '(mask, q) := st in
  if negb (nth i mask false) && (ball_dist balls curr i <=? radius)
  then (set_at mask i true, q ++ [i])
  else st.

(** [while queue: curr = queue.popleft(); ...] *)
Fixpoint flood_loop (fuel : nat) (balls : list (point A)) (radius : num)
    (st : list bool * list nat) : outcome (list bool) :=
  match snd st with
  | [] => Returns (fst st)
  | curr :: rest =>
      match fuel with
      | O => OutOfFuel
      | S fuel' =>
          flood_loop fuel' balls radius
            (fold_left (flood_visit balls radius curr)
                       (range 0 (length balls))
                       (fst st, rest))
      end
  end.

Definition find_nearest_cluster (balls : list (point A)) (robot_pos : point A)
    (radius : num) : outcome (list (point A)) :=
  if (length balls =? 0)%nat then Returns []
  else
    let dists := map (fun b => norm (psub b robot_pos)) balls in
    let* seed_idx := argmin dists in
    let in_cluster0 := set_at (repeat false (length balls)) seed_idx true in
    let* mask := flood_loop (2 * length balls + 1) balls radius
                            (in_cluster0, [seed_idx]) in
    Returns (take_mask balls mask).

(** The dictionary [plan_nearest_cluster] returns; the fields are its keys,
    with [nc_] before them. *)
Record cluster_plan : Type := mkcplan {
  nc_cluster : list (point A);
  nc_waypoints : list (point A);
  nc_path : list (point A);
  nc_distance : num;
  nc_total_waypoints : Z;
  nc_pruned_waypoints : Z;
  nc_cluster_score : num;
  nc_cluster_min_distance : num;
  nc_cluster_size : nat;
  nc_num_clusters : nat
}.

(** [select_best_cluster] is called with its default bias, 0.5, and
    [smooth_path] with its default of 20 samples a segment. *)
Definition plan_nearest_cluster (balls : list (point A)) (robot_pos : point A)
    (cluster_radius : num) : outcome (option cluster_plan) :=
  if (length balls =? 0)%nat then Returns None
  else
    let* selection := select_best_cluster balls robot_pos cluster_radius half in
    match selection with
    | None => Returns None
    | Some sel =>
        let cluster := sel_cluster sel in
        let* ordered := nearest_neighbor_order cluster robot_pos in
        let waypoints0 := robot_pos :: ordered in
        let total := Z.of_nat (length waypoints0) in
        let* waypoints := prune_waypoints waypoints0 INTAKE_HALF_WIDTH in
        let path := smooth_path waypoints 20 in
        Returns (Some (mkcplan cluster waypoints path (path_distance path)
                               total
                               (total - Z.of_nat (length waypoints))%Z
                               (sel_score sel) (sel_min_distance sel)
                               (sel_size sel) (sel_num_clusters sel)))
    end.

End NearestCluster.

(** * The simulation state (FRC/simulation/simulation.py)

    The state of the simulator and the functions that change it outside the
    drawing code: [reset], [_ball_array], [_set_initial_heading], [do_plan],
    [do_replan], [step], [on_click], [on_key] and the frame function of
    [main].  The state is the module-level
    object [state] of the source; here every function takes it and returns
    the state it leaves.  The list [_artists] of the matplotlib objects
    drawn is not part of it, and the functions that draw are not
    modelled. *)

From Stdlib Require ListSet.

Section Simulation.

Context {A : Arith} {Pw : Pow A}.
Local Open Scope num_scope.

(** [np.arctan2], which is not among the scalar operations; the heading
    it gives is drawn and nothing else reads it. *)
Variable arctan2 : num -> num -> num.

(** Constants of [field.py] and [simulation.py]. *)
Definition FIELD_WIDTH : num := of_Z 81 / of_Z 10.                 (* 8.1 *)
Definition ROBOT_SPEED : num := of_Z 7 / of_Z 2.                   (* 3.5 *)
Definition COLLECTION_RADIUS : num :=
  INTAKE_WIDTH / of_Z 2 + of_Z 5 / of_Z 100.         (* INTAKE_WIDTH / 2 + 0.05 *)
Definition REMOVE_RADIUS : num := of_Z 1 / of_Z 2.                 (* 0.5 *)
Definition COMPARISON_PAUSE_SEC : num := of_Z 2.                   (* 2.0 *)
Definition eps_heading : num := of_Z 1 / of_Z 1000000.             (* 1e-6 *)
Definition DEFAULT_CLUSTER_RADIUS : num := of_Z 3 / of_Z 2.        (* 1.5 *)

(** The values of [state.status], the strings idle, planning, comparing,
    executing and done. *)
Inductive sim_status : Type := Idle | Planning | Comparing | Executing | Done.

Definition status_eqb (a b : sim_status) : bool :=
  match a, b with
  | Idle, Idle | Planning, Planning | Comparing, Comparing
  | Executing, Executing | Done, Done => true
  | _, _ => false
  end.

(** [state.plan]: the dictionary of one planner or of the other. *)
Inductive plan_dict : Type :=
| NearestPlan (p : cluster_plan)
| SweepPlan (p : sweep_plan).

(** The attributes of [SimState], with [st_] before their names. *)
Record sim_state : Type := mksim {
  st_robot_pos : point A;
  st_robot_heading : num;
  st_balls : list (point A);
  st_collected : ListSet.set nat;
  st_phase : Z;
  st_status : sim_status;
  st_paused : bool;
  st_show_nn_path : bool;
  st_plan : option plan_dict;
  st_smooth_path : option (list (point A));
  st_path_idx : nat;
  st_trail : list (point A);
  st_nn_path : option (list (point A));
  st_opt_path : option (list (point A));
  st_replan_count : Z;
  st_comparison_timer : num
}.

(** Assignments to the attributes. *)
Definition set_robot_pos (v : point A) (s : sim_state) : sim_state :=
  mksim v (st_robot_heading s) (st_balls s) (st_collected s) (st_phase s)
        (st_status s) (st_paused s) (st_show_nn_path s) (st_plan s)
        (st_smooth_path s) (st_path_idx s) (st_trail s) (st_nn_path s)
        (st_opt_path s) (st_replan_count s) (st_comparison_timer s).
Definition set_robot_heading (v : num) (s : sim_state) : sim_state :=
  mksim (st_robot_pos s) v (st_balls s) (st_collected s) (st_phase s)
        (st_status s) (st_paused s) (st_show_nn_path s) (st_plan s)
        (st_smooth_path s) (st_path_idx s) (st_trail s) (st_nn_path s)
        (st_opt_path s) (st_replan_count s) (st_comparison_timer s).
Definition set_balls (v : list (point A)) (s : sim_state) : sim_state :=
  mksim (st_robot_pos s) (st_robot_heading s) v (st_collected s) (st_phase s)
        (st_status s) (st_paused s) (st_show_nn_path s) (st_plan s)
        (st_smooth_path s) (st_path_idx s) (st_trail s) (st_nn_path s)
        (st_opt_path s) (st_replan_count s) (st_comparison_timer s).
Definition set_collected (v : ListSet.set nat) (s : sim_state) : sim_state :=
  mksim (st_robot_pos s) (st_robot_heading s) (st_balls s) v (st_phase s)
        (st_status s) (st_paused s) (st_show_nn_path s) (st_plan s)
        (st_smooth_path s) (st_path_idx s) (st_trail s) (st_nn_path s)
        (st_opt_path s) (st_replan_count s) (st_comparison_timer s).
Definition set_status (v : sim_status) (s : sim_state) : sim_state :=
  mksim (st_robot_pos s) (st_robot_heading s) (st_balls s) (st_collected s)
        (st_phase s) v (st_paused s) (st_show_nn_path s) (st_plan s)
        (st_smooth_path s) (st_path_idx s) (st_trail s) (st_nn_path s)
        (st_opt_path s) (st_replan_count s) (st_comparison_timer s).
Definition set_plan (v : option plan_dict) (s : sim_state) : sim_state :=
  mksim (st_robot_pos s) (st_robot_heading s) (st_balls s) (st_collected s)
        (st_phase s) (st_status s) (st_paused s) (st_show_nn_path s) v
        (st_smooth_path s) (st_path_idx s) (st_trail s) (st_nn_path s)
        (st_opt_path s) (st_replan_count s) (st_comparison_timer s).
Definition set_smooth_path (v : option (list (point A))) (s : sim_state)
  : sim_state :=
  mksim (st_robot_pos s) (st_robot_heading s) (st_balls s) (st_collected s)
        (st_phase s) (st_status s) (st_paused s) (st_show_nn_path s)
        (st_plan s) v (st_path_idx s) (st_trail s) (st_nn_path s)
        (st_opt_path s) (st_replan_count s) (st_comparison_timer s).
Definition set_path_idx (v : nat) (s : sim_state) : sim_state :=
  mksim (st_robot_pos s) (st_robot_heading s) (st_balls s) (st_collected s)
        (st_phase s) (st_status s) (st_paused s) (st_show_nn_path s)
        (st_plan s) (st_smooth_path s) v (st_trail s) (st_nn_path s)
        (st_opt_path s) (st_replan_count s) (st_comparison_timer s).
Definition set_trail (v : list (point A)) (s : sim_state) : sim_state :=
  mksim (st_robot_pos s) (st_robot_heading s) (st_balls s) (st_collected s)
        (st_phase s) (st_status s) (st_paused s) (st_show_nn_path s)
        (st_plan s) (st_smooth_path s) (st_path_idx s) v (st_nn_path s)
        (st_opt_path s) (st_replan_count s) (st_comparison_timer s).
Definition set_nn_path (v : option (list (point A))) (s : sim_state)
  : sim_state :=
  mksim (st_robot_pos s) (st_robot_heading s) (st_balls s) (st_collected s)
        (st_phase s) (st_status s) (st_paused s) (st_show_nn_path s)
        (st_plan s) (st_smooth_path s) (st_path_idx s) (st_trail s) v
        (st_opt_path s) (st_replan_count s) (st_comparison_timer s).
Definition set_opt_path (v : option (list (point A))) (s : sim_state)
  : sim_state :=
  mksim (st_robot_pos s) (st_robot_heading s) (st_balls s) (st_collected s)
        (st_phase s) (st_status s) (st_paused s) (st_show_nn_path s)
        (st_plan s) (st_smooth_path s) (st_path_idx s) (st_trail s)
        (st_nn_path s) v (st_replan_count s) (st_comparison_timer s).
Definition set_replan_count (v : Z) (s : sim_state) : sim_state :=
  mksim (st_robot_pos s) (st_robot_heading s) (st_balls s) (st_collected s)
        (st_phase s) (st_status s) (st_paused s) (st_show_nn_path s)
        (st_plan s) (st_smooth_path s) (st_path_idx s) (st_trail s)
        (st_nn_path s) (st_opt_path s) v (st_comparison_timer s).
Definition set_comparison_timer (v : num) (s : sim_state) : sim_state :=
  mksim (st_robot_pos s) (st_robot_heading s) (st_balls s) (st_collected s)
        (st_phase s) (st_status s) (st_paused s) (st_show_nn_path s)
        (st_plan s) (st_smooth_path s) (st_path_idx s) (st_trail s)
        (st_nn_path s) (st_opt_path s) (st_replan_count s) v.

(** [SimState.reset] *)
Definition reset : sim_state :=
  mksim (mkpt (of_Z 1) (FIELD_WIDTH / of_Z 2)) zero [] (ListSet.empty_set nat)
        1%Z Idle false true None None 0 [] None None 0%Z zero.

(** [i in state.collected] *)
Definition is_collected (s : ListSet.set nat) (i : nat) : bool :=
  ListSet.set_mem Nat.eq_dec i s.

(** [_ball_array]: the balls whose index is not in [collected]. *)
Definition _ball_array (s : sim_state) : list (point A) :=
  map (at_ (st_balls s))
      (filter (fun i => negb (is_collected (st_collected s) i))
              (range 0 (length (st_balls s)))).

(** [array / scalar] *)
Definition pdiv (p : point A) (c : num) : point A := mkpt (px p / c) (py p / c).

Definition _set_initial_heading (s : sim_state) : sim_state :=
  match st_smooth_path s with
  | Some path =>
      if (1 <? length path)%nat then
        let d := psub (at_ path 1) (at_ path 0) in
        if eps_heading <? norm d
        then set_robot_heading (arctan2 (py d) (px d)) s
        else s
      else s
  | None => s
  end.

(** [fuel] is the number of sweeps allowed to [two_opt_improve]. *)
Definition do_plan (fuel : nat) (s : sim_state) : outcome sim_state :=
  let balls := _ball_array s in
  if (length balls =? 0)%nat then
    Returns (set_opt_path None (set_nn_path None (set_smooth_path None
              (set_plan None (set_status Done s)))))
  else if (st_phase s =? 1)%Z then
    let* result := plan_nearest_cluster balls (st_robot_pos s)
                                        DEFAULT_CLUSTER_RADIUS in
    match result with
    | None => Returns (set_status Done s)
    | Some r =>
        let s1 := set_plan (Some (NearestPlan r)) s in
        let s2 := set_smooth_path (Some (nc_path r)) s1 in
        let s3 := set_opt_path None (set_nn_path None s2) in
        let s4 := set_trail [st_robot_pos s3] (set_path_idx 0 s3) in
        Returns (set_status Executing (_set_initial_heading s4))
    end
  else
    let* result := plan_full_sweep fuel balls (st_robot_pos s) in
    match result with
    | None => Returns (set_status Done s)
    | Some r =>
        let s1 := set_plan (Some (SweepPlan r)) s in
        let s2 := set_opt_path (Some (opt_path r))
                    (set_nn_path (Some (nn_path r)) s1) in
        let s3 := set_smooth_path (Some (opt_path r)) s2 in
        let s4 := set_trail [st_robot_pos s3] (set_path_idx 0 s3) in
        let s5 := set_comparison_timer COMPARISON_PAUSE_SEC
                    (_set_initial_heading s4) in
        Returns (set_status Comparing s5)
    end.

Definition do_replan (fuel : nat) (s : sim_state) : outcome sim_state :=
  let balls := _ball_array s in
  if (length balls =? 0)%nat then
    Returns (set_opt_path None (set_nn_path None (set_smooth_path None
              (set_status Done s))))
  else
    let* planned :=
      if (st_phase s =? 1)%Z then
        let* result := plan_nearest_cluster balls (st_robot_pos s)
                                            DEFAULT_CLUSTER_RADIUS in
        match result with
        | None => Returns (inl (set_status Done s))
        | Some r =>
            let s1 := set_plan (Some (NearestPlan r)) s in
            let s2 := set_smooth_path (Some (nc_path r)) s1 in
            Returns (inr (set_opt_path None (set_nn_path None s2)))
        end
      else
        let* result := plan_full_sweep fuel balls (st_robot_pos s) in
        match result with
        | None => Returns (inl (set_status Done s))
        | Some r =>
            let s1 := set_plan (Some (SweepPlan r)) s in
            let s2 := set_opt_path (Some (opt_path r))
                        (set_nn_path (Some (nn_path r)) s1) in
            Returns (inr (set_smooth_path (Some (opt_path r)) s2))
        end in
    match planned with
    | inl s' => Returns s'                               (* [return] *)
    | inr s' =>
        let s1 := set_path_idx 0 s' in
        let s2 := set_replan_count (st_replan_count s1 + 1)%Z s1 in
        Returns (set_status Executing (_set_initial_heading s2))
    end.

(** [while dist_budget > 0 and state.path_idx < len(path) - 1: ...]; the
    state is [(robot_pos, path_idx, dist_budget)]. *)
Fixpoint move_loop (fuel : nat) (path : list (point A)) (pos : point A)
    (idx : nat) (dist_budget : num) : outcome (point A * nat * num) :=
  if (zero <? dist_budget) && (idx <? length path - 1)%nat then
    match fuel with
    | O => OutOfFuel
    | S fuel' =>
        let target := at_ path (idx + 1) in
        let to_target := psub target pos in
        let d := norm to_target in
        if d <=? dist_budget
        then move_loop fuel' path target (idx + 1) (dist_budget - d)
        else
          let direction := pdiv to_target d in
          move_loop fuel' path (padd pos (ptimes direction dist_budget))
                    idx zero
    end
  else Returns (pos, idx, dist_budget).

(** [state.balls.pop(idx)] *)
Definition pop_ball (balls : list (point A)) (idx : nat) : list (point A) :=
  firstn idx balls ++ skipn (S idx) balls.

(** [{(i - 1 if i > idx else i) for i in collected if i != idx}] *)
Definition remap_collected (collected : ListSet.set nat) (idx : nat)
  : ListSet.set nat :=
  fold_right
    (fun i acc =>
       if (i =? idx)%nat then acc
       else ListSet.set_add Nat.eq_dec (if (idx <? i)%nat then (i - 1)%nat else i)
                         acc)
    (ListSet.empty_set nat) collected.

(** The indices of the balls within the intake's reach of [pos]. *)
Definition to_remove (balls : list (point A)) (collected : ListSet.set nat)
    (pos : point A) : list nat :=
  filter (fun i => negb (is_collected collected i)
                   && (norm (psub (at_ balls i) pos) <? COLLECTION_RADIUS))
         (range 0 (length balls)).

(** [for idx in reversed(to_remove): ...]; the state is
    [(balls, collected)]. *)
Definition collect_balls (balls : list (point A)) (collected : ListSet.set nat)
    (pos : point A) : list (point A) * ListSet.set nat :=
  fold_left (fun bc idx => (pop_ball (fst bc) idx, remap_collected (snd bc) idx))
            (rev (to_remove balls collected pos))
            (balls, collected).

(** [step(dt)]; the loop that moves the robot takes at most one turn for
    each point of the path, and one more. *)
Definition step (fuel : nat) (dt : num) (s : sim_state) : outcome sim_state :=
  if st_paused s || status_eqb (st_status s) Idle
     || status_eqb (st_status s) Done
  then Returns s
  else if status_eqb (st_status s) Comparing then
    let s1 := set_comparison_timer (st_comparison_timer s - dt) s in
    if st_comparison_timer s1 <=? zero
    then Returns (set_status Executing s1)
    else Returns s1
  else if negb (status_eqb (st_status s) Executing) then Returns s
  else
    match st_smooth_path s with
    | None => Returns s
    | Some path =>
        if (length path - 1 <=? st_path_idx s)%nat
        then Returns (set_status Done s)
        else
          let* (pos, idx, _) :=
            move_loop (length path + 1) path (st_robot_pos s) (st_path_idx s)
                      (ROBOT_SPEED * dt) in
          let s1 := set_path_idx idx (set_robot_pos pos s) in
          let s2 :=
            if (idx <? length path - 1)%nat then
              let direction := psub (at_ path (idx + 1)) pos in
              if eps_heading <? norm direction
              then set_robot_heading
                     (arctan2 (py direction) (px direction)) s1
              else s1
            else s1 in
          let s3 := set_trail (st_trail s2 ++ [pos]) s2 in
          let '(balls', collected') :=
            collect_balls (st_balls s3) (st_collected s3) pos in
          let s4 := set_collected collected' (set_balls balls' s3) in
          if (length path - 1 <=? idx)%nat then
            if (0 <? length (_ball_array s4))%nat
               && ((st_phase s4 =? 1)%Z || (st_phase s4 =? 2)%Z)
            then do_replan fuel s4
            else Returns (set_status Done s4)
          else Returns s4
    end.

(** A mouse event: whether it is inside the axes, its coordinates, the
    button. *)
Record click : Type := mkclick {
  inaxes : bool;
  xdata : option num;
  ydata : option num;
  button : Z
}.

(** The loop of [on_click] that remaps [collected] after ball [nearest]
    has gone. *)
Definition shift_collected (collected : ListSet.set nat) (nearest : nat)
  : ListSet.set nat :=
  fold_left
    (fun acc i =>
       if (i <? nearest)%nat then ListSet.set_add Nat.eq_dec i acc
       else if (nearest <? i)%nat
            then ListSet.set_add Nat.eq_dec (i - 1)%nat acc
       else acc)
    collected (ListSet.empty_set nat).

Definition on_click (event : click) (s : sim_state) : outcome sim_state :=
  if negb (inaxes event) then Returns s
  else
    match xdata event, ydata event with
    | Some x, Some y =>
        if (button event =? 1)%Z then
          Returns (set_balls (st_balls s ++ [mkpt x y]) s)
        else if (button event =? 3)%Z then
          match st_balls s with
          | [] => Returns s
          | _ :: _ =>
              let dists := map (fun b => norm (psub b (mkpt x y))) (st_balls s) in
              let* nearest := argmin dists in
              if nth nearest dists zero <? REMOVE_RADIUS then
                Returns (set_collected
                           (shift_collected (st_collected s) nearest)
                           (set_balls (pop_ball (st_balls s) nearest) s))
              else Returns s
          end
        else Returns s
    | _, _ => Returns s
    end.

(** The keys [on_key] tells apart: space, 1, 2, s, r, p, n, d, and any
    other. *)
Inductive key_name : Type :=
| KeySpace | Key1 | Key2 | KeyS | KeyR | KeyP | KeyN | KeyD | KeyOther.

Definition set_phase (v : Z) (s : sim_state) : sim_state :=
  mksim (st_robot_pos s) (st_robot_heading s) (st_balls s) (st_collected s)
        v (st_status s) (st_paused s) (st_show_nn_path s) (st_plan s)
        (st_smooth_path s) (st_path_idx s) (st_trail s) (st_nn_path s)
        (st_opt_path s) (st_replan_count s) (st_comparison_timer s).
Definition set_paused (v : bool) (s : sim_state) : sim_state :=
  mksim (st_robot_pos s) (st_robot_heading s) (st_balls s) (st_collected s)
        (st_phase s) (st_status s) v (st_show_nn_path s) (st_plan s)
        (st_smooth_path s) (st_path_idx s) (st_trail s) (st_nn_path s)
        (st_opt_path s) (st_replan_count s) (st_comparison_timer s).
Definition set_show_nn_path (v : bool) (s : sim_state) : sim_state :=
  mksim (st_robot_pos s) (st_robot_heading s) (st_balls s) (st_collected s)
        (st_phase s) (st_status s) (st_paused s) v (st_plan s)
        (st_smooth_path s) (st_path_idx s) (st_trail s) (st_nn_path s)
        (st_opt_path s) (st_replan_count s) (st_comparison_timer s).

(** [on_key].  What [np.random] yields is given: [n] is the integer that
    [randint(8, 16)] draws for the key s, and [drawn i] the point made of
    the [i]-th pair of coordinates that [uniform] draws. *)
Definition on_key (fuel : nat) (key : key_name) (n : nat)
    (drawn : nat -> point A) (s : sim_state) : outcome sim_state :=
  let idle_or_done :=
    status_eqb (st_status s) Idle || status_eqb (st_status s) Done in
  match key with
  | KeySpace =>
      if idle_or_done then do_plan fuel (set_status Planning s)
      else Returns s
  | Key1 =>
      let s1 := set_phase 1 s in
      if idle_or_done
      then Returns (set_opt_path None (set_nn_path None s1))
      else Returns s1
  | Key2 => Returns (set_phase 2 s)
  | KeyS => Returns (set_balls (st_balls s ++ map drawn (seq 0 n)) s)
  | KeyR => Returns reset
  | KeyP => Returns (set_paused (negb (st_paused s)) s)
  | KeyN =>
      let s1 := set_balls (st_balls s ++ [drawn 0]) s in
      if status_eqb (st_status s1) Executing
         && ((st_phase s1 =? 1)%Z || (st_phase s1 =? 2)%Z)
      then do_replan fuel s1
      else Returns s1
  | KeyD => Returns (set_show_nn_path (negb (st_show_nn_path s)) s)
  | KeyOther => Returns s
  end.

(** [FPS], and the function [animate] of [main] without the drawing:
    [step(dt)] with [dt = 1.0 / FPS]. *)
Definition FPS : Z := 30.

Definition animate (fuel : nat) (s : sim_state) : outcome sim_state :=
  step fuel (of_Z 1 / of_Z FPS) s.

End Simulation.

(** * Auxiliary definitions

    Notions the statements and proofs below use; none of them is part of
    [planner.py]. *)

(** [sub] is [l] with some elements left out, the others in their order. *)
Inductive subseq {T : Type} : list T -> list T -> Prop :=
| subseq_nil : subseq [] []
| subseq_keep x sub l : subseq sub l -> subseq (x :: sub) (x :: l)
| subseq_drop x sub l : subseq sub l -> subseq sub (x :: l).

Create HintDb planner.
#[export] Hint Constructors subseq : planner.

Section PruneScan.

Context {A : Arith} {Pw : Pow A}.
Variable waypoints : list (point A).
Variable h : num.

(** The decisions of one pass over the part [l] of [kept] that is still to
    be read, [prev] being the last index kept so far: the interior indices
    that survive, and whether one was removed. *)
Fixpoint prune_scan (prev : nat) (l : list nat) : list nat * bool :=
  match l with
  | kj :: ((knext :: _) as tl) =>
      if nleb h (_point_to_segment_dist (at_ waypoints kj)
                   (at_ waypoints prev) (at_ waypoints knext))
      then let '(r, c) := prune_scan kj tl in (kj :: r, c)
      else let '(r, c) := prune_scan prev tl in (r, true)
  | _ => ([], false)
  end.

End PruneScan.

(** The samples of the segment from waypoint [s] to waypoint [s + 1]: the
    control points before and after are the neighbouring waypoints, the
    first and the last waypoint standing in for the missing ones. *)
Definition segment_samples {A : Arith} {Pw : Pow A} (w : list (point A)) (k s : nat)
  : list (point A) :=
  map (fun t_idx =>
         catmull_rom (at_ w (s - 1)) (at_ w s) (at_ w (s + 1))
                     (at_ w (Nat.min (s + 2) (length w - 1)))
                     (of_nat t_idx / of_nat k)%num)
      (seq 0 k).

(** The layout the words "passes through every waypoint and inserts [k]
    points between each consecutive pair" describe: the waypoints, each
    consecutive pair separated by [k] further points. *)
Fixpoint weave {T : Type} (w : list T) (gaps : list (list T)) : list T :=
  match w, gaps with
  | x :: ((_ :: _) as w'), g :: gaps' => x :: g ++ weave w' gaps'
  | _, _ => w
  end.

Definition inserts_between {T : Type} (k : nat) (w out : list T) : Prop :=
  exists gaps,
    length gaps = length w - 1 /\
    Forall (fun g => length g = k) gaps /\
    out = weave w gaps.

(** Unfolds the operations of [real_arith] to those of [R]. *)
Ltac real_ops :=
  cbn [num of_Z nadd nsub nmul ndiv nopp nsqrt nltb nleb neqb real_arith] in *;
  unfold npow, real_pow_arith in *.

(** The distance from [cur] to [q], as a real number. *)
Definition dist_from (cur q : point real_arith) : R :=
  norm (A:=real_arith) (psub q cur).

(** The tours the specification describes: from [cur], visit the first of
    the remaining points that is nearest to [cur], and go on from there. *)
Inductive nn_tour :
  point real_arith -> list (point real_arith) -> list (point real_arith)
  -> Prop :=
| nn_tour_done cur : nn_tour cur [] []
| nn_tour_visit cur before p after rest :
    (forall q, In q (before ++ p :: after) ->
               (dist_from cur p <= dist_from cur q)%R) ->
    (forall q, In q before -> (dist_from cur p < dist_from cur q)%R) ->
    nn_tour p (before ++ after) rest ->
    nn_tour cur (before ++ p :: after) (p :: rest).

Section TwoOptNotions.

Context {A : Arith} {Pw : Pow A}.

(** The test [d_new < d_old - 1e-10] of the loop body, at [(i, j)]. *)
Definition improves (n : nat) (tour : list (point A)) (i j : nat) : bool :=
  let d_old0 := norm (psub (at_ tour i) (at_ tour (i + 1))) in
  let '(d_old, d_new) :=
    if (j + 1 <? n)%nat
    then ((d_old0 + norm (psub (at_ tour j) (at_ tour (j + 1))))%num,
          (norm (psub (at_ tour i) (at_ tour j))
           + norm (psub (at_ tour (i + 1)) (at_ tour (j + 1))))%num)
    else (d_old0, norm (psub (at_ tour i) (at_ tour j))) in
  (d_new <? d_old - eps_swap)%num.

(** The pairs [(i, j)] a sweep visits, in order. *)
Definition sweep_pairs (n : nat) : list (nat * nat) :=
  flat_map (fun i => map (pair i) (range (i + 2) n)) (range 0 (n - 1)).

(** Some pair of edges of [tour], [(i, i + 1)] and [(j, j + 1)] with
    [i + 1 < j] ([j] may be the last position), passes the loop's test. *)
Definition has_improving_swap (tour : list (point A)) : Prop :=
  exists i j, i + 1 < j /\ j < length tour /\
              improves (length tour) tour i j = true.

(** What holds of the state [(tour, improved)] of a sweep started from
    [t0], once the pairs [done] are behind. *)
Definition sweep_inv (t0 : list (point A)) (done : list (nat * nat))
    (st : list (point A) * bool) : Prop :=
  Permutation t0 (fst st) /\
  hd_error (fst st) = hd_error t0 /\
  (snd st = false ->
   fst st = t0 /\
   forall ij, In ij done -> improves (length t0) t0 (fst ij) (snd ij) = false) /\
  (snd st = true ->
   exists ij, In ij done /\ improves (length t0) t0 (fst ij) (snd ij) = true).

End TwoOptNotions.

(** The length of the path through [l], edge by edge. *)
Fixpoint plen (l : list (point real_arith)) : R :=
  match l with
  | p :: ((q :: _) as tl) => (dist_from p q + plen tl)%R
  | _ => 0%R
  end.

(** All the lists of [n] elements of [xs]. *)
Fixpoint tuples {T : Type} (xs : list T) (n : nat) : list (list T) :=
  match n with
  | O => [[]]
  | S n' => flat_map (fun x => map (cons x) (tuples xs n')) xs
  end.

(** How many arrangements of [n] points of [t0] are shorter than [t]. *)
Definition shorter_count (t0 t : list (point real_arith)) : nat :=
  length (filter (fun u => Rltb (plen u) (plen t)) (tuples t0 (length t0))).

(** The positions a mask selects, counted from [k]. *)
Fixpoint mask_indices_from (k : nat) (mask : list bool) : list nat :=
  match mask with
  | [] => []
  | b :: mask' =>
      if b then k :: mask_indices_from (S k) mask'
      else mask_indices_from (S k) mask'
  end.

Definition mask_indices (mask : list bool) : list nat :=
  mask_indices_from 0 mask.

(** The number of positions a mask leaves unset. *)
Definition unset_count (mask : list bool) : nat :=
  length (filter negb mask).

(** Position [i] of a mask is set. *)
Definition isset (mask : list bool) (i : nat) : Prop := nth i mask false = true.

Section ClusterNotions.

Context {A : Arith} {Pw : Pow A}.
Variable balls : list (point A).
Variable radius : num.

(** Ball [i] is within [radius] of ball [curr], as the flood fill tests it. *)
Definition near (curr i : nat) : bool := nleb (ball_dist balls curr i) radius.

Definition linked (i j : nat) : Prop :=
  i < length balls /\ j < length balls /\ near i j = true.

(** [j] is reached from [i] by a chain of balls, each within [radius] of
    the one before. *)
Definition chain : nat -> nat -> Prop := clos_refl_trans nat linked.

Local Abbreviation n := (length balls).

(** What holds of the state of the [for] loop at [curr], started from
    the masks [V], [C] and the queue [Q], once the positions [done] are
    behind. *)
Definition visit_inv (curr : nat) (V C : list bool) (Q : list nat)
    (done : list nat) (st : bfs_state) : Prop :=
  length (visited st) = n /\ length (in_cluster st) = n /\
  (forall i, isset (visited st) i <->
             isset V i \/ (In i done /\ near curr i = true)) /\
  (forall i, isset (in_cluster st) i <->
             isset C i \/ (In i done /\ ~ isset V i /\ near curr i = true)) /\
  (forall x, In x (queue st) <->
             In x Q \/ (In x done /\ ~ isset V x /\ near curr x = true)) /\
  length (queue st) + 2 * unset_count (visited st)
  <= length Q + 2 * unset_count V.

(** What holds of the flood fill from [seed], [V0] being the balls visited
    before it: the cluster so far is new, reached from [seed] by chains, and
    every ball of it that has left the queue has all its neighbours
    visited. *)
Definition bfs_inv (V0 : list bool) (seed : nat) (st : bfs_state) : Prop :=
  length (visited st) = n /\ length (in_cluster st) = n /\
  (forall q, In q (queue st) -> isset (in_cluster st) q) /\
  (forall i, isset (in_cluster st) i -> ~ isset V0 i) /\
  (forall i, isset (visited st) i <-> isset V0 i \/ isset (in_cluster st) i) /\
  isset (in_cluster st) seed /\
  (forall i, isset (in_cluster st) i -> chain seed i) /\
  (forall i, isset (in_cluster st) i -> ~ In i (queue st) ->
             forall j, j < n -> near i j = true -> isset (visited st) j).

(** [clusters] is a partition of [balls] into groups connected by chains:
    the clusters are non-empty and hold each ball once; they are the balls
    at the positions [idxs], a partition of [0 .. n-1], and two positions
    are in one cluster exactly when a chain leads from one to the other. *)
Definition clusters_partition (clusters : list (list (point A))) : Prop :=
  Forall (fun c => c <> []) clusters /\
  Permutation balls (concat clusters) /\
  (exists idxs : list (list nat),
      clusters = map (take_idx balls) idxs /\
      Forall (fun c => c <> []) idxs /\
      Permutation (concat idxs) (range 0 (length balls)) /\
      forall i j, i < length balls -> j < length balls ->
        ((exists c, In c idxs /\ In i c /\ In j c) <-> chain i j)) /\
  (balls = [] -> clusters = []).

(** What holds when the seeds [done] are behind: the clusters found are
    the balls visited, each is non-empty, connected by chains and closed
    under [near], and no ball is in two of them. *)
Definition clusters_inv (done : list nat)
    (acc : list bool * list (list (point A))) : Prop :=
  exists idxs,
    snd acc = map (take_idx balls) idxs /\
    length (fst acc) = n /\
    (forall i, isset (fst acc) i <-> exists c, In c idxs /\ In i c) /\
    (forall c, In c idxs ->
       c <> [] /\
       (forall i j, In i c -> In j c -> chain i j) /\
       (forall i j, In i c -> j < n -> near i j = true -> In j c)) /\
    NoDup (concat idxs) /\
    (forall x, In x done -> isset (fst acc) x).

End ClusterNotions.

Section SelectNotions.

Variable robot_pos : point real_arith.
Variable bias : R.

(** The cluster at position [k] of [cs] scores [s], with least distance
    [md]; no cluster of [cs] scores more, and those before it score less. *)
Definition first_best (cs : list (list (point real_arith))) (k : nat)
    (c : list (point real_arith)) (s md : R) : Prop :=
  nth_error cs k = Some c /\
  score_cluster c robot_pos bias = Returns (s, md) /\
  forall j c', nth_error cs j = Some c' ->
    exists s' md',
      score_cluster c' robot_pos bias = Returns (s', md') /\
      (s' <= s)%R /\ (j < k -> (s' < s)%R).

(** What holds of [(best_cluster, best_score, best_min_dist)] once the
    clusters [done] are behind. *)
Definition select_inv (done : list (list (point real_arith)))
    (st : option (list (point real_arith)) * R * R) : Prop :=
  let '(best_cluster, best_score, best_min_dist) := st in
  (done = [] /\ best_cluster = None /\ best_score = (-1)%R) \/
  (exists k c, best_cluster = Some c /\
               first_best done k c best_score best_min_dist).

End SelectNotions.

(** The point of the segment from [a] to [b] at the parameter [s]. *)
Definition seg_point (a b : point real_arith) (s : R) : point real_arith :=
  padd a (pscale (A:=real_arith) s (psub b a)).

(** The parameter, on the segment between two waypoints that have no
    others around them, of the Catmull-Rom sample at [t]. *)
Definition ease (t : R) : R := ((t + 3 * (t * t) - 2 * (t * t * t)) / 2)%R.

(** ** Notions for the simulation *)

(** The number of positions below [i], among the first [m], that [p]
    holds of. *)
Definition removed_below (p : nat -> bool) (m i : nat) : nat :=
  length (filter (fun r => p r && (r <? i)%nat) (range 0 m)).

(** The test of the collection loop of [step] at position [i]: the ball is
    not marked collected and is within the intake's reach of [pos]. *)
Definition in_reach {A : Arith} (balls : list (point A))
    (collected : ListSet.set nat) (pos : point A) (i : nat) : bool :=
  negb (is_collected collected i)
  && nltb (norm (psub (at_ balls i) pos)) COLLECTION_RADIUS.

Section Reachable.

Context {A : Arith} {Pw : Pow A}.
Variable arctan2 : num -> num -> num.

(** What [main] connects to the figure: the frames of the animation, the
    clicks and the keys. *)
Inductive sim_event : Type :=
| Frame
| Click (event : click)
| Key (key : key_name) (n : nat) (drawn : nat -> point A).

Definition handle (fuel : nat) (e : sim_event) (s : sim_state)
  : outcome sim_state :=
  match e with
  | Frame => animate arctan2 fuel s
  | Click event => on_click event s
  | Key key n drawn => on_key arctan2 fuel key n drawn s
  end.

(** The states the simulation can be in: the initial one, and those the
    handlers return from them. *)
Inductive reachable : sim_state -> Prop :=
| reachable_reset : reachable reset
| reachable_handle fuel e s s' :
    reachable s -> handle fuel e s = Returns s' -> reachable s'.

(** No ball is marked collected, the state is not left planning, and a
    state that is executing or comparing has a plan and a path. *)
Definition sim_inv (s : sim_state) : Prop :=
  st_collected s = [] /\
  st_status s <> Planning /\
  (st_status s = Executing \/ st_status s = Comparing ->
   st_plan s <> None /\ st_smooth_path s <> None).

End Reachable.

(** Unfolds the assignments to the attributes of the state. *)
Ltac sim_fields :=
  cbn [st_robot_pos st_robot_heading st_balls st_collected st_phase st_status
       st_paused st_show_nn_path st_plan st_smooth_path st_path_idx st_trail
       st_nn_path st_opt_path st_replan_count st_comparison_timer
       set_robot_pos set_robot_heading set_balls set_collected set_status
       set_plan set_smooth_path set_path_idx set_trail set_nn_path
       set_opt_path set_replan_count set_comparison_timer set_phase
       set_paused set_show_nn_path] in *.

(** * Properties *)

(** ** Lists *)

Section ListFacts.

Context {T U : Type}.

Lemma subseq_refl (l : list T) : subseq l l.
Proof. induction l; auto with planner. Qed.

Lemma subseq_trans (l1 l2 l3 : list T) :
  subseq l1 l2 -> subseq l2 l3 -> subseq l1 l3.
Proof.
  intros H12 H23. revert l1 H12.
  induction H23; intros l1 H12.
  - exact H12.
  - inversion H12; subst; auto with planner.
  - auto with planner.
Qed.

Lemma subseq_length (l1 l2 : list T) : subseq l1 l2 -> length l1 <= length l2.
Proof. induction 1; simpl; lia. Qed.

Lemma subseq_length_eq (l1 l2 : list T) :
  subseq l1 l2 -> length l1 = length l2 -> l1 = l2.
Proof.
  induction 1; simpl; intros Hlen.
  - reflexivity.
  - f_equal. apply IHsubseq. lia.
  - apply subseq_length in H. lia.
Qed.

Lemma subseq_app (l1 l2 m1 m2 : list T) :
  subseq l1 m1 -> subseq l2 m2 -> subseq (l1 ++ l2) (m1 ++ m2).
Proof. induction 1; simpl; auto with planner. Qed.

Lemma subseq_map (f : T -> U) (l1 l2 : list T) :
  subseq l1 l2 -> subseq (map f l1) (map f l2).
Proof. induction 1; simpl; auto with planner. Qed.

Lemma subseq_In (l1 l2 : list T) x : subseq l1 l2 -> In x l1 -> In x l2.
Proof. induction 1; simpl; intuition. Qed.

Lemma map_nth_range (l : list T) (d : T) :
  map (fun i => nth i l d) (range 0 (length l)) = l.
Proof.
  unfold range. rewrite Nat.sub_0_r.
  induction l as [|x l IH]; simpl; [reflexivity|].
  f_equal. rewrite <- seq_shift, map_map. exact IH.
Qed.

Lemma last_app_single (l : list T) (x d : T) : last (l ++ [x]) d = x.
Proof. apply last_last. Qed.

Lemma set_at_length (l : list T) i v : length (set_at l i v) = length l.
Proof.
  revert i; induction l as [|x l IH]; intros [|i]; simpl; auto.
Qed.

Lemma nth_set_at (l : list T) i j v d :
  nth j (set_at l i v) d =
  if (j =? i)%nat && (i <? length l)%nat then v else nth j l d.
Proof.
  revert i j; induction l as [|x l IH]; intros [|i] [|j]; simpl; auto;
    rewrite ?Bool.andb_false_r, ?IH; reflexivity.
Qed.

End ListFacts.

Lemma range_cons (a b : nat) : a < b -> range a b = a :: range (S a) b.
Proof.
  intros H. unfold range. replace (b - a) with (S (b - S a)) by lia.
  reflexivity.
Qed.

Lemma range_nil (a b : nat) : b <= a -> range a b = [].
Proof. intros H. unfold range. replace (b - a) with 0 by lia. reflexivity. Qed.

Lemma range_snoc (a b : nat) : a <= b -> range a (S b) = range a b ++ [b].
Proof.
  intros H. unfold range. replace (S b - a) with (S (b - a)) by lia.
  rewrite seq_S. f_equal. f_equal. lia.
Qed.

Lemma in_range (a b i : nat) : In i (range a b) <-> a <= i < b.
Proof. unfold range. rewrite in_seq. lia. Qed.

Lemma bind_returns {T U : Type} (m : outcome T) (k : T -> outcome U) (u : U) :
  bind m k = Returns u -> exists v, m = Returns v /\ k v = Returns u.
Proof. destruct m; simpl; intros H; try discriminate. eauto. Qed.

(** ** Waypoint pruning *)

Section PruneFacts.

Context {A : Arith} {Pw : Pow A}.
Variable waypoints : list (point A).
Variable h : num.

Lemma prune_scan_step (prev kj knext : nat) (tl : list nat) :
  prune_scan waypoints h prev (kj :: knext :: tl) =
  if nleb h (_point_to_segment_dist (at_ waypoints kj)
               (at_ waypoints prev) (at_ waypoints knext))
  then (kj :: fst (prune_scan waypoints h kj (knext :: tl)),
        snd (prune_scan waypoints h kj (knext :: tl)))
  else (fst (prune_scan waypoints h prev (knext :: tl)), true).
Proof.
  change (prune_scan waypoints h prev (kj :: knext :: tl)) with
    (if nleb h (_point_to_segment_dist (at_ waypoints kj)
                  (at_ waypoints prev) (at_ waypoints knext))
     then let '(r, c) := prune_scan waypoints h kj (knext :: tl) in (kj :: r, c)
     else let '(r, c) := prune_scan waypoints h prev (knext :: tl) in (r, true)).
  destruct (nleb h _).
  - destruct (prune_scan waypoints h kj (knext :: tl)); reflexivity.
  - destruct (prune_scan waypoints h prev (knext :: tl)); reflexivity.
Qed.

Lemma prune_fold_scan (l pre nk : list nat) (ch : bool) :
  l <> [] ->
  fold_left (prune_step waypoints h (pre ++ l))
            (range (length pre) (length (pre ++ l) - 1)) (nk, ch)
  = (nk ++ fst (prune_scan waypoints h (last nk O) l),
     ch || snd (prune_scan waypoints h (last nk O) l)).
Proof.
  revert pre nk ch.
  induction l as [|kj l IH]; intros pre nk ch Hne; [congruence|].
  destruct l as [|knext tl].
  - rewrite length_app. simpl. rewrite range_nil by lia. simpl.
    rewrite app_nil_r, orb_false_r. reflexivity.
  - rewrite range_cons by (rewrite length_app; simpl; lia).
    cbn [fold_left]. unfold prune_step at 2.
    replace (nth (length pre) (pre ++ kj :: knext :: tl) O) with kj
      by (rewrite app_nth2, Nat.sub_diag by lia; reflexivity).
    replace (nth (length pre + 1) (pre ++ kj :: knext :: tl) O) with knext
      by (rewrite app_nth2 by lia;
          replace (length pre + 1 - length pre) with 1 by lia; reflexivity).
    rewrite prune_scan_step.
    specialize (IH (pre ++ [kj])).
    replace ((pre ++ [kj]) ++ knext :: tl) with (pre ++ kj :: knext :: tl) in IH
      by (rewrite <- app_assoc; reflexivity).
    replace (length (pre ++ [kj])) with (S (length pre)) in IH
      by (rewrite length_app; simpl; lia).
    destruct (nleb h _).
    + rewrite IH by congruence. rewrite last_last. cbn [fst snd].
      rewrite <- app_assoc. reflexivity.
    + rewrite IH by congruence. cbn [fst snd last].
      rewrite orb_true_l, orb_true_r. reflexivity.
Qed.

Lemma prune_pass_scan (k0 : nat) (l : list nat) :
  l <> [] ->
  prune_pass waypoints h (k0 :: l)
  = (k0 :: fst (prune_scan waypoints h k0 l) ++ [last l O],
     snd (prune_scan waypoints h k0 l)).
Proof.
  intros Hne. unfold prune_pass.
  pose proof (prune_fold_scan l [k0] [k0] false Hne) as H.
  cbn [app length] in H. cbn [nth length]. rewrite H. cbn [last orb app].
  f_equal. f_equal. f_equal. destruct l; [congruence|reflexivity].
Qed.

Lemma prune_scan_subseq (l : list nat) (prev : nat) :
  subseq (fst (prune_scan waypoints h prev l)) (removelast l).
Proof.
  revert prev. induction l as [|kj l IH]; intros prev; [constructor|].
  destruct l as [|knext tl]; [constructor|].
  rewrite prune_scan_step. change (removelast (kj :: knext :: tl))
    with (kj :: removelast (knext :: tl)).
  destruct (nleb h _); cbn [fst]; auto with planner.
Qed.

Lemma prune_scan_unchanged (l : list nat) (prev : nat) :
  snd (prune_scan waypoints h prev l) = false ->
  fst (prune_scan waypoints h prev l) = removelast l.
Proof.
  revert prev. induction l as [|kj l IH]; intros prev; [reflexivity|].
  destruct l as [|knext tl]; [reflexivity|].
  rewrite prune_scan_step. change (removelast (kj :: knext :: tl))
    with (kj :: removelast (knext :: tl)).
  destruct (nleb h _); cbn [fst snd]; [|discriminate].
  intros Hc. rewrite IH by assumption. reflexivity.
Qed.

Lemma prune_scan_changed (l : list nat) (prev : nat) :
  snd (prune_scan waypoints h prev l) = true ->
  length (fst (prune_scan waypoints h prev l)) < length (removelast l).
Proof.
  revert prev. induction l as [|kj l IH]; intros prev; [discriminate|].
  destruct l as [|knext tl]; [discriminate|].
  rewrite prune_scan_step. change (removelast (kj :: knext :: tl))
    with (kj :: removelast (knext :: tl)).
  destruct (nleb h _); cbn [fst snd length].
  - intros Hc. specialize (IH kj Hc). lia.
  - pose proof (prune_scan_subseq (knext :: tl) prev) as Hs.
    apply subseq_length in Hs. intros _. lia.
Qed.

Lemma prune_pass_fixed (kept : list nat) :
  2 <= length kept ->
  snd (prune_pass waypoints h kept) = false ->
  prune_pass waypoints h kept = (kept, false).
Proof.
  destruct kept as [|k0 l]; simpl; [lia|]. intros Hlen.
  assert (Hne : l <> []) by (destruct l; simpl in *; [lia|congruence]).
  rewrite (prune_pass_scan k0 l Hne). cbn [snd]. intros Hc.
  rewrite Hc, (prune_scan_unchanged _ _ Hc).
  rewrite <- (app_removelast_last O Hne). reflexivity.
Qed.

Lemma prune_pass_shrinks (kept : list nat) :
  2 <= length kept ->
  let kept' := fst (prune_pass waypoints h kept) in
  subseq kept' kept /\ hd O kept' = hd O kept /\ last kept' O = last kept O /\
  2 <= length kept' /\
  (snd (prune_pass waypoints h kept) = true -> length kept' < length kept).
Proof.
  destruct kept as [|k0 l]; simpl; [lia|]. intros Hlen.
  assert (Hne : l <> []) by (destruct l; simpl in *; [lia|congruence]).
  rewrite (prune_pass_scan k0 l Hne). cbn [fst snd hd].
  pose proof (prune_scan_subseq l k0) as Hs.
  repeat split.
  - constructor.
    assert (E : subseq (fst (prune_scan waypoints h k0 l) ++ [last l O])
                       (removelast l ++ [last l O]))
      by (apply subseq_app; [exact Hs|apply subseq_refl]).
    rewrite <- app_removelast_last in E by exact Hne. exact E.
  - change (k0 :: fst (prune_scan waypoints h k0 l) ++ [last l O])
      with ((k0 :: fst (prune_scan waypoints h k0 l)) ++ [last l O]).
    rewrite last_last. destruct l; [congruence|reflexivity].
  - simpl. rewrite length_app. simpl. lia.
  - intros Hc. apply prune_scan_changed in Hc.
    simpl. rewrite length_app. simpl.
    assert (E : length l = length (removelast l) + 1)
      by (rewrite (app_removelast_last O Hne) at 1;
          rewrite length_app; reflexivity).
    lia.
Qed.

Lemma prune_loop_spec (fuel : nat) (kept : list nat) :
  2 <= length kept -> length kept <= S fuel ->
  exists kept',
    prune_loop fuel waypoints h kept = Returns kept' /\
    subseq kept' kept /\ hd O kept' = hd O kept /\
    last kept' O = last kept O /\ 2 <= length kept' /\
    prune_pass waypoints h kept' = (kept', false).
Proof.
  revert kept. induction fuel as [|fuel IH]; intros kept Hlo Hhi; [lia|].
  cbn [prune_loop].
  destruct (prune_pass_shrinks kept Hlo) as (Hsub & Hhd & Hlast & Hlen & Hdec).
  pose proof (prune_pass_fixed kept Hlo) as Hfix.
  destruct (prune_pass waypoints h kept) as [kept1 [|]] eqn:Epass;
    cbn [fst snd] in *.
  - specialize (Hdec eq_refl).
    destruct (IH kept1 Hlen ltac:(lia)) as (k' & Hrun & Hs & Hh & Hl & Hn & Hp).
    exists k'. repeat split; try assumption; try congruence.
    eapply subseq_trans; eassumption.
  - specialize (Hfix eq_refl). injection Hfix as ->.
    exists kept. repeat split; auto using subseq_refl.
Qed.

End PruneFacts.

(** Whether a pass removes something depends on the points read, not on
    the indices they are read through. *)
Lemma prune_scan_transfer {A : Arith} (w w' : list (point A)) (h : num)
    (l l' : list nat) (prev prev' : nat) :
  map (at_ w) l = map (at_ w') l' ->
  at_ w prev = at_ w' prev' ->
  snd (prune_scan w h prev l) = false ->
  snd (prune_scan w' h prev' l') = false.
Proof.
  revert l' prev prev'.
  induction l as [|kj l IH]; intros [|kj' l'] prev prev' Hmap Hprev;
    try discriminate; [reflexivity|].
  destruct l as [|knext tl]; destruct l' as [|knext' tl'];
    try discriminate; [reflexivity|].
  rewrite !prune_scan_step.
  injection Hmap as Hkj Hknext Htl.
  rewrite <- Hkj, <- Hprev, <- Hknext.
  destruct (nleb h _); cbn [snd]; [|discriminate].
  apply IH; [|exact Hkj]. cbn [map]. congruence.
Qed.

Lemma prune_waypoints_returns {A : Arith} (w : list (point A)) (h : num) :
  exists out, prune_waypoints w h = Returns out.
Proof.
  unfold prune_waypoints.
  destruct (length w <=? 2)%nat eqn:Hle; [exists w; reflexivity|].
  apply Nat.leb_gt in Hle.
  destruct (prune_loop_spec w h (length w) (range 0 (length w)))
    as (kept & Hrun & _).
  { unfold range. rewrite length_seq. lia. }
  { unfold range. rewrite length_seq. lia. }
  rewrite Hrun. cbn [bind]. eexists. reflexivity.
Qed.

(** C3: [prune_waypoints] returns an ordered subsequence of its input, no
    longer than it, that begins and ends with the input's first and last
    waypoint; an input of at most two waypoints is returned as it is.  This
    holds for every half-width and in every arithmetic. *)
Theorem prune_waypoints_subsequence {A : Arith} (w : list (point A)) (h : num) :
  exists out,
    prune_waypoints w h = Returns out /\
    subseq out w /\
    length out <= length w /\
    hd_error out = hd_error w /\
    last out origin = last w origin /\
    (length w <= 2 -> out = w).
Proof.
  unfold prune_waypoints.
  destruct (length w <=? 2)%nat eqn:Hle.
  - exists w. repeat split; auto using subseq_refl.
  - apply Nat.leb_gt in Hle.
    destruct (prune_loop_spec w h (length w) (range 0 (length w)))
      as (kept & Hrun & Hsub & Hhd & Hlast & Hlen & _).
    { unfold range. rewrite length_seq. lia. }
    { unfold range. rewrite length_seq. lia. }
    rewrite Hrun. cbn [bind]. exists (take_idx w kept).
    assert (Hsubw : subseq (take_idx w kept) w).
    { rewrite <- (map_nth_range w origin) at 2.
      apply (subseq_map (at_ w)). exact Hsub. }
    repeat split.
    + exact Hsubw.
    + apply subseq_length. exact Hsubw.
    + destruct kept as [|k0 kept]; [simpl in Hlen; lia|].
      simpl in Hhd. rewrite range_cons in Hhd by lia. simpl in Hhd. subst k0.
      destruct w; [simpl in Hle; lia|reflexivity].
    + unfold take_idx.
      destruct (exists_last (l:=kept)) as (ki & kl & ->).
      { intros ->. simpl in Hlen. lia. }
      rewrite map_app. simpl. rewrite !last_last in *.
      rewrite Hlast.
      destruct (exists_last (l:=w)) as (wi & wl & ->).
      { intros ->. simpl in Hle. lia. }
      rewrite length_app. simpl. rewrite Nat.add_1_r, range_snoc by lia.
      rewrite !last_last. unfold at_. rewrite nth_middle. reflexivity.
    + lia.
Qed.


(** C8: pruning is idempotent: [prune_waypoints] returns, and pruning what
    it returned, with the same half-width, returns that sequence again.
    This holds for every half-width and in every arithmetic. *)
Theorem prune_waypoints_idempotent {A : Arith} (w : list (point A)) (h : num) :
  exists out,
    prune_waypoints w h = Returns out /\
    prune_waypoints out h = Returns out.
Proof.
  unfold prune_waypoints at 1.
  destruct (length w <=? 2)%nat eqn:Hle.
  - exists w. split; [reflexivity|]. unfold prune_waypoints. rewrite Hle.
    reflexivity.
  - apply Nat.leb_gt in Hle.
    destruct (prune_loop_spec w h (length w) (range 0 (length w)))
      as (kept & Hrun & _ & _ & _ & Hlen & Hfix).
    { unfold range. rewrite length_seq. lia. }
    { unfold range. rewrite length_seq. lia. }
    rewrite Hrun. cbn [bind]. exists (take_idx w kept).
    split; [reflexivity|].
    set (w' := take_idx w kept).
    assert (Hlen' : length w' = length kept) by apply length_map.
    unfold prune_waypoints.
    destruct (length w' <=? 2)%nat eqn:Hle'; [reflexivity|].
    apply Nat.leb_gt in Hle'.
    destruct kept as [|k0 l]; [simpl in Hlen; lia|].
    assert (Hne : l <> []) by (destruct l; simpl in *; [lia|congruence]).
    rewrite (prune_pass_scan w h k0 l Hne) in Hfix.
    injection Hfix as _ Hc.
    assert (Hw' : map (at_ w') (range 0 (length w')) = w')
      by apply map_nth_range.
    rewrite range_cons in Hw' by lia.
    assert (Hc' : snd (prune_scan w' h 0 (range 1 (length w'))) = false).
    { apply (prune_scan_transfer w w' h l _ k0 0); [| |exact Hc].
      - unfold w' in Hw' at 3. simpl in Hw'. injection Hw' as Hw'.
        symmetry. exact Hw'.
      - reflexivity. }
    assert (Hne' : range 1 (length w') <> []).
    { rewrite range_cons by lia. congruence. }
    assert (Hpass : prune_pass w' h (range 0 (length w'))
                    = (range 0 (length w'), false)).
    { rewrite (range_cons 0) by lia.
      rewrite (prune_pass_scan w' h 0 _ Hne'), Hc'.
      rewrite (prune_scan_unchanged _ _ _ _ Hc').
      rewrite <- (app_removelast_last O Hne'). reflexivity. }
    destruct (length w') as [|m] eqn:Em; [lia|].
    cbn [prune_loop]. rewrite Hpass. cbn [bind].
    f_equal. unfold take_idx. rewrite <- Em. apply map_nth_range.
Qed.

(** ** Catmull-Rom smoothing *)

Lemma last_nth {T : Type} (l : list T) (d : T) :
  last l d = nth (length l - 1) l d.
Proof.
  induction l as [|x l IH]; [reflexivity|].
  destruct l as [|y l]; [reflexivity|].
  change (last (x :: y :: l) d) with (last (y :: l) d). rewrite IH.
  simpl. rewrite Nat.sub_0_r. reflexivity.
Qed.

Lemma flat_map_ext_in {T U : Type} (f g : T -> list U) (l : list T) :
  (forall x, In x l -> f x = g x) -> flat_map f l = flat_map g l.
Proof.
  induction l as [|x l IH]; intros H; [reflexivity|].
  simpl. rewrite (H x) by (left; reflexivity).
  rewrite IH; [reflexivity|]. intros y Hy. apply H. right. exact Hy.
Qed.

Lemma flat_map_length_const {T U : Type} (f : T -> list U) (l : list T) (k : nat) :
  (forall x, length (f x) = k) -> length (flat_map f l) = k * length l.
Proof.
  intros H. induction l as [|x l IH]; simpl; [lia|].
  rewrite length_app, H, IH. lia.
Qed.

Lemma nth_flat_map_seq {U : Type} (f : nat -> list U) (a m k s t : nat) (d : U) :
  (forall x, length (f x) = k) -> s < m -> t < k ->
  nth (s * k + t) (flat_map f (seq a m)) d = nth t (f (a + s)) d.
Proof.
  intros Hlen. revert a s.
  induction m as [|m IH]; intros a s Hs Ht; [lia|].
  simpl. destruct s as [|s].
  - simpl. rewrite app_nth1 by (rewrite Hlen; lia).
    rewrite Nat.add_0_r. reflexivity.
  - rewrite app_nth2 by (rewrite Hlen; simpl; lia).
    rewrite Hlen. replace (S s * k + t - k) with (s * k + t) by (simpl; lia).
    rewrite IH by lia. f_equal. f_equal. lia.
Qed.

Section SmoothFacts.

Context {A : Arith} {Pw : Pow A}.

Lemma smooth_path_segments (w : list (point A)) (k : nat) :
  2 <= length w ->
  smooth_path w k =
  flat_map (segment_samples w k) (seq 0 (length w - 1))
  ++ [at_ w (length w - 1)].
Proof.
  intros Hn. unfold smooth_path.
  destruct (Nat.ltb_spec (length w) 2) as [|_]; [lia|].
  cbv zeta.
  replace (at_ w (length w - 1)) with (last w origin)
    by (unfold at_; apply last_nth).
  f_equal.
  replace (length ([at_ w 0] ++ w ++ [last w origin]) - 2 - 1)
    with (length w - 1)
    by (rewrite !length_app; simpl; lia).
  rewrite <- seq_shift, flat_map_concat_map, map_map, <- flat_map_concat_map.
  apply flat_map_ext_in. intros s Hs. apply in_seq in Hs.
  unfold segment_samples. apply map_ext. intros t.
  assert (Hin : forall j, j < length w ->
            at_ ([at_ w 0] ++ w ++ [last w origin]) (S j) = at_ w j).
  { intros j Hj. unfold at_. simpl. rewrite app_nth1 by lia. reflexivity. }
  f_equal.
  - destruct s as [|s]; [reflexivity|].
    replace (S (S s) - 1) with (S s) by lia.
    replace (S s - 1) with s by lia. apply Hin. lia.
  - apply Hin. lia.
  - replace (S s + 1) with (S (s + 1)) by lia. apply Hin. lia.
  - replace (S s + 2) with (S (s + 2)) by lia.
    destruct (Nat.eq_dec (s + 2) (length w)) as [E|E].
    + rewrite Nat.min_r by lia. unfold at_ at 1. simpl.
      rewrite app_nth2 by lia. rewrite E, Nat.sub_diag. simpl.
      apply last_nth.
    + rewrite Nat.min_l by lia. apply Hin. lia.
Qed.

Lemma segment_samples_length (w : list (point A)) (k s : nat) :
  length (segment_samples w k s) = k.
Proof. unfold segment_samples. rewrite length_map, length_seq. reflexivity. Qed.

(** C5: the last point of the smoothed path is the last input waypoint
    itself, appended and not computed; an input of fewer than two waypoints
    is returned as it is.  This holds in every arithmetic, binary64
    included. *)
Theorem smooth_path_last (init : list (point A)) (x : point A) (k : nat) :
  (init <> [] ->
   exists body, smooth_path (init ++ [x]) k = body ++ [x]) /\
  smooth_path [x] k = [x] /\
  smooth_path [] k = [].
Proof.
  repeat split.
  intros Hne. unfold smooth_path.
  destruct (Nat.ltb_spec (length (init ++ [x])) 2) as [Hlt|_].
  - rewrite length_app in Hlt. destruct init; simpl in *; [congruence|lia].
  - cbv zeta. rewrite last_last. eexists. reflexivity.
Qed.

End SmoothFacts.

(** ** Exact arithmetic *)

Lemma Rltb_true (a b : R) : Rltb a b = true <-> (a < b)%R.
Proof. unfold Rltb. destruct (Rlt_dec a b); intuition discriminate. Qed.

Lemma Rltb_false (a b : R) : Rltb a b = false <-> (b <= a)%R.
Proof.
  unfold Rltb. destruct (Rlt_dec a b); split; intros;
    try lra; try discriminate; reflexivity.
Qed.

Lemma Rleb_true (a b : R) : Rleb a b = true <-> (a <= b)%R.
Proof. unfold Rleb. destruct (Rle_dec a b); intuition discriminate. Qed.

Lemma Rleb_false (a b : R) : Rleb a b = false <-> (b < a)%R.
Proof.
  unfold Rleb. destruct (Rle_dec a b); split; intros;
    try lra; try discriminate; reflexivity.
Qed.

Lemma Reqb_true (a b : R) : Reqb a b = true <-> a = b.
Proof. unfold Reqb. destruct (Req_dec_T a b); intuition discriminate. Qed.

Lemma Reqb_refl (a : R) : Reqb a a = true.
Proof. apply Reqb_true. reflexivity. Qed.

Lemma catmull_rom_at_0 (p0 p1 p2 p3 : point real_arith) (k : nat) :
  catmull_rom p0 p1 p2 p3 (of_nat 0 / of_nat k)%num = p1.
Proof.
  destruct p0 as [x0 y0], p1 as [x1 y1], p2 as [x2 y2], p3 as [x3 y3].
  unfold catmull_rom, pscale, padd, psub, pneg, ptimes, half, of_nat.
  cbn [px py]. real_ops. cbn [Z.of_nat].
  f_equal; unfold Rdiv; rewrite !Rmult_0_l; lra.
Qed.

(** C4, as stated, fails: with [k = 1] the smoothed path of two waypoints
    is the two waypoints and nothing else, so no point was inserted between
    them; in binary64 and in exact arithmetic alike. *)
Lemma smooth_path_inserts_k_minus_1 :
  (let a : point float_arith := mkpt 0%float 0%float in
   let b : point float_arith := mkpt 1%float 0%float in
   smooth_path [a; b] 1 = [a; b] /\
   ~ inserts_between 1 [a; b] (smooth_path [a; b] 1)) /\
  (let a : point real_arith := @mkpt real_arith 0%R 0%R in
   let b : point real_arith := @mkpt real_arith 1%R 0%R in
   smooth_path [a; b] 1 = [a; b] /\
   ~ inserts_between 1 [a; b] (smooth_path [a; b] 1)).
Proof.
  assert (Hno : forall (T : Type) (a b : T), ~ inserts_between 1 [a; b] [a; b]).
  { intros T a b (gaps & Hlen & Hall & Hout).
    apply (f_equal (@length _)) in Hout.
    destruct gaps as [|g [|g' gaps]]; simpl in Hlen; try discriminate.
    inversion Hall as [|? ? Hg _]; subst.
    simpl in Hout. rewrite length_app, Hg in Hout. simpl in Hout.
    discriminate. }
  cbv zeta. split.
  - assert (E : smooth_path [@mkpt float_arith 0%float 0%float;
                             @mkpt float_arith 1%float 0%float] 1
                = [mkpt 0%float 0%float; mkpt 1%float 0%float])
      by (vm_compute; reflexivity).
    rewrite E. split; [reflexivity|apply Hno].
  - assert (E : smooth_path [@mkpt real_arith 0%R 0%R;
                             @mkpt real_arith 1%R 0%R] 1
                = [@mkpt real_arith 0%R 0%R; @mkpt real_arith 1%R 0%R]).
    { rewrite smooth_path_segments by (simpl; lia).
      cbn [length Nat.sub seq flat_map segment_samples map app].
      rewrite catmull_rom_at_0. reflexivity. }
    rewrite E. split; [reflexivity|apply Hno].
Qed.

(** C4, amended: for at least two waypoints the smoothed path consists of
    [k] points per consecutive pair of waypoints followed by the last
    waypoint, [k * (n - 1) + 1] points in all; the points of the pair
    [(s, s + 1)] are the values of the Catmull-Rom formula at
    [t = 0, 1/k, ..., (k-1)/k], with the first and the last waypoint
    standing in for the control points that are missing at the two ends (in
    every arithmetic); and in exact arithmetic the value at [t = 0] is
    waypoint [s] itself, so the path passes through every waypoint and has
    [k - 1] points strictly between two consecutive ones. *)
Theorem smooth_path_interpolates :
  (forall (A : Arith) (Pw : Pow A) (w : list (point A)) (k : nat),
      2 <= length w ->
      length (smooth_path w k) = k * (length w - 1) + 1 /\
      at_ (smooth_path w k) (k * (length w - 1)) = at_ w (length w - 1) /\
      forall s t, s < length w - 1 -> t < k ->
        at_ (smooth_path w k) (s * k + t) =
        catmull_rom (at_ w (s - 1)) (at_ w s) (at_ w (s + 1))
                    (at_ w (Nat.min (s + 2) (length w - 1)))
                    (of_nat t / of_nat k)%num) /\
  (forall (A : Arith) (Pw : Pow A) (a b : point A) (k : nat),
      smooth_path [a; b] k =
      map (fun t => catmull_rom a a b b (of_nat t / of_nat k)%num) (seq 0 k)
      ++ [b]) /\
  (forall (w : list (point real_arith)) (k s : nat),
      2 <= length w -> 1 <= k -> s < length w ->
      at_ (smooth_path w k) (s * k) = at_ w s).
Proof.
  assert (Hgen : forall (A : Arith) (Pw : Pow A) (w : list (point A)) (k : nat),
      2 <= length w ->
      length (smooth_path w k) = k * (length w - 1) + 1 /\
      at_ (smooth_path w k) (k * (length w - 1)) = at_ w (length w - 1) /\
      forall s t, s < length w - 1 -> t < k ->
        at_ (smooth_path w k) (s * k + t) =
        catmull_rom (at_ w (s - 1)) (at_ w s) (at_ w (s + 1))
                    (at_ w (Nat.min (s + 2) (length w - 1)))
                    (of_nat t / of_nat k)%num).
  { intros A Pw w k Hn. rewrite (smooth_path_segments w k Hn).
    assert (Hlen : length (flat_map (segment_samples w k)
                             (seq 0 (length w - 1))) = k * (length w - 1)).
    { rewrite (flat_map_length_const _ _ k (segment_samples_length w k)).
      rewrite length_seq. reflexivity. }
    repeat split.
    - rewrite length_app, Hlen. simpl. lia.
    - unfold at_ at 1. rewrite app_nth2 by lia.
      rewrite Hlen, Nat.sub_diag. reflexivity.
    - intros s t Hs Ht. unfold at_ at 1.
      rewrite app_nth1 by (rewrite Hlen; nia).
      rewrite (nth_flat_map_seq _ 0 _ k s t origin
                 (segment_samples_length w k) Hs Ht).
      unfold segment_samples. cbn [Nat.add].
      rewrite (nth_indep _ _ (catmull_rom (at_ w (s - 1)) (at_ w s)
                 (at_ w (s + 1)) (at_ w (Nat.min (s + 2) (length w - 1)))
                 (of_nat 0 / of_nat k)%num))
        by (rewrite length_map, length_seq; exact Ht).
      rewrite (map_nth (fun t_idx => catmull_rom _ _ _ _ _)).
      rewrite seq_nth by exact Ht. reflexivity. }
  split; [exact Hgen|]. split.
  - intros A Pw a b k. rewrite smooth_path_segments by (simpl; lia).
    cbn [length Nat.sub seq flat_map]. rewrite app_nil_r. reflexivity.
  - intros w k s Hn Hk Hs.
    destruct (Hgen real_arith _ w k Hn) as (_ & Hlast & Hmid).
    destruct (Nat.eq_dec s (length w - 1)) as [->|Hne].
    + rewrite Nat.mul_comm. exact Hlast.
    + specialize (Hmid s 0 ltac:(lia) ltac:(lia)).
      rewrite Nat.add_0_r in Hmid. rewrite Hmid. apply catmull_rom_at_0.
Qed.

(** ** Nearest-neighbour ordering *)

Lemma pop_split (l : list nat) (k : nat) :
  k < length l ->
  l = firstn k l ++ nth k l O :: skipn (S k) l /\ length (firstn k l) = k.
Proof.
  intros Hk. split.
  - rewrite <- (firstn_skipn k l) at 1. f_equal.
    revert k Hk. induction l as [|x l IH]; intros [|k] Hk; simpl in *;
      try lia; [reflexivity|]. apply IH. lia.
  - rewrite length_firstn. lia.
Qed.

Lemma take_idx_range {A : Arith} (pts : list (point A)) :
  take_idx pts (range 0 (length pts)) = pts.
Proof. apply (map_nth_range pts origin). Qed.

Section NearestFacts.

Context {A : Arith} {Pw : Pow A}.

Lemma argmin_scan_range (xs : list num) (i best : nat) (mp : num) :
  let r := argmin_scan xs i best mp in
  r = best \/ i <= r < i + length xs.
Proof.
  revert i best mp. induction xs as [|x xs IH]; intros i best mp; simpl.
  - left. reflexivity.
  - destruct (negb (nleb mp x)).
    + destruct (isnan x); [right; lia|].
      destruct (IH (S i) i x) as [E|E]; right; lia.
    + destruct (IH (S i) best mp) as [E|E]; [left; exact E|right; lia].
Qed.

Lemma argmin_returns (xs : list num) :
  xs <> [] -> exists k, argmin xs = Returns k /\ k < length xs.
Proof.
  destruct xs as [|x xs]; [congruence|]. intros _. simpl.
  eexists. split; [reflexivity|].
  destruct (isnan x); [lia|].
  destruct (argmin_scan_range xs 1 0 x) as [E|E]; lia.
Qed.

Variable points : list (point A).

Lemma nn_loop_permutation (fuel : nat) (remaining ordered : list nat)
    (current : point A) :
  length remaining <= fuel ->
  exists res,
    nn_loop fuel points remaining ordered current = Returns (ordered ++ res) /\
    Permutation remaining res.
Proof.
  revert remaining ordered current.
  induction fuel as [|fuel IH]; intros remaining ordered current Hfuel.
  - destruct remaining; [|simpl in Hfuel; lia].
    exists []. rewrite app_nil_r. split; [reflexivity|constructor].
  - destruct remaining as [|r0 remaining].
    { exists []. rewrite app_nil_r. split; [reflexivity|constructor]. }
    cbn [nn_loop].
    set (rem := r0 :: remaining) in *.
    destruct (argmin_returns
                (map (fun i => norm (psub (at_ points i) current)) rem))
      as (k & -> & Hk).
    { discriminate. }
    rewrite length_map in Hk. cbn [bind]. unfold pop.
    destruct (pop_split rem k Hk) as (Hsplit & Hlen).
    destruct (IH (firstn k rem ++ skipn (S k) rem)
                 (ordered ++ [nth k rem O]) (at_ points (nth k rem O)))
      as (res & Hrun & Hperm).
    { rewrite length_app, length_firstn, length_skipn.
      unfold rem in *. simpl in *. lia. }
    exists (nth k rem O :: res). split.
    + rewrite Hrun, <- app_assoc. reflexivity.
    + rewrite Hsplit at 1. apply Permutation_sym, Permutation_cons_app.
      apply Permutation_sym. exact Hperm.
Qed.

End NearestFacts.

Lemma argmin_scan_real (xs : list R) (i best : nat) (mp : R) :
  let r := argmin_scan (A:=real_arith) xs i best mp in
  (r = best /\ forall x, In x xs -> (mp <= x)%R) \/
  (i <= r /\ r - i < length xs /\ (nth (r - i) xs 0 < mp)%R /\
   (forall j, j < r - i -> (nth (r - i) xs 0 < nth j xs 0)%R) /\
   (forall x, In x xs -> (nth (r - i) xs 0 <= x)%R)).
Proof.
  revert i best mp. induction xs as [|x xs IH]; intros i best mp.
  - left. split; [reflexivity|]. intros x [].
  - cbn [argmin_scan]. unfold isnan. real_ops. rewrite Reqb_refl. cbn [negb].
    destruct (Rleb mp x) eqn:Hcmp; cbn [negb].
    + apply Rleb_true in Hcmp.
      destruct (IH (S i) best mp) as [(E & Hall)|(Hi & Hlen & Hlt & Hfst & Hall)].
      * left. split; [exact E|]. intros y [<-|Hy]; auto.
      * right. set (r := @argmin_scan real_arith xs (S i) best mp) in *.
        replace (r - i) with (S (r - S i)) by lia. cbn [nth length].
        split; [lia|]. split; [lia|]. split; [exact Hlt|]. split.
        -- intros [|j] Hj; cbn [nth]; [lra|apply Hfst; lia].
        -- intros y [<-|Hy]; [lra|auto].
    + apply Rleb_false in Hcmp. right.
      destruct (IH (S i) i x) as [(E & Hall)|(Hi & Hlen & Hlt & Hfst & Hall)].
      * rewrite E, Nat.sub_diag. cbn [nth length].
        split; [lia|]. split; [lia|]. split; [exact Hcmp|]. split.
        -- intros j Hj. lia.
        -- intros y [<-|Hy]; [lra|auto].
      * set (r := @argmin_scan real_arith xs (S i) i x) in *.
        replace (r - i) with (S (r - S i)) by lia. cbn [nth length].
        split; [lia|]. split; [lia|]. split; [lra|]. split.
        -- intros [|j] Hj; cbn [nth]; [lra|apply Hfst; lia].
        -- intros y [<-|Hy]; [lra|auto].
Qed.

Lemma argmin_real (xs : list R) :
  xs <> [] ->
  exists k, argmin (A:=real_arith) xs = Returns k /\ k < length xs /\
    (forall x, In x xs -> (nth k xs 0 <= x)%R) /\
    (forall j, j < k -> (nth k xs 0 < nth j xs 0)%R).
Proof.
  destruct xs as [|x xs]; [congruence|]. intros _.
  cbn [argmin]. unfold isnan. real_ops. rewrite Reqb_refl. cbn [negb].
  eexists. split; [reflexivity|].
  destruct (argmin_scan_real xs 1 0 x)
    as [(E & Hall)|(Hi & Hlen & Hlt & Hfst & Hall)].
  - rewrite E. cbn [nth length]. split; [lia|]. split.
    + intros y [<-|Hy]; [lra|auto].
    + intros j Hj. lia.
  - set (r := @argmin_scan real_arith xs 1 0 x) in *.
    replace r with (S (r - 1)) by lia. cbn [nth length].
    split; [lia|]. split.
    + intros y [<-|Hy]; [lra|auto].
    + intros [|j] Hj; cbn [nth]; [lra|apply Hfst; lia].
Qed.

Lemma nth_map_in {T U : Type} (f : T -> U) (l : list T) (k : nat) (d : T) (e : U) :
  k < length l -> nth k (map f l) e = f (nth k l d).
Proof.
  intros Hk. rewrite (nth_indep _ e (f d)) by (rewrite length_map; exact Hk).
  apply map_nth.
Qed.

Lemma nn_loop_greedy (points : list (point real_arith)) (fuel : nat)
    (remaining ordered : list nat) (current : point real_arith) :
  length remaining <= fuel ->
  exists res,
    nn_loop fuel points remaining ordered current = Returns (ordered ++ res) /\
    nn_tour current (take_idx points remaining) (take_idx points res).
Proof.
  revert remaining ordered current.
  induction fuel as [|fuel IH]; intros remaining ordered current Hfuel.
  - destruct remaining; [|simpl in Hfuel; lia].
    exists []. rewrite app_nil_r. split; [reflexivity|constructor].
  - destruct remaining as [|r0 remaining].
    { exists []. rewrite app_nil_r. split; [reflexivity|constructor]. }
    cbn [nn_loop].
    set (rem := r0 :: remaining) in *.
    set (f := fun i => dist_from current (at_ points i)).
    change (map (fun i => norm (psub (at_ points i) current)) rem)
      with (map f rem).
    destruct (argmin_real (map f rem)) as (k & -> & Hk & Hmin & Hfirst).
    { discriminate. }
    rewrite length_map in Hk. cbn [bind]. unfold pop.
    destruct (pop_split rem k Hk) as (Hsplit & Hlen).
    set (c := nth k rem O) in *.
    rewrite (nth_map_in f rem k O 0%R Hk) in Hmin, Hfirst. fold c in Hmin, Hfirst.
    destruct (IH (firstn k rem ++ skipn (S k) rem)
                 (ordered ++ [c]) (at_ points c))
      as (res & Hrun & Htour).
    { rewrite length_app, length_firstn, length_skipn.
      unfold rem in *. simpl in *. lia. }
    exists (c :: res). split.
    + rewrite Hrun, <- app_assoc. reflexivity.
    + assert (Hrem : map (at_ points) rem =
                     map (at_ points) (firstn k rem)
                     ++ at_ points c :: map (at_ points) (skipn (S k) rem)).
      { rewrite Hsplit at 1. rewrite map_app. reflexivity. }
      unfold take_idx in *. rewrite Hrem. rewrite map_app in Htour.
      cbn [map]. constructor.
      * intros q Hq. rewrite <- Hrem in Hq.
        apply in_map_iff in Hq. destruct Hq as (i & <- & Hi).
        apply (Hmin (f i)). apply in_map. exact Hi.
      * intros q Hq. apply in_map_iff in Hq. destruct Hq as (i & <- & Hi).
        destruct (In_nth _ _ O Hi) as (j & Hj & Hnth).
        rewrite Hlen in Hj.
        specialize (Hfirst j Hj).
        rewrite (nth_map_in f rem j O 0%R) in Hfirst by lia.
        rewrite Hsplit in Hfirst at 1.
        rewrite app_nth1 in Hfirst by lia. rewrite Hnth in Hfirst.
        exact Hfirst.
      * exact Htour.
Qed.

Lemma nearest_neighbor_order_permutation {A : Arith} (points : list (point A))
    (start : point A) :
  exists out,
    nearest_neighbor_order points start = Returns out /\
    length out = length points /\
    Permutation points out.
Proof.
  unfold nearest_neighbor_order.
  destruct (length points =? 0)%nat eqn:Hz.
  - apply Nat.eqb_eq in Hz. destruct points; [|discriminate].
    exists []. repeat split; constructor.
  - destruct (nn_loop_permutation points (length points)
                (range 0 (length points)) [] start) as (res & -> & Hperm).
    { unfold range. rewrite length_seq. lia. }
    cbn [bind app]. exists (take_idx points res).
    assert (Hp : Permutation points (take_idx points res)).
    { rewrite <- (map_nth_range points origin) at 1.
      apply (Permutation_map (at_ points)). exact Hperm. }
    repeat split; [|exact Hp].
    symmetry. apply Permutation_length. exact Hp.
Qed.

(** C9: [nearest_neighbor_order] returns as many points as it was given,
    a permutation of them (in every arithmetic); in exact arithmetic the
    order is the greedy one: each point is, among those not yet visited, the
    first one at the least distance from the position reached, which is
    [start] at the beginning and the point just visited afterwards. *)
Theorem nearest_neighbor_order_greedy :
  (forall (A : Arith) (points : list (point A)) (start : point A),
      exists out,
        nearest_neighbor_order points start = Returns out /\
        length out = length points /\
        Permutation points out) /\
  (forall (points : list (point real_arith)) (start : point real_arith),
      exists out,
        nearest_neighbor_order points start = Returns out /\
        nn_tour start points out).
Proof.
  split.
  - intros A points start. apply nearest_neighbor_order_permutation.
  - intros points start.
    unfold nearest_neighbor_order.
    destruct (length points =? 0)%nat eqn:Hz.
    + apply Nat.eqb_eq in Hz. destruct points; [|discriminate].
      exists []. split; [reflexivity|constructor].
    + destruct (nn_loop_greedy points (length points)
                  (range 0 (length points)) [] start) as (res & -> & Htour).
      { unfold range. rewrite length_seq. lia. }
      cbn [bind app]. exists (take_idx points res). split; [reflexivity|].
      rewrite take_idx_range in Htour. exact Htour.
Qed.

(** ** 2-opt refinement *)

Lemma firstn_exact {T : Type} (p r : list T) (n : nat) :
  length p = n -> firstn n (p ++ r) = p.
Proof.
  intros <-. rewrite firstn_app, Nat.sub_diag, firstn_all. simpl.
  apply app_nil_r.
Qed.

Lemma skipn_exact {T : Type} (p r : list T) (n : nat) :
  length p = n -> skipn n (p ++ r) = r.
Proof.
  intros <-. rewrite skipn_app, Nat.sub_diag, skipn_all. reflexivity.
Qed.

Lemma nth_exact {T : Type} (p r : list T) (x d : T) (n : nat) :
  length p = n -> nth n (p ++ x :: r) d = x.
Proof. intros <-. apply nth_middle. Qed.

(** A list cut at positions [i], [i + 1] and [j]. *)
Lemma cut_at {T : Type} (l : list T) (i j : nat) :
  i + 2 <= j -> j < length l ->
  exists P a b M c Q,
    l = P ++ a :: b :: M ++ c :: Q /\
    length P = i /\ length M = j - i - 2.
Proof.
  intros Hij Hj.
  rewrite <- (firstn_skipn i l).
  assert (HP : length (firstn i l) = i) by (rewrite length_firstn; lia).
  assert (Hs : length (skipn i l) = length l - i) by apply length_skipn.
  destruct (skipn i l) as [|a [|b rest]]; simpl in Hs; try lia.
  assert (Hrest : j - i - 2 < length rest) by lia.
  rewrite <- (firstn_skipn (j - i - 2) rest).
  assert (HM : length (firstn (j - i - 2) rest) = j - i - 2)
    by (rewrite length_firstn; lia).
  assert (Hq : length (skipn (j - i - 2) rest) = length rest - (j - i - 2))
    by apply length_skipn.
  destruct (skipn (j - i - 2) rest) as [|c Q]; simpl in Hq; try lia.
  exists (firstn i l), a, b, (firstn (j - i - 2) rest), c, Q. auto.
Qed.

Section TwoOptFacts.

Context {A : Arith} {Pw : Pow A}.

Lemma reverse_slice_cut (P M Q : list (point A)) (a b c : point A) (i j : nat) :
  length P = i -> length M = j - i - 2 -> i + 2 <= j ->
  reverse_slice (P ++ a :: b :: M ++ c :: Q) (i + 1) (j + 1)
  = P ++ a :: c :: rev M ++ b :: Q.
Proof.
  intros HP HM Hij. unfold reverse_slice.
  replace (P ++ a :: b :: M ++ c :: Q)
    with ((P ++ [a]) ++ (b :: M ++ [c]) ++ Q)
    by (rewrite <- !app_assoc; simpl; rewrite <- app_assoc; reflexivity).
  assert (H1 : length (P ++ [a]) = i + 1) by (rewrite length_app; simpl; lia).
  assert (H2 : length (b :: M ++ [c]) = j + 1 - (i + 1))
    by (simpl; rewrite length_app; simpl; lia).
  rewrite (firstn_exact _ _ _ H1), (skipn_exact _ _ _ H1),
    (firstn_exact _ _ _ H2).
  replace ((P ++ [a]) ++ (b :: M ++ [c]) ++ Q)
    with (((P ++ [a]) ++ (b :: M ++ [c])) ++ Q)
    by (rewrite <- !app_assoc; reflexivity).
  rewrite skipn_exact by (rewrite length_app, H1, H2; lia).
  simpl. rewrite rev_app_distr. simpl.
  rewrite <- !app_assoc. reflexivity.
Qed.

Lemma at_cut (P M Q : list (point A)) (a b c : point A) (i j : nat) :
  length P = i -> length M = j - i - 2 -> i + 2 <= j ->
  let l := P ++ a :: b :: M ++ c :: Q in
  at_ l i = a /\ at_ l (i + 1) = b /\ at_ l j = c /\
  at_ l (j + 1) = hd origin Q /\ length l = j + 1 + length Q.
Proof.
  intros HP HM Hij l. unfold at_, l. repeat split.
  - apply nth_exact. exact HP.
  - replace (P ++ a :: b :: M ++ c :: Q) with ((P ++ [a]) ++ b :: M ++ c :: Q)
      by (rewrite <- app_assoc; reflexivity).
    apply nth_exact. rewrite length_app. simpl. lia.
  - replace (P ++ a :: b :: M ++ c :: Q) with ((P ++ a :: b :: M) ++ c :: Q)
      by (rewrite <- app_assoc; reflexivity).
    apply nth_exact. rewrite length_app. simpl. lia.
  - replace (P ++ a :: b :: M ++ c :: Q) with ((P ++ a :: b :: M ++ [c]) ++ Q)
      by (rewrite <- !app_assoc; simpl; rewrite <- app_assoc; reflexivity).
    rewrite app_nth2 by (rewrite length_app; simpl; rewrite length_app; simpl; lia).
    replace (j + 1 - length (P ++ a :: b :: M ++ [c])) with 0
      by (rewrite length_app; simpl; rewrite length_app; simpl; lia).
    destruct Q; reflexivity.
  - rewrite length_app. simpl. rewrite length_app. simpl. lia.
Qed.

Lemma two_opt_step_improves (n i j : nat) (tour : list (point A)) (imp : bool) :
  two_opt_step n i (tour, imp) j =
  if improves n tour i j then (reverse_slice tour (i + 1) (j + 1), true)
  else (tour, imp).
Proof.
  unfold two_opt_step, improves. destruct (j + 1 <? n)%nat; reflexivity.
Qed.

Lemma reverse_slice_permutation (tour : list (point A)) (i j : nat) :
  i + 2 <= j -> j < length tour ->
  Permutation tour (reverse_slice tour (i + 1) (j + 1)) /\
  hd_error (reverse_slice tour (i + 1) (j + 1)) = hd_error tour.
Proof.
  intros Hij Hj.
  destruct (cut_at tour i j Hij Hj) as (P & a & b & M & c & Q & -> & HP & HM).
  rewrite (reverse_slice_cut P M Q a b c i j HP HM Hij). split.
  - apply Permutation_app_head. constructor.
    transitivity (c :: b :: M ++ Q).
    + apply Permutation_sym.
      apply (Permutation_cons_app (b :: M) Q c). reflexivity.
    + constructor. apply (Permutation_cons_app (rev M) Q b).
      apply Permutation_app_tail, Permutation_rev.
  - destruct P; reflexivity.
Qed.


Lemma in_sweep_pairs (n i j : nat) :
  In (i, j) (sweep_pairs n) <-> i + 2 <= j /\ j < n.
Proof.
  unfold sweep_pairs. rewrite in_flat_map. split.
  - intros (i' & Hi' & Hin). apply in_map_iff in Hin.
    destruct Hin as (j' & E & Hj'). injection E as -> ->.
    apply in_range in Hj'. lia.
  - intros (Hij & Hj). exists i. split.
    + apply in_range. lia.
    + apply in_map. apply in_range. lia.
Qed.

Lemma two_opt_sweep_pairs (n : nat) (tour : list (point A)) :
  two_opt_sweep n tour =
  fold_left (fun st ij => two_opt_step n (fst ij) st (snd ij))
            (sweep_pairs n) (tour, false).
Proof.
  unfold two_opt_sweep, sweep_pairs.
  generalize (tour, false). generalize (range 0 (n - 1)).
  induction l as [|i l IH]; intros st; [reflexivity|].
  cbn [fold_left flat_map]. rewrite fold_left_app, <- IH. f_equal.
  generalize (range (i + 2) n). clear. intros js. revert st.
  induction js as [|j js IH]; intros st; [reflexivity|].
  cbn [fold_left map fst snd]. apply IH.
Qed.

End TwoOptFacts.

Lemma fold_left_invariant {S X : Type} (f : S -> X -> S)
    (P : list X -> S -> Prop) (xs : list X) (s0 : S) :
  P [] s0 ->
  (forall done x s, In x xs -> P done s -> P (done ++ [x]) (f s x)) ->
  P xs (fold_left f xs s0).
Proof.
  intros H0 Hstep.
  enough (H : forall rest done s,
             (forall x, In x rest -> In x xs) -> P done s ->
             P (done ++ rest) (fold_left f rest s)).
  { apply (H xs [] s0); auto. }
  induction rest as [|x rest IH]; intros done s Hin HP.
  - rewrite app_nil_r. exact HP.
  - cbn [fold_left].
    replace (done ++ x :: rest) with ((done ++ [x]) ++ rest)
      by (rewrite <- app_assoc; reflexivity).
    apply IH.
    + intros y Hy. apply Hin. right. exact Hy.
    + apply Hstep; [apply Hin; left; reflexivity|exact HP].
Qed.

Section TwoOptSweep.

Context {A : Arith} {Pw : Pow A}.
Variable t0 : list (point A).

Lemma two_opt_sweep_inv :
  sweep_inv t0 (sweep_pairs (length t0)) (two_opt_sweep (length t0) t0).
Proof.
  rewrite two_opt_sweep_pairs.
  apply (fold_left_invariant _ (sweep_inv t0)).
  - repeat split; auto; try discriminate. intros ij [].
  - intros done [i j] [t imp] Hin (Hperm & Hhd & Hfalse & Htrue).
    apply in_sweep_pairs in Hin. destruct Hin as (Hij & Hj).
    cbn [fst snd] in *. rewrite two_opt_step_improves. unfold sweep_inv.
    assert (Hlen : length t = length t0)
      by (symmetry; apply Permutation_length; exact Hperm).
    destruct (improves (length t0) t i j) eqn:Himp; cbn [fst snd].
    + destruct (reverse_slice_permutation t i j Hij ltac:(lia)) as (Hp & Hh).
      repeat split; try discriminate.
      * eapply Permutation_trans; eassumption.
      * congruence.
      * intros _. destruct imp.
        -- destruct (Htrue eq_refl) as (ij & Hd & Hi).
           exists ij. split; [apply in_or_app; left; exact Hd|exact Hi].
        -- destruct (Hfalse eq_refl) as (-> & _).
           exists (i, j). split; [apply in_or_app; right; left; reflexivity|].
           exact Himp.
    + repeat split; auto.
      * apply Hfalse. assumption.
      * destruct (Hfalse H) as (-> & Hall).
        intros ij Hd. apply in_app_or in Hd.
        destruct Hd as [Hd|[<-|[]]]; [apply Hall; exact Hd|exact Himp].
      * intros H. destruct (Htrue H) as (ij & Hd & Hi).
        exists ij. split; [apply in_or_app; left; exact Hd|exact Hi].
Qed.

End TwoOptSweep.

Section TwoOptLoop.

Context {A : Arith} {Pw : Pow A}.

Lemma two_opt_sweep_permutation (t : list (point A)) :
  Permutation t (fst (two_opt_sweep (length t) t)) /\
  hd_error (fst (two_opt_sweep (length t) t)) = hd_error t.
Proof. destruct (two_opt_sweep_inv t) as (H1 & H2 & _). auto. Qed.

(** A sweep changes nothing exactly when no pair passes the test. *)
Lemma two_opt_sweep_fixed (t : list (point A)) :
  snd (two_opt_sweep (length t) t) = false <-> ~ has_improving_swap t.
Proof.
  destruct (two_opt_sweep_inv t) as (_ & _ & Hfalse & Htrue). split.
  - intros Hs (i & j & Hij & Hj & Himp).
    destruct (Hfalse Hs) as (_ & Hall).
    specialize (Hall (i, j)). cbn [fst snd] in Hall.
    rewrite Hall in Himp; [discriminate|].
    apply in_sweep_pairs. lia.
  - intros Hno. destruct (snd (two_opt_sweep (length t) t)); [|reflexivity].
    destruct (Htrue eq_refl) as ([i j] & Hin & Himp).
    apply in_sweep_pairs in Hin. exfalso. apply Hno.
    exists i, j. cbn [fst snd] in Himp. repeat split; [lia|lia|exact Himp].
Qed.

Lemma two_opt_sweep_unchanged (t : list (point A)) :
  snd (two_opt_sweep (length t) t) = false ->
  fst (two_opt_sweep (length t) t) = t.
Proof.
  destruct (two_opt_sweep_inv t) as (_ & _ & Hfalse & _).
  intros Hs. apply Hfalse. exact Hs.
Qed.

Lemma two_opt_loop_permutation (fuel : nat) (t out : list (point A)) :
  two_opt_loop fuel (length t) t = Returns out ->
  Permutation t out /\ hd_error out = hd_error t /\
  ~ has_improving_swap out.
Proof.
  revert t. induction fuel as [|fuel IH]; intros t; [discriminate|].
  cbn [two_opt_loop].
  destruct (two_opt_sweep_permutation t) as (Hp & Hh).
  pose proof (two_opt_sweep_fixed t) as Hfix.
  pose proof (two_opt_sweep_unchanged t) as Hun.
  destruct (two_opt_sweep (length t) t) as [t' [|]]; cbn [fst snd] in *.
  - rewrite (Permutation_length Hp). intros Hrun.
    destruct (IH t' Hrun) as (Hp' & Hh' & Hno).
    repeat split; [eapply Permutation_trans; eassumption|congruence|exact Hno].
  - intros E. injection E as <-. rewrite (Hun eq_refl) in *.
    repeat split; auto. apply Hfix. reflexivity.
Qed.

Lemma two_opt_loop_more_fuel (fuel fuel' n : nat) (t out : list (point A)) :
  two_opt_loop fuel n t = Returns out -> fuel <= fuel' ->
  two_opt_loop fuel' n t = Returns out.
Proof.
  revert fuel' t. induction fuel as [|fuel IH]; intros fuel' t; [discriminate|].
  intros Hrun Hle. destruct fuel' as [|fuel']; [lia|].
  cbn [two_opt_loop] in *.
  destruct (two_opt_sweep n t) as [t' [|]]; [|exact Hrun].
  apply IH; [exact Hrun|lia].
Qed.

End TwoOptLoop.

(** ** 2-opt in exact arithmetic *)

Lemma in_tuples {T : Type} (xs u : list T) :
  Forall (fun x => In x xs) u -> In u (tuples xs (length u)).
Proof.
  induction 1 as [|x u Hx _ IH]; [left; reflexivity|].
  cbn [length tuples]. apply in_flat_map. exists x. split; [exact Hx|].
  apply in_map. exact IH.
Qed.

Lemma filter_length_lt {T : Type} (f g : T -> bool) (l : list T) (y : T) :
  (forall x, f x = true -> g x = true) ->
  In y l -> f y = false -> g y = true ->
  length (filter f l) < length (filter g l).
Proof.
  intros Hfg Hin Hfy Hgy.
  assert (Hle : forall l', length (filter f l') <= length (filter g l')).
  { induction l' as [|x l' IH]; simpl; [lia|].
    destruct (f x) eqn:Hf.
    - rewrite (Hfg x Hf). simpl. lia.
    - destruct (g x); simpl; lia. }
  induction l as [|x l IH]; [contradiction|].
  destruct Hin as [->|Hin]; simpl.
  - rewrite Hfy, Hgy. simpl. specialize (Hle l). lia.
  - specialize (IH Hin). destruct (f x) eqn:Hf.
    + rewrite (Hfg x Hf). simpl. lia.
    + destruct (g x); simpl; lia.
Qed.

Lemma dist_from_sym (p q : point real_arith) : dist_from p q = dist_from q p.
Proof.
  unfold dist_from, norm, psub. cbn [px py]. real_ops. f_equal. ring.
Qed.

Lemma npsum_diffs_plen (tl : list (point real_arith)) (p : point real_arith)
    (a : R) :
  fold_left Rplus (map (@norm real_arith) (diffs (p :: tl))) a
  = (a + plen (p :: tl))%R.
Proof.
  revert p a. induction tl as [|q tl IH]; intros p a.
  - simpl. lra.
  - change (diffs (p :: q :: tl)) with (psub q p :: diffs (q :: tl)).
    change (plen (p :: q :: tl)) with (dist_from p q + plen (q :: tl))%R.
    cbn [map fold_left]. rewrite IH. unfold dist_from. lra.
Qed.

Lemma path_distance_plen (l : list (point real_arith)) :
  path_distance l = plen l.
Proof.
  unfold path_distance.
  destruct l as [|p [|q tl]]; try reflexivity.
  replace (length (p :: q :: tl) <? 2)%nat with false by reflexivity.
  change (fold_left Rplus (map (@norm real_arith) (diffs (p :: q :: tl))) 0%R
          = plen (p :: q :: tl)).
  rewrite (npsum_diffs_plen (q :: tl) p 0%R). lra.
Qed.

Lemma plen_shared (l1 l2 : list (point real_arith)) (x : point real_arith) :
  plen (l1 ++ x :: l2) = (plen (l1 ++ [x]) + plen (x :: l2))%R.
Proof.
  induction l1 as [|p l1 IH].
  - simpl. lra.
  - destruct l1 as [|q l1].
    + simpl. destruct l2; lra.
    + change (plen ((p :: q :: l1) ++ x :: l2))
        with (dist_from p q + plen ((q :: l1) ++ x :: l2))%R.
      change (plen ((p :: q :: l1) ++ [x]))
        with (dist_from p q + plen ((q :: l1) ++ [x]))%R.
      rewrite IH. lra.
Qed.

Lemma plen_rev (l : list (point real_arith)) : plen (rev l) = plen l.
Proof.
  induction l as [|p l IH]; [reflexivity|].
  destruct l as [|q tl]; [reflexivity|].
  change (rev (p :: q :: tl)) with (rev (q :: tl) ++ [p]).
  change (rev (q :: tl)) with (rev tl ++ [q]) in *.
  rewrite <- app_assoc. cbn [app].
  rewrite plen_shared, IH. cbn [plen].
  rewrite (dist_from_sym q p). lra.
Qed.

Lemma eps_swap_pos : (0 < @eps_swap real_arith)%R.
Proof. unfold eps_swap. real_ops. lra. Qed.

(** A reversal the test accepts shortens the path. *)
Lemma improving_step_shortens (t : list (point real_arith)) (i j : nat) :
  i + 2 <= j -> j < length t ->
  improves (length t) t i j = true ->
  (plen (reverse_slice t (i + 1) (j + 1)) < plen t)%R.
Proof.
  intros Hij Hj.
  destruct (cut_at t i j Hij Hj) as (P & a & b & M & c & Q & -> & HP & HM).
  rewrite (reverse_slice_cut P M Q a b c i j HP HM Hij).
  destruct (at_cut P M Q a b c i j HP HM Hij) as (Ha & Hb & Hc & Hq & Hlen).
  unfold improves. rewrite Ha, Hb, Hc, Hq, Hlen.
  pose proof eps_swap_pos as Heps.
  assert (Hold : plen (P ++ a :: b :: M ++ c :: Q) =
                 (plen (P ++ [a]) + dist_from a b + plen (b :: M ++ [c])
                  + plen (c :: Q))%R).
  { rewrite (plen_shared P (b :: M ++ c :: Q) a).
    change (plen (a :: b :: M ++ c :: Q))
      with (dist_from a b + plen ((b :: M) ++ c :: Q))%R.
    rewrite (plen_shared (b :: M) Q c). cbn [app]. lra. }
  assert (Hnew : plen (P ++ a :: c :: rev M ++ b :: Q) =
                 (plen (P ++ [a]) + dist_from a c + plen (b :: M ++ [c])
                  + plen (b :: Q))%R).
  { rewrite (plen_shared P (c :: rev M ++ b :: Q) a).
    change (plen (a :: c :: rev M ++ b :: Q))
      with (dist_from a c + plen ((c :: rev M) ++ b :: Q))%R.
    rewrite (plen_shared (c :: rev M) Q b).
    replace ((c :: rev M) ++ [b]) with (rev (b :: M ++ [c]))
      by (simpl; rewrite rev_app_distr; reflexivity).
    rewrite plen_rev. lra. }
  rewrite Hold, Hnew.
  change (norm (psub a b)) with (dist_from b a).
  change (norm (psub a c)) with (dist_from c a).
  rewrite (dist_from_sym b a), (dist_from_sym c a).
  destruct Q as [|q Q].
  - replace (j + 1 <? j + 1 + length (@nil (point real_arith)))%nat with false
      by (symmetry; apply Nat.ltb_ge; simpl; lia).
    real_ops. intros Htest. apply Rltb_true in Htest. simpl. lra.
  - replace (j + 1 <? j + 1 + length (q :: Q))%nat with true
      by (symmetry; apply Nat.ltb_lt; simpl; lia).
    cbn [hd].
    change (norm (psub c q)) with (dist_from q c).
    change (norm (psub b q)) with (dist_from q b).
    rewrite (dist_from_sym q c), (dist_from_sym q b).
    real_ops. intros Htest. apply Rltb_true in Htest.
    change (plen (c :: q :: Q)) with (dist_from c q + plen (q :: Q))%R.
    change (plen (b :: q :: Q)) with (dist_from b q + plen (q :: Q))%R.
    lra.
Qed.

(** A sweep never lengthens the path, and shortens it when it swaps. *)
Lemma two_opt_sweep_shortens (t : list (point real_arith)) :
  (plen (fst (two_opt_sweep (length t) t)) <= plen t)%R /\
  (snd (two_opt_sweep (length t) t) = true ->
   (plen (fst (two_opt_sweep (length t) t)) < plen t)%R).
Proof.
  rewrite two_opt_sweep_pairs.
  pose (P := fun (_ : list (nat * nat)) (st : list (point real_arith) * bool) =>
               Permutation t (fst st) /\
               (plen (fst st) <= plen t)%R /\
               (snd st = true -> (plen (fst st) < plen t)%R)).
  enough (H : P (sweep_pairs (length t))
                (fold_left (fun st ij => two_opt_step (length t) (fst ij) st (snd ij))
                           (sweep_pairs (length t)) (t, false))).
  { destruct H as (_ & H1 & H2). split; assumption. }
  apply (fold_left_invariant _ P); unfold P.
  - cbn [fst snd]. repeat split; [reflexivity|lra|discriminate].
  - intros done [i j] [t' imp] Hin (Hperm & Hle & Hlt).
    apply in_sweep_pairs in Hin. destruct Hin as (Hij & Hj).
    cbn [fst snd] in *. rewrite two_opt_step_improves.
    assert (Hlen : length t' = length t)
      by (symmetry; apply Permutation_length; exact Hperm).
    destruct (improves (length t) t' i j) eqn:Himp; cbn [fst snd].
    + rewrite <- Hlen in Himp.
      pose proof (improving_step_shortens t' i j Hij ltac:(lia) Himp) as Hs.
      destruct (reverse_slice_permutation t' i j Hij ltac:(lia)) as (Hp & _).
      repeat split; [eapply Permutation_trans; eassumption|lra|intros _; lra].
    + repeat split; assumption.
Qed.

Lemma permutation_in_tuples (t0 t : list (point real_arith)) :
  Permutation t0 t -> In t (tuples t0 (length t0)).
Proof.
  intros Hp. rewrite (Permutation_length Hp). apply in_tuples.
  apply Forall_forall. intros x Hx.
  apply (Permutation_in x (Permutation_sym Hp) Hx).
Qed.

Lemma shorter_count_decreases (t0 t t' : list (point real_arith)) :
  Permutation t0 t' -> (plen t' < plen t)%R ->
  shorter_count t0 t' < shorter_count t0 t.
Proof.
  intros Hp Hlt. unfold shorter_count.
  apply (filter_length_lt _ _ _ t').
  - intros u Hu. apply Rltb_true in Hu. apply Rltb_true. lra.
  - apply permutation_in_tuples. exact Hp.
  - apply Rltb_false. lra.
  - apply Rltb_true. exact Hlt.
Qed.

(** The [while] loop ends: each sweep that swaps moves to a strictly
    shorter arrangement of the same points, and there are finitely many. *)
Lemma two_opt_loop_terminates (t0 : list (point real_arith)) (fuel : nat)
    (t : list (point real_arith)) :
  Permutation t0 t -> shorter_count t0 t < fuel ->
  exists out,
    two_opt_loop fuel (length t) t = Returns out /\
    (plen out <= plen t)%R /\
    (has_improving_swap t -> (plen out < plen t)%R) /\
    (~ has_improving_swap t -> out = t).
Proof.
  revert t. induction fuel as [|fuel IH]; intros t Hperm Hfuel; [lia|].
  cbn [two_opt_loop].
  destruct (two_opt_sweep_shortens t) as (Hle & Hlt).
  destruct (two_opt_sweep_permutation t) as (Hp & _).
  pose proof (two_opt_sweep_fixed t) as Hfix.
  pose proof (two_opt_sweep_unchanged t) as Hun.
  destruct (two_opt_sweep (length t) t) as [t' [|]]; cbn [fst snd] in *.
  - specialize (Hlt eq_refl).
    assert (Hp0 : Permutation t0 t') by (eapply Permutation_trans; eassumption).
    pose proof (shorter_count_decreases t0 t t' Hp0 Hlt) as Hdec.
    rewrite (Permutation_length Hp).
    destruct (IH t' Hp0 ltac:(lia)) as (out & Hrun & Hout & _).
    exists out. repeat split; [exact Hrun|lra|intros _; lra|].
    intros Hno. apply Hfix in Hno. discriminate.
  - rewrite (Hun eq_refl) in *. exists t.
    split; [reflexivity|]. split; [lra|]. split; [|reflexivity].
    intros Hyes. exfalso. apply (proj1 Hfix eq_refl). exact Hyes.
Qed.

(** C2, as stated, fails for tours of three points: [two_opt_improve]
    returns them unchanged although the reversal at [(i, j) = (0, 2)] passes
    the test [d_new < d_old - 1e-10] (here 1 < 2 - 1e-10) and would shorten
    the path from 3 to 2.  So the lengths are equal and yet an improving
    swap exists, in binary64 and in exact arithmetic alike. *)
Lemma two_opt_three_points_not_improved :
  (let t : list (point float_arith) :=
     [mkpt 0%float 0%float; mkpt 2%float 0%float; mkpt 1%float 0%float] in
   two_opt_improve 1 t = Returns t /\
   path_distance t = 3%float /\
   path_distance (reverse_slice t 1 3) = 2%float /\
   ~ (path_distance t = path_distance t <-> ~ has_improving_swap t)) /\
  (let t : list (point real_arith) :=
     [@mkpt real_arith 0%R 0%R; @mkpt real_arith 2%R 0%R;
      @mkpt real_arith 1%R 0%R] in
   two_opt_improve 1 t = Returns t /\
   ~ (path_distance t = path_distance t <-> ~ has_improving_swap t)).
Proof.
  cbv zeta. split.
  - split; [reflexivity|]. split; [vm_compute; reflexivity|].
    split; [vm_compute; reflexivity|].
    intros [Hno _]. apply (Hno eq_refl).
    exists 0, 2. split; [lia|]. split; [simpl; lia|].
    vm_compute. reflexivity.
  - split; [reflexivity|].
    intros [Hno _]. apply (Hno eq_refl).
    exists 0, 2. split; [lia|]. split; [simpl; lia|].
    unfold improves, at_, norm, psub, eps_swap.
    cbn [length Nat.add Nat.ltb Nat.leb nth px py]. real_ops.
    apply Rltb_true.
    replace ((0 - 2) * (0 - 2) + (0 - 0) * (0 - 0))%R with (2 * 2)%R by ring.
    replace ((0 - 1) * (0 - 1) + (0 - 0) * (0 - 0))%R with (1 * 1)%R by ring.
    rewrite !sqrt_square by lra. lra.
Qed.

Lemma two_opt_improve_returns (tour : list (point real_arith)) :
  exists sweeps out,
    forall fuel, sweeps <= fuel -> two_opt_improve fuel tour = Returns out.
Proof.
  unfold two_opt_improve.
  destruct (length tour <? 4)%nat; [exists 0, tour; reflexivity|].
  destruct (two_opt_loop_terminates tour (S (shorter_count tour tour)) tour)
    as (out & Hrun & _); [reflexivity|lia|].
  exists (S (shorter_count tour tour)), out.
  intros fuel Hfuel. eapply two_opt_loop_more_fuel; eassumption.
Qed.

(** C2, amended: in exact arithmetic [two_opt_improve] returns (with
    enough sweeps allowed, and the same tour whatever the allowance beyond
    that), the returned tour is never longer than the input, a tour of
    fewer than four points is returned as it is, and the lengths are equal
    exactly when the tour has fewer than four points or no pair of its edges
    passes the test [d_new < d_old - 1e-10]. *)
Theorem two_opt_never_worsens (tour : list (point real_arith)) :
  exists sweeps out,
    (forall fuel, sweeps <= fuel -> two_opt_improve fuel tour = Returns out) /\
    (path_distance out <= path_distance tour)%R /\
    (length tour < 4 -> out = tour) /\
    (path_distance out = path_distance tour <->
     length tour < 4 \/ ~ has_improving_swap tour).
Proof.
  unfold two_opt_improve.
  destruct (Nat.ltb_spec (length tour) 4) as [Hlt|Hge].
  - exists 0, tour. repeat split; auto. lra.
  - destruct (two_opt_loop_terminates tour (S (shorter_count tour tour)) tour)
      as (out & Hrun & Hle & Himp & Hno); [reflexivity|lia|].
    exists (S (shorter_count tour tour)), out.
    rewrite !path_distance_plen. repeat split.
    + intros fuel Hfuel. eapply two_opt_loop_more_fuel; eassumption.
    + exact Hle.
    + lia.
    + intros Heq. right. intros Hyes. specialize (Himp Hyes). lra.
    + intros [Hlt|Hnone]; [lia|]. rewrite (Hno Hnone). reflexivity.
Qed.


(** C7: whenever [two_opt_improve] returns, in any arithmetic and after any
    number of sweeps, the returned tour is a permutation of the input and
    begins with the input's first point; and in exact arithmetic it does
    return. *)
Theorem two_opt_permutes :
  (forall (A : Arith) (fuel : nat) (tour out : list (point A)),
      two_opt_improve fuel tour = Returns out ->
      Permutation tour out /\ length out = length tour /\
      hd_error out = hd_error tour) /\
  (forall tour : list (point real_arith),
      exists sweeps out,
        forall fuel, sweeps <= fuel -> two_opt_improve fuel tour = Returns out).
Proof.
  split.
  - intros A fuel tour out. unfold two_opt_improve.
    destruct (length tour <? 4)%nat.
    + intros E. injection E as <-. repeat split; reflexivity.
    + intros Hrun. apply two_opt_loop_permutation in Hrun.
      destruct Hrun as (Hp & Hh & _). repeat split; auto.
      symmetry. apply Permutation_length. exact Hp.
  - intros tour. apply two_opt_improve_returns.
Qed.

(** ** Clustering *)

Lemma in_mask_indices_from (mask : list bool) (k i : nat) :
  In i (mask_indices_from k mask) <->
  k <= i /\ i - k < length mask /\ nth (i - k) mask false = true.
Proof.
  revert k. induction mask as [|b mask IH]; intros k.
  - simpl. split; [contradiction|]. lia.
  - assert (Hstep : In i (mask_indices_from (S k) mask) <->
                    k < i /\ i - k < length (b :: mask)
                    /\ nth (i - k) (b :: mask) false = true).
    { rewrite IH. split.
      - intros (H1 & H2 & H3). replace (i - k) with (S (i - S k)) by lia.
        simpl. repeat split; try lia. exact H3.
      - intros (H1 & H2 & H3). replace (i - k) with (S (i - S k)) in H2, H3 by lia.
        simpl in H2, H3. repeat split; try lia. exact H3. }
    cbn [mask_indices_from]. destruct b.
    + cbn [In]. rewrite Hstep. split.
      * intros [<-|(H1 & H2 & H3)].
        -- rewrite Nat.sub_diag. simpl. repeat split; lia.
        -- repeat split; try lia. exact H3.
      * intros (H1 & H2 & H3).
        destruct (Nat.eq_dec k i) as [E|E]; [left; exact E|right].
        repeat split; try lia. exact H3.
    + rewrite Hstep. split.
      * intros (H1 & H2 & H3). repeat split; try lia. exact H3.
      * intros (H1 & H2 & H3).
        destruct (Nat.eq_dec k i) as [E|E].
        -- subst. rewrite Nat.sub_diag in H3. discriminate.
        -- repeat split; try lia. exact H3.
Qed.

Lemma in_mask_indices (mask : list bool) (i : nat) :
  In i (mask_indices mask) <-> nth i mask false = true.
Proof.
  unfold mask_indices. rewrite in_mask_indices_from, Nat.sub_0_r. split.
  - intros (_ & _ & H). exact H.
  - intros H. repeat split; [lia| |exact H].
    destruct (Nat.lt_ge_cases i (length mask)) as [Hlt|Hge]; [exact Hlt|].
    rewrite nth_overflow in H by exact Hge. discriminate.
Qed.

Lemma mask_indices_from_NoDup (mask : list bool) (k : nat) :
  NoDup (mask_indices_from k mask).
Proof.
  revert k. induction mask as [|b mask IH]; intros k; [constructor|].
  cbn [mask_indices_from]. destruct b; [|apply IH].
  constructor; [|apply IH].
  rewrite in_mask_indices_from. lia.
Qed.

Lemma take_mask_indices_from {A : Arith} (pts : list (point A))
    (mask : list bool) (k : nat) :
  length mask <= length pts ->
  take_mask pts mask =
  map (fun i => nth (i - k) pts origin) (mask_indices_from k mask).
Proof.
  revert mask k. induction pts as [|p pts IH]; intros [|b mask] k Hlen;
    try reflexivity; [simpl in Hlen; lia|].
  simpl in Hlen.
  assert (Htl : take_mask pts mask =
                map (fun i => nth (i - k) (p :: pts) origin)
                    (mask_indices_from (S k) mask)).
  { rewrite (IH mask (S k)) by lia. apply map_ext_in.
    intros i Hi. apply in_mask_indices_from in Hi.
    replace (i - k) with (S (i - S k)) by lia. reflexivity. }
  cbn [take_mask mask_indices_from]. destruct b; [|exact Htl].
  cbn [map]. rewrite Nat.sub_diag, Htl. reflexivity.
Qed.

Lemma take_mask_indices {A : Arith} (pts : list (point A)) (mask : list bool) :
  length mask <= length pts ->
  take_mask pts mask = take_idx pts (mask_indices mask).
Proof.
  intros Hlen. rewrite (take_mask_indices_from pts mask 0 Hlen).
  unfold take_idx, mask_indices, at_. apply map_ext. intros i.
  rewrite Nat.sub_0_r. reflexivity.
Qed.

Lemma nth_repeat_false (n i : nat) : nth i (repeat false n) false = false.
Proof.
  revert i. induction n as [|n IH]; intros [|i]; simpl; auto.
Qed.

Lemma unset_count_set_at (mask : list bool) (i : nat) :
  i < length mask -> nth i mask false = false ->
  S (unset_count (set_at mask i true)) = unset_count mask.
Proof.
  unfold unset_count. revert i.
  induction mask as [|b mask IH]; intros [|i] Hi Hn; simpl in *; try lia.
  - subst b. reflexivity.
  - destruct b; simpl; rewrite <- (IH i) by (lia || assumption); reflexivity.
Qed.

Lemma unset_count_le (mask : list bool) : unset_count mask <= length mask.
Proof. unfold unset_count. apply filter_length_le. Qed.

Lemma isset_set_at (mask : list bool) (x i : nat) :
  x < length mask ->
  (isset (set_at mask x true) i <-> i = x \/ isset mask i).
Proof.
  intros Hx. unfold isset. rewrite nth_set_at.
  destruct (Nat.eqb_spec i x) as [->|Hne].
  - replace (x <? length mask)%nat with true
      by (symmetry; apply Nat.ltb_lt; exact Hx).
    simpl. intuition.
  - simpl. intuition.
Qed.

Lemma isset_dec (mask : list bool) (i : nat) : {isset mask i} + {~ isset mask i}.
Proof. unfold isset. destruct (nth i mask false); [left|right]; congruence. Qed.

Section BfsFacts.

Context {A : Arith} {Pw : Pow A}.
Variable balls : list (point A).
Variable radius : num.

Local Abbreviation n := (length balls).
Local Abbreviation near := (near balls radius).
Local Abbreviation visit_inv := (visit_inv balls radius).
Local Abbreviation bfs_inv := (bfs_inv balls radius).

Lemma bfs_visit_all (curr : nat) (V C : list bool) (Q : list nat) :
  length V = n -> length C = n ->
  visit_inv curr V C Q (range 0 n)
    (fold_left (bfs_visit balls radius curr) (range 0 n) (mkbfs V C Q)).
Proof.
  intros HV HC.
  apply (fold_left_invariant _ (visit_inv curr V C Q)).
  - unfold visit_inv. cbn [visited in_cluster queue In].
    repeat split; auto; try lia; intuition.
  - intros done x [V' C' Q'] Hx (HV' & HC' & Hv & Hc & Hq & Hm).
    apply in_range in Hx. cbn [visited in_cluster queue] in *.
    unfold bfs_visit. cbn [visited in_cluster queue].
    change (nleb (ball_dist balls curr x) radius) with (near curr x).
    destruct (nth x V' false) eqn:HxV'; cbn [negb andb];
      [|destruct (near curr x) eqn:Hnear].
    + (* already visited *)
      assert (Hset : isset V' x) by exact HxV'.
      unfold visit_inv. cbn [visited in_cluster queue].
      repeat split; auto.
      * intros Hi. apply Hv in Hi. destruct Hi as [Hi|(Hi & Hn)]; auto.
        right. split; [apply in_or_app; left; exact Hi|exact Hn].
      * intros [Hi|(Hi & Hn)]; [apply Hv; left; exact Hi|].
        apply in_app_or in Hi. destruct Hi as [Hi|[<-|[]]]; [|exact Hset].
        apply Hv. right. split; assumption.
      * intros Hi. apply Hc in Hi. destruct Hi as [Hi|(Hi & Hn)]; auto.
        right. split; [apply in_or_app; left; exact Hi|exact Hn].
      * intros [Hi|(Hi & Hnv & Hn)]; [apply Hc; left; exact Hi|].
        apply in_app_or in Hi. destruct Hi as [Hi|[<-|[]]].
        -- apply Hc. right. auto.
        -- apply Hv in Hset. destruct Hset as [Hs|(Hd & _)]; [contradiction|].
           apply Hc. right. auto.
      * intros Hi. apply Hq in Hi. destruct Hi as [Hi|(Hi & Hn)]; auto.
        right. split; [apply in_or_app; left; exact Hi|exact Hn].
      * intros [Hi|(Hi & Hnv & Hn)]; [apply Hq; left; exact Hi|].
        apply in_app_or in Hi. destruct Hi as [Hi|[<-|[]]].
        -- apply Hq. right. auto.
        -- apply Hv in Hset. destruct Hset as [Hs|(Hd & _)]; [contradiction|].
           apply Hq. right. auto.
    + (* newly reached *)
      assert (Hnew : ~ isset V x).
      { intros Hs. assert (Hs' : isset V' x) by (apply Hv; left; exact Hs).
        unfold isset in Hs'. congruence. }
      unfold visit_inv. cbn [visited in_cluster queue].
      rewrite !set_at_length.
      split; [exact HV'|]. split; [exact HC'|].
      split; [|split; [|split]].
      * intros i. rewrite isset_set_at by lia. rewrite Hv. split.
        -- intros [->|[Hi|(Hi & Hn)]]; auto.
           ++ right. split; [apply in_or_app; right; left; reflexivity|exact Hnear].
           ++ right. split; [apply in_or_app; left; exact Hi|exact Hn].
        -- intros [Hi|(Hi & Hn)]; auto.
           apply in_app_or in Hi. destruct Hi as [Hi|[<-|[]]]; auto.
      * intros i. rewrite isset_set_at by lia. rewrite Hc. split.
        -- intros [->|[Hi|(Hi & Hn)]]; auto.
           ++ right. split; [apply in_or_app; right; left; reflexivity|auto].
           ++ right. split; [apply in_or_app; left; exact Hi|exact Hn].
        -- intros [Hi|(Hi & Hn)]; auto.
           apply in_app_or in Hi. destruct Hi as [Hi|[<-|[]]]; auto.
      * intros i. rewrite in_app_iff, Hq. cbn [In]. split.
        -- intros [[Hi|(Hi & Hn)]|[<-|[]]]; auto.
           ++ right. split; [apply in_or_app; left; exact Hi|exact Hn].
           ++ right. split; [apply in_or_app; right; left; reflexivity|auto].
        -- intros [Hi|(Hi & Hn)]; auto.
           apply in_app_or in Hi. destruct Hi as [Hi|[<-|[]]]; auto.
      * rewrite length_app. cbn [length].
        pose proof (unset_count_set_at V' x ltac:(lia) HxV'). lia.
    + (* out of reach *)
      unfold visit_inv. cbn [visited in_cluster queue].
      repeat split; auto.
      * intros Hi. apply Hv in Hi. destruct Hi as [Hi|(Hi & Hn)]; auto.
        right. split; [apply in_or_app; left; exact Hi|exact Hn].
      * intros [Hi|(Hi & Hn)]; [apply Hv; left; exact Hi|].
        apply in_app_or in Hi. destruct Hi as [Hi|[<-|[]]]; [|congruence].
        apply Hv. right. split; assumption.
      * intros Hi. apply Hc in Hi. destruct Hi as [Hi|(Hi & Hn)]; auto.
        right. split; [apply in_or_app; left; exact Hi|exact Hn].
      * intros [Hi|(Hi & Hnv & Hn)]; [apply Hc; left; exact Hi|].
        apply in_app_or in Hi. destruct Hi as [Hi|[<-|[]]]; [|congruence].
        apply Hc. right. auto.
      * intros Hi. apply Hq in Hi. destruct Hi as [Hi|(Hi & Hn)]; auto.
        right. split; [apply in_or_app; left; exact Hi|exact Hn].
      * intros [Hi|(Hi & Hnv & Hn)]; [apply Hq; left; exact Hi|].
        apply in_app_or in Hi. destruct Hi as [Hi|[<-|[]]]; [|congruence].
        apply Hq. right. auto.
Qed.

Lemma isset_lt (mask : list bool) (i : nat) : isset mask i -> i < length mask.
Proof.
  unfold isset. intros H.
  destruct (Nat.lt_ge_cases i (length mask)) as [Hlt|Hge]; [exact Hlt|].
  rewrite nth_overflow in H by exact Hge. discriminate.
Qed.

Local Abbreviation chain := (chain balls radius).

Lemma bfs_loop_spec (V0 : list bool) (seed fuel : nat) (st : bfs_state) :
  bfs_inv V0 seed st ->
  length (queue st) + 2 * unset_count (visited st) <= fuel ->
  exists st',
    bfs_loop fuel balls radius st = Returns st' /\
    bfs_inv V0 seed st' /\ queue st' = [].
Proof.
  revert st. induction fuel as [|fuel IH]; intros [V C Q] Hinv Hfuel.
  - cbn [queue visited] in Hfuel. destruct Q; [|simpl in Hfuel; lia].
    exists (mkbfs V C []). auto.
  - destruct Q as [|curr rest].
    { exists (mkbfs V C []). auto. }
    cbn [bfs_loop queue visited in_cluster] in *.
    destruct Hinv as (HV & HC & Hq & Hnew & Hvis & Hseed & Hchain & Hexp).
    cbn [queue visited in_cluster] in *.
    pose proof (bfs_visit_all curr V C rest HV HC) as Hall.
    set (st1 := fold_left (bfs_visit balls radius curr) (range 0 n)
                          (mkbfs V C rest)) in *.
    destruct Hall as (HV1 & HC1 & Hv1 & Hc1 & Hq1 & Hm1).
    assert (Hcurr : isset C curr) by (apply Hq; left; reflexivity).
    assert (Hcurr_n : curr < n) by (rewrite <- HC; apply isset_lt; exact Hcurr).
    cbn [length] in Hfuel.
    change (fold_left (bfs_visit balls radius curr) (range 0 (length balls))
                      (mkbfs V C rest)) with st1.
    apply IH; [|lia].
    unfold bfs_inv. split; [exact HV1|]. split; [exact HC1|].
    split; [|split; [|split; [|split; [|split]]]].
    + intros q Hin. apply Hq1 in Hin. apply Hc1.
      destruct Hin as [Hin|Hin]; [left; apply Hq; right; exact Hin|right; exact Hin].
    + intros i Hi. apply Hc1 in Hi. destruct Hi as [Hi|(_ & Hnv & _)].
      * apply Hnew. exact Hi.
      * intros H0. apply Hnv. apply Hvis. left. exact H0.
    + intros i. split.
      * intros H. apply Hv1 in H. destruct H as [H|(Hr & Hn)].
        -- apply Hvis in H. destruct H as [H|H]; [left; exact H|].
           right. apply Hc1. left. exact H.
        -- destruct (isset_dec V i) as [Hs|Hs].
           ++ apply Hvis in Hs. destruct Hs as [H|H]; [left; exact H|].
              right. apply Hc1. left. exact H.
           ++ right. apply Hc1. right. auto.
      * intros [H0|Hi].
        -- apply Hv1. left. apply Hvis. left. exact H0.
        -- apply Hc1 in Hi. destruct Hi as [Hi|(Hr & _ & Hn)]; apply Hv1.
           ++ left. apply Hvis. right. exact Hi.
           ++ right. auto.
    + apply Hc1. left. exact Hseed.
    + intros i Hi. apply Hc1 in Hi. destruct Hi as [Hi|(Hr & _ & Hn)].
      * apply Hchain. exact Hi.
      * apply in_range in Hr.
        apply rt_trans with curr; [apply Hchain; exact Hcurr|].
        apply rt_step. repeat split; [exact Hcurr_n|lia|exact Hn].
    + intros i Hi Hnq j Hj Hnear. apply Hv1.
      destruct (Nat.eq_dec i curr) as [->|Hne].
      * right. split; [apply in_range; lia|exact Hnear].
      * apply Hc1 in Hi. destruct Hi as [Hi|Hi].
        -- left. apply (Hexp i Hi); auto.
           intros [E|Hin]; [congruence|].
           apply Hnq. apply Hq1. left. exact Hin.
        -- exfalso. apply Hnq. apply Hq1. right. exact Hi.
Qed.

End BfsFacts.

(** ** binary64: the distance test is symmetric *)

Lemma SFmul_self_abs (x : spec_float) :
  SF64mul x x = SF64mul (SFabs x) (SFabs x).
Proof. destruct x as [s|s| |s m e]; try destruct s; reflexivity. Qed.

Lemma SFabs_binary_round (s s' : bool) (m : positive) (e : Z) :
  SFabs (binary_round prec emax s m e) = SFabs (binary_round prec emax s' m e).
Proof.
  unfold binary_round.
  destruct (shl_align m e _) as [mz ez].
  unfold binary_round_aux.
  destruct (shr_fexp prec emax (Z.pos mz) ez loc_Exact) as [mrs e'].
  destruct (shr_fexp prec emax _ e' loc_Exact) as [mrs' e''].
  destruct (shr_m mrs') as [|p|p]; try reflexivity.
  destruct (e'' <=? emax - prec)%Z; reflexivity.
Qed.

Lemma SFabs_binary_normalize_opp (m e : Z) :
  SFabs (binary_normalize prec emax m e false)
  = SFabs (binary_normalize prec emax (- m) e false).
Proof.
  destruct m as [|p|p]; cbn [Z.opp binary_normalize];
    [reflexivity|apply SFabs_binary_round|apply SFabs_binary_round].
Qed.

Lemma SFabs_sub_sym (x y : spec_float) :
  SFabs (SF64sub x y) = SFabs (SF64sub y x).
Proof.
  destruct x as [sx|sx| |sx mx ex], y as [sy|sy| |sy my ey];
    try (destruct sx, sy; reflexivity); try (destruct sx; reflexivity);
    try (destruct sy; reflexivity); try reflexivity.
  unfold SF64sub, SFsub.
  change IntDef.Z.min with Z.min. rewrite (Z.min_comm ey ex).
  set (ez := Z.min ex ey).
  rewrite SFabs_binary_normalize_opp. f_equal. f_equal. lia.
Qed.

Lemma float_sq_sub_sym (a b : float) :
  ((a - b) * (a - b) = (b - a) * (b - a))%float.
Proof.
  apply Prim2SF_inj. rewrite !mul_spec, !sub_spec.
  rewrite SFmul_self_abs, (SFmul_self_abs (SF64sub _ _)).
  rewrite (SFabs_sub_sym (Prim2SF a) (Prim2SF b)). reflexivity.
Qed.

Lemma for_each_invariant {S X : Type} (body : S -> X -> outcome S)
    (P : list X -> S -> Prop) (xs : list X) (s0 : S) :
  P [] s0 ->
  (forall done x s, In x xs -> P done s ->
     exists s', body s x = Returns s' /\ P (done ++ [x]) s') ->
  exists s', for_each body xs s0 = Returns s' /\ P xs s'.
Proof.
  intros H0 Hstep.
  enough (H : forall rest done s,
             (forall x, In x rest -> In x xs) -> P done s ->
             exists s', for_each body rest s = Returns s' /\ P (done ++ rest) s').
  { apply (H xs [] s0); auto. }
  induction rest as [|x rest IH]; intros done s Hin HP.
  - exists s. rewrite app_nil_r. auto.
  - cbn [for_each].
    destruct (Hstep done x s (Hin x (or_introl eq_refl)) HP) as (s1 & -> & HP1).
    cbn [bind].
    replace (done ++ x :: rest) with ((done ++ [x]) ++ rest)
      by (rewrite <- app_assoc; reflexivity).
    apply IH; [|exact HP1]. intros y Hy. apply Hin. right. exact Hy.
Qed.

Section ClusterFacts.

Context {A : Arith} {Pw : Pow A}.
Variable balls : list (point A).
Variable radius : num.

Local Abbreviation n := (length balls).
Local Abbreviation near := (near balls radius).
Local Abbreviation chain := (chain balls radius).
Local Abbreviation bfs_inv := (bfs_inv balls radius).
Local Abbreviation clusters_inv := (clusters_inv balls radius).
Local Abbreviation clusters_partition := (clusters_partition balls radius).

Hypothesis near_sym : forall i j, i < n -> j < n -> near i j = near j i.

Lemma chain_sym (i j : nat) : chain i j -> chain j i.
Proof.
  induction 1 as [x y (Hx & Hy & Hn)| |x y z _ IH1 _ IH2].
  - apply rt_step. repeat split; auto. rewrite <- Hn. apply near_sym; auto.
  - apply rt_refl.
  - apply rt_trans with y; assumption.
Qed.

Lemma cluster_from_seed_inv (done : list nat) (seed : nat)
    (acc : list bool * list (list (point A))) :
  seed < n -> clusters_inv done acc ->
  exists acc',
    cluster_from_seed balls radius acc seed = Returns acc' /\
    clusters_inv (done ++ [seed]) acc'.
Proof.
  intros Hseed. destruct acc as [V0 clusters].
  intros (idxs & Hcl & HV0 & Hvis & Hall & Hnd & Hdone).
  cbn [fst snd] in *. unfold cluster_from_seed.
  destruct (nth seed V0 false) eqn:Hs.
  - exists (V0, clusters). split; [reflexivity|].
    exists idxs. cbn [fst snd]. repeat split; auto.
    + apply Hvis.
    + apply Hvis.
    + apply Hall; assumption.
    + apply Hall; assumption.
    + apply Hall; assumption.
    + intros x Hx. apply in_app_or in Hx.
      destruct Hx as [Hx|[<-|[]]]; [apply Hdone; exact Hx|exact Hs].
  - set (st0 := mkbfs (set_at V0 seed true)
                      (set_at (repeat false (length balls)) seed true) [seed]).
    assert (Hrep : forall i, ~ isset (repeat false (length balls)) i).
    { intros i. unfold isset. rewrite nth_repeat_false. discriminate. }
    assert (Hinv0 : bfs_inv V0 seed st0).
    { unfold bfs_inv, st0. cbn [visited in_cluster queue].
      rewrite !set_at_length, repeat_length.
      split; [exact HV0|]. split; [reflexivity|].
      split; [|split; [|split; [|split; [|split]]]].
      - intros q [<-|[]]. apply isset_set_at; [rewrite repeat_length; exact Hseed|].
        left. reflexivity.
      - intros i Hi. apply isset_set_at in Hi; [|rewrite repeat_length; exact Hseed].
        destruct Hi as [->|Hi]; [|destruct (Hrep i Hi)].
        unfold isset. congruence.
      - intros i. rewrite !isset_set_at
          by (rewrite ?repeat_length; lia).
        split; [intros [->|H]; auto|intros [H|[->|H]]; auto].
        destruct (Hrep i H).
      - apply isset_set_at; [rewrite repeat_length; exact Hseed|]. left. reflexivity.
      - intros i Hi. apply isset_set_at in Hi; [|rewrite repeat_length; exact Hseed].
        destruct Hi as [->|Hi]; [apply rt_refl|destruct (Hrep i Hi)].
      - intros i Hi Hnq. apply isset_set_at in Hi; [|rewrite repeat_length; exact Hseed].
        destruct Hi as [->|Hi]; [|destruct (Hrep i Hi)].
        exfalso. apply Hnq. left. reflexivity. }
    destruct (bfs_loop_spec balls radius V0 seed (2 * length balls + 1) st0 Hinv0)
      as (st' & -> & Hinv' & Hq').
    { unfold st0. cbn [queue visited length].
      pose proof (unset_count_le (set_at V0 seed true)) as Hle.
      rewrite set_at_length in Hle. lia. }
    cbn [bind]. eexists. split; [reflexivity|].
    destruct Hinv' as (HV' & HC' & _ & Hnew & Hvis' & Hseed' & Hchain & Hexp).
    rewrite Hq' in Hexp.
    set (c := mask_indices (in_cluster st')).
    assert (Hc : forall i, In i c <-> isset (in_cluster st') i)
      by (intros i; apply in_mask_indices).
    exists (idxs ++ [c]). cbn [fst snd].
    split; [|split; [|split; [|split; [|split]]]].
    + rewrite map_app, Hcl. cbn [map]. f_equal. f_equal.
      apply take_mask_indices. lia.
    + exact HV'.
    + intros i. rewrite Hvis', Hvis, <- Hc. split.
      * intros [(c' & Hc' & Hi)|Hi].
        -- exists c'. split; [apply in_or_app; left; exact Hc'|exact Hi].
        -- exists c. split; [apply in_or_app; right; left; reflexivity|exact Hi].
      * intros (c' & Hc' & Hi). apply in_app_or in Hc'.
        destruct Hc' as [Hc'|[<-|[]]]; [left; exists c'; auto|right; exact Hi].
    + intros c' Hc'. apply in_app_or in Hc'.
      destruct Hc' as [Hc'|[<-|[]]]; [apply Hall; exact Hc'|].
      split; [|split].
      * intros E. assert (Hin : In seed c) by (apply Hc; exact Hseed').
        rewrite E in Hin. destruct Hin.
      * intros i j Hi Hj. apply Hc in Hi, Hj.
        apply rt_trans with seed; [apply chain_sym|]; apply Hchain; assumption.
      * intros i j Hi Hj Hnear. apply Hc. apply Hc in Hi.
        assert (Hi_n : i < n) by (rewrite <- HC'; apply isset_lt; exact Hi).
        assert (Hvj : isset (visited st') j)
          by (apply (Hexp i Hi (fun H => H) j Hj Hnear)).
        apply Hvis' in Hvj. destruct Hvj as [Hvj|Hvj]; [|exact Hvj].
        exfalso. apply (Hnew i Hi). apply Hvis.
        apply Hvis in Hvj. destruct Hvj as (c' & Hc' & Hjc).
        exists c'. split; [exact Hc'|].
        destruct (Hall c' Hc') as (_ & _ & Hclosed).
        apply (Hclosed j i Hjc Hi_n). rewrite <- Hnear. apply near_sym; auto.
    + rewrite concat_app. cbn [concat]. rewrite app_nil_r.
      apply NoDup_app; [exact Hnd|apply mask_indices_from_NoDup|].
      intros i Hi Hic. apply Hc in Hic. apply (Hnew i Hic). apply Hvis.
      apply in_concat in Hi. exact Hi.
    + intros x Hx. apply Hvis'. apply in_app_or in Hx.
      destruct Hx as [Hx|[<-|[]]]; [left; apply Hdone; exact Hx|right; exact Hseed'].
Qed.

Lemma find_all_clusters_indices :
  exists clusters idxs,
    find_all_clusters balls radius = Returns clusters /\
    clusters = map (take_idx balls) idxs /\
    Forall (fun c => c <> []) idxs /\
    Permutation (concat idxs) (range 0 n) /\
    (forall i j, i < n -> j < n ->
       ((exists c, In c idxs /\ In i c /\ In j c) <-> chain i j)) /\
    (balls = [] -> clusters = []).
Proof.
  unfold find_all_clusters.
  destruct (length balls =? 0)%nat eqn:Hz.
  - apply Nat.eqb_eq in Hz. exists [], []. rewrite Hz.
    repeat split; auto; try lia.
  - apply Nat.eqb_neq in Hz.
    destruct (for_each_invariant (cluster_from_seed balls radius) clusters_inv
                (range 0 (length balls)) (repeat false (length balls), []))
      as ([V clusters] & -> & (idxs & Hcl & HV & Hvis & Hall & Hnd & Hdone)).
    { exists []. cbn [fst snd map concat In].
      rewrite repeat_length.
      repeat split; auto; try contradiction; try (intros (c & [] & _)).
      - intros Hi. unfold isset in Hi. rewrite nth_repeat_false in Hi.
        discriminate.
      - constructor. }
    { intros done x s Hx Hinv. apply in_range in Hx.
      apply cluster_from_seed_inv; [lia|exact Hinv]. }
    cbn [bind fst snd] in *. exists clusters, idxs.
    assert (Hmem : forall x, In x (concat idxs) <-> x < n).
    { intros x. rewrite in_concat, <- Hvis. split.
      - intros Hx. rewrite <- HV. apply isset_lt. exact Hx.
      - intros Hx. apply Hdone. apply in_range. lia. }
    split; [reflexivity|]. split; [exact Hcl|].
    split; [|split; [|split]].
    + apply Forall_forall. intros c Hc. apply Hall. exact Hc.
    + apply NoDup_Permutation; [exact Hnd|apply seq_NoDup|].
      intros x. rewrite Hmem, in_range. lia.
    + intros i j Hi Hj. split.
      * intros (c & Hc & Hic & Hjc). apply (Hall c Hc); assumption.
      * intros Hch. apply Hmem, in_concat in Hi. destruct Hi as (c & Hc & Hic).
        exists c. split; [exact Hc|]. split; [exact Hic|].
        destruct (Hall c Hc) as (_ & _ & Hclosed).
        clear Hj. induction Hch as [x y (Hx & Hy & Hn)| |x y z _ IH1 _ IH2].
        -- apply (Hclosed x y Hic Hy Hn).
        -- exact Hic.
        -- apply IH2. apply IH1. exact Hic.
    + intros ->. simpl in Hz. congruence.
Qed.

Lemma find_all_clusters_spec :
  exists clusters,
    find_all_clusters balls radius = Returns clusters /\
    clusters_partition clusters.
Proof.
  destruct find_all_clusters_indices
    as (clusters & idxs & Hrun & Hcl & Hne & Hperm & Hchain & Hnil).
  exists clusters. split; [exact Hrun|].
  split; [|split; [|split]].
  - subst clusters. apply Forall_forall. intros c Hc.
    apply in_map_iff in Hc. destruct Hc as (ic & <- & Hic).
    rewrite Forall_forall in Hne. specialize (Hne ic Hic).
    destruct ic; [congruence|discriminate].
  - subst clusters. unfold take_idx. rewrite <- concat_map.
    rewrite <- (take_idx_range balls) at 1.
    apply (Permutation_map (at_ balls)), Permutation_sym. exact Hperm.
  - exists idxs. split; [exact Hcl|]. split; [exact Hne|].
    split; [exact Hperm|exact Hchain].
  - exact Hnil.
Qed.

End ClusterFacts.

(** In exact arithmetic the distance test is symmetric. *)
Lemma near_sym_real (balls : list (point real_arith)) (radius : R) (i j : nat) :
  near balls radius i j = near balls radius j i.
Proof.
  unfold near, ball_dist.
  change (norm (psub (at_ balls j) (at_ balls i)))
    with (dist_from (at_ balls i) (at_ balls j)).
  change (norm (psub (at_ balls i) (at_ balls j)))
    with (dist_from (at_ balls j) (at_ balls i)).
  rewrite dist_from_sym. reflexivity.
Qed.

(** In binary64 too: [a - b] and [b - a] differ in sign only, and the
    square forgets the sign. *)
Lemma near_sym_float (balls : list (point float_arith)) (radius : float)
    (i j : nat) :
  near balls radius i j = near balls radius j i.
Proof.
  unfold near, ball_dist, norm, psub. cbn [px py].
  cbn [num nadd nsub nmul nsqrt nleb float_arith].
  rewrite (float_sq_sub_sym (px (at_ balls j)) (px (at_ balls i))).
  rewrite (float_sq_sub_sym (py (at_ balls j)) (py (at_ balls i))).
  reflexivity.
Qed.

(** C1: [find_all_clusters] returns, for every list of balls and every
    radius, a list of non-empty clusters that together hold each ball
    exactly once; the clusters are the balls at the positions of a partition
    of [0 .. n-1], and two positions are in the same cluster exactly when a
    chain of balls, each within [radius] of the one before, leads from one
    to the other; no balls give no clusters.  This is proved for binary64
    and for exact arithmetic. *)
Theorem find_all_clusters_partition :
  (forall (balls : list (point float_arith)) (radius : float),
      exists clusters,
        find_all_clusters balls radius = Returns clusters /\
        clusters_partition balls radius clusters) /\
  (forall (balls : list (point real_arith)) (radius : R),
      exists clusters,
        find_all_clusters balls radius = Returns clusters /\
        clusters_partition balls radius clusters).
Proof.
  split; intros balls radius; apply find_all_clusters_spec; intros i j _ _.
  - apply near_sym_float.
  - apply near_sym_real.
Qed.

(** ** Cluster selection *)

Lemma np_minimum_real (a b : R) :
  np_minimum (A:=real_arith) a b = Rmin a b.
Proof.
  unfold np_minimum, isnan. real_ops. rewrite Reqb_refl. cbn [negb].
  rewrite orb_false_r. unfold Rmin, Rleb.
  destruct (Rle_dec a b); reflexivity.
Qed.

Lemma fold_np_minimum_real (xs : list R) (x : R) :
  let m := fold_left (np_minimum (A:=real_arith)) xs x in
  In m (x :: xs) /\ forall y, In y (x :: xs) -> (m <= y)%R.
Proof.
  revert x. induction xs as [|z xs IH]; intros x; cbn [fold_left].
  - split; [left; reflexivity|]. intros y [<-|[]]. lra.
  - destruct (IH (np_minimum (A:=real_arith) x z)) as (Hin & Hmin).
    rewrite np_minimum_real in *.
    set (m := fold_left (@np_minimum real_arith) xs (Rmin x z)) in *.
    split.
    + destruct Hin as [Hm|Hin]; [|right; right; exact Hin].
      rewrite <- Hm. unfold Rmin. destruct (Rle_dec x z); [left|right; left];
        reflexivity.
    + intros y [<-|[<-|Hy]].
      * apply Rle_trans with (Rmin x z);
          [apply Hmin; left; reflexivity|apply Rmin_l].
      * apply Rle_trans with (Rmin x z);
          [apply Hmin; left; reflexivity|apply Rmin_r].
      * apply Hmin. right. exact Hy.
Qed.

Lemma dist_from_nonneg (p q : point real_arith) : (0 <= dist_from p q)%R.
Proof. unfold dist_from, norm. real_ops. apply sqrt_pos. Qed.

(** The score of a non-empty cluster, in exact arithmetic and with a
    positive bias. *)
Lemma score_cluster_real (c : list (point real_arith))
    (robot_pos : point real_arith) (bias : R) :
  (0 < bias)%R -> c <> [] ->
  exists s md,
    score_cluster c robot_pos bias = Returns (s, md) /\
    (exists p, In p c /\ md = dist_from robot_pos p) /\
    (forall q, In q c -> (md <= dist_from robot_pos q)%R) /\
    s = (INR (length c) / (md + bias))%R /\
    (0 < s)%R.
Proof.
  intros Hb Hne. destruct c as [|p0 c]; [congruence|].
  unfold score_cluster.
  change (map (fun p => norm (psub p robot_pos)) (p0 :: c))
    with (map (dist_from robot_pos) (p0 :: c)).
  cbn [map npmin bind].
  destruct (fold_np_minimum_real (map (dist_from robot_pos) c)
                                 (dist_from robot_pos p0)) as (Hin & Hmin).
  set (md := fold_left (@np_minimum real_arith) (map (dist_from robot_pos) c)
                       (dist_from robot_pos p0)) in *.
  change (dist_from robot_pos p0 :: map (dist_from robot_pos) c)
    with (map (dist_from robot_pos) (p0 :: c)) in Hin, Hmin.
  assert (Hmd : (0 <= md)%R).
  { apply in_map_iff in Hin. destruct Hin as (p & <- & _).
    apply dist_from_nonneg. }
  unfold zero, of_nat. real_ops.
  replace (Reqb (md + bias) 0) with false.
  2:{ symmetry. unfold Reqb. destruct (Req_dec_T (md + bias) 0); [lra|reflexivity]. }
  rewrite <- INR_IZR_INZ.
  eexists. exists md. split; [reflexivity|].
  split; [|split; [|split]].
  - apply in_map_iff in Hin. destruct Hin as (p & E & Hp). exists p. auto.
  - intros q Hq. apply Hmin. apply in_map. exact Hq.
  - reflexivity.
  - apply Rdiv_lt_0_compat; [|lra].
    apply lt_0_INR. simpl. lia.
Qed.

Section SelectFacts.

Variable robot_pos : point real_arith.
Variable bias : R.

Local Abbreviation first_best := (first_best robot_pos bias).
Local Abbreviation select_inv := (select_inv robot_pos bias).

Hypothesis bias_pos : (0 < bias)%R.

Lemma select_step_inv (done : list (list (point real_arith)))
    (c : list (point real_arith)) (st : option (list (point real_arith)) * R * R) :
  c <> [] -> select_inv done st ->
  exists st', select_step robot_pos bias st c = Returns st' /\
              select_inv (done ++ [c]) st'.
Proof.
  intros Hne Hinv. destruct st as [[bc bs] bmd].
  destruct (score_cluster_real c robot_pos bias bias_pos Hne)
    as (s & md & Hscore & _ & _ & _ & Hpos).
  unfold select_step. rewrite Hscore. cbn [bind]. real_ops.
  assert (Hlast : nth_error (done ++ [c]) (length done) = Some c).
  { rewrite nth_error_app2, Nat.sub_diag by lia. reflexivity. }
  assert (Hidx : forall j c', nth_error (done ++ [c]) j = Some c' ->
            (j < length done /\ nth_error done j = Some c') \/
            (j = length done /\ c' = c)).
  { intros j c' Hj. destruct (Nat.lt_ge_cases j (length done)) as [Hlt|Hge].
    - left. rewrite nth_error_app1 in Hj by exact Hlt. auto.
    - right. rewrite nth_error_app2 in Hj by exact Hge.
      destruct (j - length done) as [|d] eqn:E; simpl in Hj.
      + injection Hj as <-. split; [lia|reflexivity].
      + destruct d; discriminate. }
  destruct Hinv as [(-> & -> & ->)|(k & c0 & -> & Hk & Hs0 & Hall)].
  - replace (Rltb (-1) s) with true by (symmetry; apply Rltb_true; lra).
    eexists. split; [reflexivity|]. right. exists 0, c.
    split; [reflexivity|]. split; [reflexivity|]. split; [exact Hscore|].
    intros [|j] c' Hj; simpl in Hj; [|destruct j; discriminate].
    injection Hj as <-. exists s, md. repeat split; [exact Hscore|lra|lia].
  - assert (Hk_lt : k < length done)
      by (apply nth_error_Some; congruence).
    destruct (Rltb bs s) eqn:Hcmp.
    + apply Rltb_true in Hcmp. eexists. split; [reflexivity|].
      right. exists (length done), c. split; [reflexivity|].
      split; [exact Hlast|]. split; [exact Hscore|].
      intros j c' Hj. destruct (Hidx j c' Hj) as [(Hlt & Hj')|(-> & ->)].
      * destruct (Hall j c' Hj') as (s' & md' & Hs' & Hle & _).
        exists s', md'. repeat split; [exact Hs'|lra|intros _; lra].
      * exists s, md. repeat split; [exact Hscore|lra|lia].
    + apply Rltb_false in Hcmp. eexists. split; [reflexivity|].
      right. exists k, c0. split; [reflexivity|].
      split; [rewrite nth_error_app1 by exact Hk_lt; exact Hk|].
      split; [exact Hs0|].
      intros j c' Hj. destruct (Hidx j c' Hj) as [(Hlt & Hj')|(-> & ->)].
      * apply Hall. exact Hj'.
      * exists s, md. repeat split; [exact Hscore|lra|lia].
Qed.

End SelectFacts.

(** C6: in exact arithmetic, for a non-empty list of balls and a positive
    bias, [select_best_cluster] returns the cluster [c] at the first
    position [k] of the partition whose score is the greatest (no cluster
    scores more, every cluster before [k] scores less), where the score of
    a cluster is its size divided by the sum of the bias and the least
    distance [md] from the robot to a ball of the cluster; with [c] it
    returns that score, [md], the size of [c] and the number of clusters.
    For no balls it returns [None], in every arithmetic. *)
Theorem select_best_cluster_first_max :
  (forall (balls : list (point real_arith)) (robot_pos : point real_arith)
          (radius bias : R),
      (0 < bias)%R -> balls <> [] ->
      exists clusters k c s md,
        find_all_clusters balls radius = Returns clusters /\
        first_best robot_pos bias clusters k c s md /\
        (exists p, In p c /\ md = dist_from robot_pos p) /\
        (forall q, In q c -> (md <= dist_from robot_pos q)%R) /\
        s = (INR (length c) / (md + bias))%R /\
        select_best_cluster balls robot_pos radius bias
        = Returns (Some (mksel c s md (length c) (length clusters)))) /\
  (forall (A : Arith) (robot_pos : point A) (radius bias : num),
      select_best_cluster [] robot_pos radius bias = Returns None).
Proof.
  split.
  - intros balls robot_pos radius bias.
    intros Hb Hne.
    destruct (find_all_clusters_spec balls radius
                (fun i j _ _ => near_sym_real balls radius i j))
      as (clusters & Hrun & Hall & Hperm & _ & _).
    assert (Hcne : clusters <> []).
    { intros ->. simpl in Hperm. apply Permutation_sym, Permutation_nil in Hperm.
      contradiction. }
    unfold select_best_cluster. rewrite Hrun. cbn [bind].
    destruct (for_each_invariant (select_step robot_pos bias)
                (select_inv robot_pos bias) clusters (None, of_Z (-1), zero))
      as ([[bc bs] bmd] & Hloop & Hinv).
    { left. auto. }
    { intros done c st Hc Hinv. apply select_step_inv; [exact Hb| |exact Hinv].
      rewrite Forall_forall in Hall. apply Hall. exact Hc. }
    destruct clusters as [|c0 clusters']; [congruence|].
    rewrite Hloop. cbn [bind].
    destruct Hinv as [(E & _)|(k & c & -> & Hbest)]; [discriminate|].
    exists (c0 :: clusters'), k, c, bs, bmd.
    destruct Hbest as (Hk & Hscore & Hothers).
    assert (Hc_ne : c <> []).
    { rewrite Forall_forall in Hall. apply Hall. eapply nth_error_In. exact Hk. }
    destruct (score_cluster_real c robot_pos bias Hb Hc_ne)
      as (s & md & Hscore' & Hp & Hmin & Hs & _).
    rewrite Hscore in Hscore'. injection Hscore' as -> ->.
    split; [reflexivity|]. split; [repeat split; assumption|].
    split; [exact Hp|]. split; [exact Hmin|]. split; [exact Hs|reflexivity].
  - reflexivity.
Qed.

(** C6 at two balls 4 apart, the robot beside the first. *)
Lemma select_best_cluster_first_max_witness :
  let balls : list (point real_arith) :=
    [@mkpt real_arith 2%R 4%R; @mkpt real_arith 6%R 4%R] in
  let robot_pos : point real_arith := @mkpt real_arith 1%R 4%R in
  (0 < 1 / 2)%R /\ balls <> [] /\
  exists clusters k c s md,
    find_all_clusters balls (3 / 2)%R = Returns clusters /\
    first_best robot_pos (1 / 2)%R clusters k c s md /\
    (exists p, In p c /\ md = dist_from robot_pos p) /\
    (forall q, In q c -> (md <= dist_from robot_pos q)%R) /\
    s = (INR (length c) / (md + 1 / 2))%R /\
    select_best_cluster balls robot_pos (3 / 2)%R (1 / 2)%R
    = Returns (Some (mksel c s md (length c) (length clusters))).
Proof.
  cbv zeta. split; [lra|]. split; [discriminate|].
  apply (proj1 select_best_cluster_first_max); [lra|discriminate].
Defined.

(** ** Full sweep *)

(** C10: the [pruned_waypoints] figure of [plan_full_sweep] is the number
    of waypoints before pruning, one more than the number of balls, less the
    number of waypoints that pruning leaves of the 2-opt ordering; the
    pruned nearest-neighbour ordering is returned beside it and does not
    enter the figure.  This holds of every plan returned, in every
    arithmetic; in exact arithmetic a plan is returned for every non-empty
    list of balls, and none is for an empty one. *)
Theorem plan_full_sweep_pruned_count :
  (forall (A : Arith) (Pw : Pow A) (fuel : nat) (balls : list (point A))
          (robot_pos : point A) (plan : sweep_plan),
      plan_full_sweep fuel balls robot_pos = Returns (Some plan) ->
      exists ordered refined,
        nearest_neighbor_order balls robot_pos = Returns ordered /\
        two_opt_improve fuel (robot_pos :: ordered) = Returns refined /\
        prune_waypoints (robot_pos :: ordered) INTAKE_HALF_WIDTH
          = Returns (nn_waypoints plan) /\
        prune_waypoints refined INTAKE_HALF_WIDTH
          = Returns (opt_waypoints plan) /\
        total_waypoints plan = (Z.of_nat (length balls) + 1)%Z /\
        pruned_waypoints plan =
          (total_waypoints plan - Z.of_nat (length (opt_waypoints plan)))%Z) /\
  (forall (balls : list (point real_arith)) (robot_pos : point real_arith),
      balls <> [] ->
      exists sweeps plan,
        forall fuel, sweeps <= fuel ->
          plan_full_sweep fuel balls robot_pos = Returns (Some plan)) /\
  (forall (A : Arith) (Pw : Pow A) (fuel : nat) (robot_pos : point A),
      plan_full_sweep fuel [] robot_pos = Returns None).
Proof.
  split; [|split].
  - intros A Pw fuel balls robot_pos plan.
    unfold plan_full_sweep.
    destruct (length balls =? 0)%nat; [discriminate|].
    intros H.
    apply bind_returns in H. destruct H as (ordered & Hnn & H).
    apply bind_returns in H. destruct H as (refined & Hopt & H).
    apply bind_returns in H. destruct H as (nn_wps & Hpn & H).
    apply bind_returns in H. destruct H as (opt_wps & Hpo & H).
    injection H as <-. cbn [nn_waypoints opt_waypoints total_waypoints
                              pruned_waypoints].
    exists ordered, refined. repeat split; try assumption.
    destruct (nearest_neighbor_order_permutation balls robot_pos)
      as (out & Hrun & Hlen & _).
    rewrite Hrun in Hnn. injection Hnn as <-.
    cbn [length]. rewrite Hlen. lia.
  - intros balls robot_pos.
    intros Hne. unfold plan_full_sweep.
    destruct (length balls =? 0)%nat eqn:Hz.
    { apply Nat.eqb_eq in Hz. destruct balls; [congruence|discriminate]. }
    destruct (nearest_neighbor_order_permutation balls robot_pos)
      as (ordered & -> & _).
    destruct (two_opt_improve_returns (robot_pos :: ordered))
      as (sweeps & refined & Hrun).
    destruct (prune_waypoints_returns (robot_pos :: ordered) INTAKE_HALF_WIDTH)
      as (nn_wps & Hpn).
    destruct (prune_waypoints_returns refined INTAKE_HALF_WIDTH)
      as (opt_wps & Hpo).
    exists sweeps. eexists. intros fuel Hfuel.
    cbn [bind]. rewrite (Hrun fuel Hfuel). cbn [bind].
    rewrite Hpn. cbn [bind]. rewrite Hpo. cbn [bind]. reflexivity.
  - reflexivity.
Qed.

(** An instance in binary64: pruning removes one waypoint from the
    nearest-neighbour ordering and none from the 2-opt ordering, and the
    figure is 0. *)
Example plan_full_sweep_counts_refined_only :
  let balls : list (point float_arith) :=
    [mkpt (-1)%float 2%float; mkpt (-4)%float 4%float;
     mkpt (-1)%float 3%float; mkpt 3%float 4%float] in
  exists plan,
    plan_full_sweep 3 balls (mkpt 0%float 0%float) = Returns (Some plan) /\
    total_waypoints plan = 5%Z /\
    length (nn_waypoints plan) = 4 /\
    length (opt_waypoints plan) = 5 /\
    pruned_waypoints plan = 0%Z.
Proof.
  cbv zeta. eexists. split; [vm_compute; reflexivity|].
  repeat split.
Qed.

(** ** The examples of the specification, in binary64 *)

#[local] Set Warnings "-inexact-float".

(** Four balls in two pairs, radius 1.5: two clusters of two balls, and the
    selector picks the pair next to the robot. *)
Example clusters_of_four_balls :
  let balls : list (point float_arith) :=
    [mkpt 2%float 4%float; mkpt 2.5%float 4.1%float;
     mkpt 6%float 4%float; mkpt 6.2%float 3.9%float] in
  find_all_clusters balls 1.5%float
  = Returns [[mkpt 2%float 4%float; mkpt 2.5%float 4.1%float];
             [mkpt 6%float 4%float; mkpt 6.2%float 3.9%float]] /\
  exists score,
    select_best_cluster balls (mkpt 1%float 4%float) 1.5%float 0.5%float
    = Returns (Some (mksel [mkpt 2%float 4%float; mkpt 2.5%float 4.1%float]
                           score 1%float 2 2)).
Proof.
  cbv zeta. split; [vm_compute; reflexivity|].
  eexists. vm_compute. reflexivity.
Qed.

(** Five collinear balls: 2-opt leaves the nearest-neighbour order alone. *)
Example collinear_sweep_not_improved :
  let balls : list (point float_arith) :=
    [mkpt 3%float 0%float; mkpt 1%float 0%float; mkpt 5%float 0%float;
     mkpt 2%float 0%float; mkpt 4%float 0%float] in
  exists ordered,
    nearest_neighbor_order balls (mkpt 0%float 0%float) = Returns ordered /\
    two_opt_improve 1 (mkpt 0%float 0%float :: ordered)
    = Returns (mkpt 0%float 0%float :: ordered).
Proof.
  cbv zeta. eexists. split; vm_compute; reflexivity.
Qed.

(** Three waypoints, the middle one 0.1 off the segment of the other two:
    the middle one is dropped. *)
Example middle_waypoint_pruned :
  prune_waypoints
    [mkpt 0%float 0%float; mkpt 1%float 0.1%float; mkpt 2%float 0%float]
    (@INTAKE_HALF_WIDTH float_arith)
  = Returns [mkpt 0%float 0%float; mkpt 2%float 0%float].
Proof. vm_compute. reflexivity. Qed.

(** * Further properties

    Properties of the planner beyond those the specification states, and of
    [find_nearest_cluster] and [plan_nearest_cluster]. *)

(** ** What pruning leaves *)

Lemma subseq_nil_l {T : Type} (l : list T) : subseq [] l.
Proof. induction l; constructor; assumption. Qed.

(** After a pass that removed nothing, every interior index of the list
    read passes the test against its two neighbours. *)
Lemma prune_scan_all_far {A : Arith} (w : list (point A)) (h : num)
    (l : list nat) (prev : nat) :
  snd (prune_scan w h prev l) = false ->
  forall j, 0 < j -> j + 1 < length (prev :: l) ->
    nleb h (_point_to_segment_dist (at_ w (nth j (prev :: l) O))
              (at_ w (nth (j - 1) (prev :: l) O))
              (at_ w (nth (j + 1) (prev :: l) O))) = true.
Proof.
  revert prev. induction l as [|kj l IH]; intros prev Hs j Hj Hlen.
  - simpl in Hlen. lia.
  - destruct l as [|knext tl]; [simpl in Hlen; lia|].
    rewrite prune_scan_step in Hs.
    destruct (nleb h (_point_to_segment_dist (at_ w kj) (at_ w prev)
                        (at_ w knext))) eqn:Htest;
      cbn [snd] in Hs; [|discriminate].
    destruct j as [|[|j]]; [lia|exact Htest|].
    specialize (IH kj Hs (S j) ltac:(lia) ltac:(simpl in *; lia)).
    replace (S (S j) - 1) with (S (S j - 1)) by lia.
    replace (S (S j) + 1) with (S (S j + 1)) by lia.
    exact IH.
Qed.

(** X1: [prune_waypoints] leaves no waypoint that it could prune: every
    waypoint it returns, the first and the last apart, passes the test
    [dist >= intake_half_width] against the segment that joins the
    waypoints returned before and after it; and of two waypoints or more
    it returns at least two.  This holds for every half-width and in every
    arithmetic. *)
Theorem prune_waypoints_none_prunable {A : Arith} (w : list (point A)) (h : num) :
  exists out,
    prune_waypoints w h = Returns out /\
    (2 <= length w -> 2 <= length out) /\
    forall j, 0 < j -> j + 1 < length out ->
      nleb h (_point_to_segment_dist (at_ out j) (at_ out (j - 1))
                                     (at_ out (j + 1))) = true.
Proof.
  unfold prune_waypoints.
  destruct (length w <=? 2)%nat eqn:Hle.
  - apply Nat.leb_le in Hle. exists w. split; [reflexivity|].
    split; [auto|]. intros j Hj Hlen. lia.
  - apply Nat.leb_gt in Hle.
    destruct (prune_loop_spec w h (length w) (range 0 (length w)))
      as (kept & Hrun & _ & _ & _ & Hlen & Hfix).
    { unfold range. rewrite length_seq. lia. }
    { unfold range. rewrite length_seq. lia. }
    rewrite Hrun. cbn [bind]. exists (take_idx w kept).
    assert (Hlen' : length (take_idx w kept) = length kept) by apply length_map.
    split; [reflexivity|]. split; [lia|].
    intros j Hj Hj1. rewrite Hlen' in Hj1.
    destruct kept as [|k0 l]; [simpl in Hlen; lia|].
    assert (Hne : l <> []) by (destruct l; simpl in *; [lia|congruence]).
    rewrite (prune_pass_scan w h k0 l Hne) in Hfix.
    injection Hfix as _ Hc.
    pose proof (prune_scan_all_far w h l k0 Hc j Hj Hj1) as Hfar.
    unfold take_idx, at_ at 1 3 5.
    rewrite !(nth_map_in (at_ w) (k0 :: l) _ O origin) by lia.
    exact Hfar.
Qed.

(** The shape of what [prune_waypoints] returns. *)
Lemma prune_waypoints_shape {A : Arith} (w : list (point A)) (h : num) :
  exists out,
    prune_waypoints w h = Returns out /\
    subseq out w /\
    hd_error out = hd_error w /\
    last out origin = last w origin /\
    (2 <= length w -> 2 <= length out).
Proof.
  unfold prune_waypoints.
  destruct (length w <=? 2)%nat eqn:Hle.
  - exists w. repeat split; auto using subseq_refl.
  - apply Nat.leb_gt in Hle.
    destruct (prune_loop_spec w h (length w) (range 0 (length w)))
      as (kept & Hrun & Hsub & Hhd & Hlast & Hlen & _).
    { unfold range. rewrite length_seq. lia. }
    { unfold range. rewrite length_seq. lia. }
    rewrite Hrun. cbn [bind]. exists (take_idx w kept).
    split; [reflexivity|]. split; [|split; [|split]].
    + rewrite <- (map_nth_range w origin) at 2.
      apply (subseq_map (at_ w)). exact Hsub.
    + destruct kept as [|k0 kept]; [simpl in Hlen; lia|].
      simpl in Hhd. rewrite range_cons in Hhd by lia. simpl in Hhd. subst k0.
      destruct w; [simpl in Hle; lia|reflexivity].
    + unfold take_idx.
      destruct (exists_last (l:=kept)) as (ki & kl & ->).
      { intros ->. simpl in Hlen. lia. }
      rewrite map_app. simpl. rewrite !last_last in *.
      rewrite Hlast.
      destruct (exists_last (l:=w)) as (wi & wl & ->).
      { intros ->. simpl in Hle. lia. }
      rewrite length_app. simpl. rewrite Nat.add_1_r, range_snoc by lia.
      rewrite !last_last. unfold at_. rewrite nth_middle. reflexivity.
    + intros _. unfold take_idx. rewrite length_map. exact Hlen.
Qed.

(** Where the test never fails, a pass removes nothing. *)
Lemma prune_scan_all_pass {A : Arith} (w : list (point A)) (h : num)
    (l : list nat) (prev : nat) :
  (forall p a b, nleb h (_point_to_segment_dist p a b) = true) ->
  snd (prune_scan w h prev l) = false.
Proof.
  intros Hpass. revert prev. induction l as [|kj l IH]; intros prev;
    [reflexivity|].
  destruct l as [|knext tl]; [reflexivity|].
  rewrite prune_scan_step, Hpass. cbn [snd]. apply IH.
Qed.

Lemma prune_waypoints_all_pass {A : Arith} (w : list (point A)) (h : num) :
  (forall p a b, nleb h (_point_to_segment_dist p a b) = true) ->
  prune_waypoints w h = Returns w.
Proof.
  intros Hpass. unfold prune_waypoints.
  destruct (length w <=? 2)%nat eqn:Hle; [reflexivity|].
  apply Nat.leb_gt in Hle.
  assert (Hne : range 1 (length w) <> [])
    by (rewrite range_cons by lia; congruence).
  assert (Hpassed : prune_pass w h (range 0 (length w))
                    = (range 0 (length w), false)).
  { rewrite (range_cons 0) by lia.
    pose proof (prune_scan_all_pass w h (range 1 (length w)) 0 Hpass) as Hc.
    rewrite (prune_pass_scan w h 0 _ Hne), Hc.
    rewrite (prune_scan_unchanged _ _ _ _ Hc).
    rewrite <- (app_removelast_last O Hne). reflexivity. }
  destruct (length w) as [|m] eqn:Em; [lia|].
  cbn [prune_loop]. rewrite Hpassed. cbn [bind].
  f_equal. unfold take_idx. rewrite <- Em. apply map_nth_range.
Qed.

(** ** The distance to a segment, in exact arithmetic *)

Lemma np_maximum_real (a b : R) :
  np_maximum (A:=real_arith) a b = Rmax a b.
Proof.
  unfold np_maximum, isnan. real_ops. rewrite Reqb_refl. cbn [negb].
  rewrite orb_false_r. unfold Rmax, Rleb.
  destruct (Rle_dec b a) as [H|H]; destruct (Rle_dec a b) as [H'|H'];
    try reflexivity; lra.
Qed.

Lemma np_clip_real (x : R) :
  let t := np_clip (A:=real_arith) x 0%R 1%R in
  (0 <= t <= 1)%R /\
  ((x < 0 /\ t = 0) \/ (0 <= x <= 1 /\ t = x) \/ (1 < x /\ t = 1))%R.
Proof.
  cbv zeta. unfold np_clip. rewrite np_maximum_real, np_minimum_real.
  unfold Rmax, Rmin.
  destruct (Rle_dec x 0); destruct (Rle_dec 0 1); destruct (Rle_dec x 1);
    split; lra.
Qed.

Lemma eps_len_pos : (0 < @eps_len real_arith)%R.
Proof. unfold eps_len. real_ops. lra. Qed.

Lemma point_to_segment_dist_nonneg (pt a b : point real_arith) :
  (0 <= _point_to_segment_dist pt a b)%R.
Proof.
  unfold _point_to_segment_dist.
  destruct (nltb (dot (psub b a) (psub b a)) eps_len); apply sqrt_pos.
Qed.

(** X2: in exact arithmetic [_point_to_segment_dist] is the distance from
    the point to the nearest point of the segment, unless the segment is
    shorter than [1e-6] (its squared length below [1e-12]), when it is the
    distance to the start of the segment. *)
Theorem point_to_segment_dist_nearest (pt a b : point real_arith) :
  let len_sq : R := dot (A:=real_arith) (psub b a) (psub b a) in
  ((len_sq < @eps_len real_arith)%R ->
   _point_to_segment_dist pt a b = dist_from a pt) /\
  ((@eps_len real_arith <= len_sq)%R ->
   (exists t, (0 <= t <= 1)%R /\
              _point_to_segment_dist pt a b = dist_from (seg_point a b t) pt) /\
   (forall s, (0 <= s <= 1)%R ->
      (_point_to_segment_dist pt a b <= dist_from (seg_point a b s) pt)%R)).
Proof.
  cbv zeta. unfold _point_to_segment_dist.
  pose proof eps_len_pos as Heps.
  destruct (nltb (dot (psub b a) (psub b a)) eps_len) eqn:Hlt.
  - apply Rltb_true in Hlt.
    split; [reflexivity|]. intros Hge. real_ops. lra.
  - apply Rltb_false in Hlt.
    split; [intros Hc; real_ops; lra|]. intros _.
    set (t0 := ndiv (dot (psub pt a) (psub b a)) (dot (psub b a) (psub b a))).
    destruct (np_clip_real t0) as (Hrange & Hcases).
    unfold zero, one. real_ops. fold t0.
    set (t := @np_clip real_arith t0 0%R 1%R) in *.
    split.
    + exists t. split; [exact Hrange|]. reflexivity.
    + intros s Hs. unfold dist_from, seg_point, norm.
      apply sqrt_le_1_alt.
      destruct pt as [x y], a as [ax ay], b as [bx b_y].
      unfold dot, psub, padd, pscale in *. cbn [px py] in *. real_ops.
      set (vx := (bx - ax)%R) in *. set (vy := (b_y - ay)%R) in *.
      set (ux := (x - ax)%R) in *. set (uy := (y - ay)%R) in *.
      set (L := (vx * vx + vy * vy)%R) in *.
      assert (HL : (0 < L)%R) by lra.
      assert (Ht0 : (t0 * L = ux * vx + uy * vy)%R).
      { unfold t0. field. lra. }
      replace (x - (ax + t * vx))%R with (ux - t * vx)%R by (unfold ux; ring).
      replace (y - (ay + t * vy))%R with (uy - t * vy)%R by (unfold uy; ring).
      replace (x - (ax + s * vx))%R with (ux - s * vx)%R by (unfold ux; ring).
      replace (y - (ay + s * vy))%R with (uy - s * vy)%R by (unfold uy; ring).
      assert (E : ((ux - s * vx) * (ux - s * vx) + (uy - s * vy) * (uy - s * vy)
                   - ((ux - t * vx) * (ux - t * vx) + (uy - t * vy) * (uy - t * vy))
                   = L * ((s - t) * (s + t - 2 * t0)))%R).
      { transitivity ((s - t) * ((s + t) * L - 2 * (t0 * L)))%R;
          [rewrite Ht0; unfold L; ring|ring]. }
      assert (Hprod : (0 <= (s - t) * (s + t - 2 * t0))%R).
      { destruct Hcases as [(Hx & Et)|[(Hx & Et)|(Hx & Et)]]; rewrite Et.
        - apply Rmult_le_pos; lra.
        - replace ((s - t0) * (s + t0 - 2 * t0))%R with ((s - t0) * (s - t0))%R
            by ring. apply Rle_0_sqr.
        - replace ((s - 1) * (s + 1 - 2 * t0))%R
            with ((1 - s) * (2 * t0 - s - 1))%R by ring.
          apply Rmult_le_pos; lra. }
      assert (HLp : (0 <= L * ((s - t) * (s + t - 2 * t0)))%R)
        by (apply Rmult_le_pos; lra).
      lra.
Qed.

(** X3: in exact arithmetic a half-width that is not positive prunes
    nothing: [prune_waypoints] returns the waypoints it was given. *)
Theorem prune_waypoints_nonpositive (w : list (point real_arith)) (h : R) :
  (h <= 0)%R -> prune_waypoints w h = Returns w.
Proof.
  intros Hh. apply prune_waypoints_all_pass. intros p a b.
  real_ops. apply Rleb_true.
  pose proof (point_to_segment_dist_nonneg p a b) as Hd. lra.
Qed.

(** X3 at three waypoints in a line and the half-width 0. *)
Lemma prune_waypoints_nonpositive_witness :
  let w : list (point real_arith) :=
    [@mkpt real_arith 0%R 0%R; @mkpt real_arith 1%R 0%R;
     @mkpt real_arith 2%R 0%R] in
  (0 <= 0)%R /\ prune_waypoints w 0%R = Returns w.
Proof.
  cbv zeta. split; [lra|]. apply prune_waypoints_nonpositive. lra.
Defined.

(** ** Path lengths in exact arithmetic *)

Lemma sqrt_sum_sq_triangle (a b c d : R) :
  (R_sqrt.sqrt ((a + c) * (a + c) + (b + d) * (b + d))
   <= R_sqrt.sqrt (a * a + b * b) + R_sqrt.sqrt (c * c + d * d))%R.
Proof.
  set (u := R_sqrt.sqrt (a * a + b * b)). set (v := R_sqrt.sqrt (c * c + d * d)).
  assert (Hu : (0 <= u)%R) by apply sqrt_pos.
  assert (Hv : (0 <= v)%R) by apply sqrt_pos.
  assert (Hu2 : (u * u = a * a + b * b)%R) by (apply sqrt_sqrt; nra).
  assert (Hv2 : (v * v = c * c + d * d)%R) by (apply sqrt_sqrt; nra).
  rewrite <- (sqrt_square (u + v)) by lra.
  apply sqrt_le_1_alt.
  assert (Hcs : (a * c + b * d <= u * v)%R).
  { assert (Huv : (0 <= u * v)%R) by (apply Rmult_le_pos; assumption).
    destruct (Rle_lt_dec (a * c + b * d) 0) as [Hneg|Hpos]; [lra|].
    apply Rnot_lt_le. intros Hlt.
    assert (H1 : ((u * v) * (u * v) < (a * c + b * d) * (a * c + b * d))%R)
      by (apply Rmult_le_0_lt_compat; [exact Huv|exact Huv|exact Hlt|exact Hlt]).
    assert (H2 : ((u * v) * (u * v) = (a * a + b * b) * (c * c + d * d))%R)
      by (rewrite <- Hu2, <- Hv2; ring).
    pose proof (Rle_0_sqr (a * d - b * c)) as H3. unfold Rsqr in H3.
    assert (H4 : ((a * a + b * b) * (c * c + d * d)
                  = (a * c + b * d) * (a * c + b * d)
                    + (a * d - b * c) * (a * d - b * c))%R) by ring.
    lra. }
  replace ((u + v) * (u + v))%R with (u * u + v * v + 2 * (u * v))%R by ring.
  rewrite Hu2, Hv2. lra.
Qed.

Lemma dist_from_triangle (p q r : point real_arith) :
  (dist_from p r <= dist_from p q + dist_from q r)%R.
Proof.
  unfold dist_from, norm, psub. cbn [px py]. real_ops.
  replace (px r - px p)%R with ((px q - px p) + (px r - px q))%R by ring.
  replace (py r - py p)%R with ((py q - py p) + (py r - py q))%R by ring.
  apply sqrt_sum_sq_triangle.
Qed.

Lemma plen_nonneg (l : list (point real_arith)) : (0 <= plen l)%R.
Proof.
  induction l as [|p l IH]; [simpl; lra|].
  destruct l as [|q tl]; [simpl; lra|].
  change (plen (p :: q :: tl)) with (dist_from p q + plen (q :: tl))%R.
  pose proof (dist_from_nonneg p q). lra.
Qed.

Lemma plen_cons_le (x : point real_arith) (l : list (point real_arith)) :
  (plen l <= plen (x :: l))%R.
Proof.
  destruct l as [|q tl]; [simpl; lra|].
  change (plen (x :: q :: tl)) with (dist_from x q + plen (q :: tl))%R.
  pose proof (dist_from_nonneg x q). lra.
Qed.

Lemma plen_skip (x y : point real_arith) (l : list (point real_arith)) :
  (plen (x :: l) <= plen (x :: y :: l))%R.
Proof.
  change (plen (x :: y :: l)) with (dist_from x y + plen (y :: l))%R.
  destruct l as [|z tl].
  - simpl. pose proof (dist_from_nonneg x y). lra.
  - change (plen (x :: z :: tl)) with (dist_from x z + plen (z :: tl))%R.
    change (plen (y :: z :: tl)) with (dist_from y z + plen (z :: tl))%R.
    pose proof (dist_from_triangle x y z). lra.
Qed.

Lemma plen_subseq_cons (s l : list (point real_arith)) :
  subseq s l -> forall x, (plen (x :: s) <= plen (x :: l))%R.
Proof.
  induction 1 as [|y s l _ IH|y s l _ IH]; intros x.
  - lra.
  - change (plen (x :: y :: s)) with (dist_from x y + plen (y :: s))%R.
    change (plen (x :: y :: l)) with (dist_from x y + plen (y :: l))%R.
    specialize (IH y). lra.
  - specialize (IH x). pose proof (plen_skip x y l). lra.
Qed.

Lemma plen_subseq (s l : list (point real_arith)) :
  subseq s l -> (plen s <= plen l)%R.
Proof.
  induction 1 as [|y s l Hs IH|y s l _ IH].
  - lra.
  - apply plen_subseq_cons. exact Hs.
  - pose proof (plen_cons_le y l). lra.
Qed.

Lemma last_cons_indep {T : Type} (l : list T) (q d d' : T) :
  last (q :: l) d = last (q :: l) d'.
Proof.
  revert q. induction l as [|z l IH]; intros q; [reflexivity|].
  change (last (z :: l) d = last (z :: l) d'). apply IH.
Qed.

Lemma last_cons_default {T : Type} (l : list T) (q d : T) :
  last (q :: l) d = last l q.
Proof.
  destruct l as [|z l]; [reflexivity|].
  change (last (z :: l) d = last (z :: l) q). apply last_cons_indep.
Qed.

(** The straight line is the shortest path. *)
Lemma plen_straight (l : list (point real_arith)) (p : point real_arith) :
  (dist_from p (last l p) <= plen (p :: l))%R.
Proof.
  revert p. induction l as [|q l IH]; intros p.
  - simpl. unfold dist_from, norm, psub. cbn [px py]. real_ops.
    replace (px p - px p)%R with 0%R by ring.
    replace (py p - py p)%R with 0%R by ring.
    rewrite Rmult_0_l, Rplus_0_l, sqrt_0. lra.
  - change (plen (p :: q :: l)) with (dist_from p q + plen (q :: l))%R.
    specialize (IH q).
    rewrite (last_cons_default l q p).
    pose proof (dist_from_triangle p q (last l q)). lra.
Qed.

(** X4: in exact arithmetic [path_distance] is never less than the
    straight-line distance from the first point of the path to the last,
    which is not negative. *)
Theorem path_distance_at_least_straight (p : point real_arith)
    (l : list (point real_arith)) :
  (0 <= dist_from p (last l p) <= path_distance (p :: l))%R.
Proof.
  rewrite path_distance_plen. split.
  - apply dist_from_nonneg.
  - apply plen_straight.
Qed.

(** X5: in exact arithmetic the length of a path does not depend on the
    direction it is walked in, and the lengths of the two parts of a path
    cut at one of its points add up to the length of the path. *)
Theorem path_distance_rev_split :
  (forall l : list (point real_arith),
      path_distance (rev l) = path_distance l) /\
  (forall (l1 l2 : list (point real_arith)) (x : point real_arith),
      path_distance (l1 ++ x :: l2)
      = (path_distance (l1 ++ [x]) + path_distance (x :: l2))%R).
Proof.
  split.
  - intros l. rewrite !path_distance_plen. apply plen_rev.
  - intros l1 l2 x. rewrite !path_distance_plen. apply plen_shared.
Qed.

(** X6: in exact arithmetic pruning never lengthens the path through the
    waypoints. *)
Theorem prune_waypoints_not_longer (w : list (point real_arith)) (h : R) :
  exists out,
    prune_waypoints w h = Returns out /\
    (path_distance out <= path_distance w)%R.
Proof.
  destruct (prune_waypoints_shape w h) as (out & Hrun & Hsub & _).
  exists out. split; [exact Hrun|].
  rewrite !path_distance_plen. apply plen_subseq. exact Hsub.
Qed.

(** ** More on smoothing, in exact arithmetic *)

Lemma subseq_flat_map {T U : Type} (g : T -> U) (f : T -> list U) (l : list T) :
  (forall x, In x l -> subseq [g x] (f x)) ->
  subseq (map g l) (flat_map f l).
Proof.
  induction l as [|x l IH]; intros H; [constructor|].
  cbn [map flat_map].
  apply (subseq_app [g x] (map g l) (f x) (flat_map f l)).
  - apply H. left. reflexivity.
  - apply IH. intros y Hy. apply H. right. exact Hy.
Qed.

(** The waypoints are among the points of the smoothed path, in their
    order. *)
Lemma smooth_path_through (w : list (point real_arith)) (k : nat) :
  1 <= k -> subseq w (smooth_path w k).
Proof.
  intros Hk. destruct (Nat.lt_ge_cases (length w) 2) as [Hlt|Hge].
  - unfold smooth_path. destruct (Nat.ltb_spec (length w) 2); [|lia].
    apply subseq_refl.
  - rewrite (smooth_path_segments w k Hge).
    replace (seq 0 (length w - 1)) with (range 0 (length w - 1))
      by (unfold range; rewrite Nat.sub_0_r; reflexivity).
    rewrite <- (map_nth_range w origin) at 1.
    replace (length w) with (S (length w - 1)) at 1 by lia.
    rewrite range_snoc by lia. rewrite map_app.
    apply subseq_app; [|apply subseq_refl].
    apply (subseq_flat_map (at_ w) (segment_samples w k)).
    intros s _. unfold segment_samples.
    destruct k as [|k]; [lia|]. cbn [seq map].
    rewrite catmull_rom_at_0. apply subseq_keep. apply subseq_nil_l.
Qed.

(** X7: in exact arithmetic, with at least one sample a segment, the
    smoothed path is never shorter than the path through the waypoints. *)
Theorem smooth_path_not_shorter (w : list (point real_arith)) (k : nat) :
  1 <= k ->
  (path_distance w <= path_distance (smooth_path w k))%R.
Proof.
  intros Hk. rewrite !path_distance_plen.
  apply plen_subseq. apply smooth_path_through. exact Hk.
Qed.

(** X7 at three waypoints and 20 samples a segment. *)
Lemma smooth_path_not_shorter_witness :
  let w : list (point real_arith) :=
    [@mkpt real_arith 0%R 0%R; @mkpt real_arith 1%R 0%R;
     @mkpt real_arith 1%R 1%R] in
  1 <= 20 /\ (path_distance w <= path_distance (smooth_path w 20))%R.
Proof.
  cbv zeta. split; [lia|]. apply smooth_path_not_shorter. lia.
Defined.

(** The Catmull-Rom formula between two waypoints that have no others
    around them. *)
Lemma catmull_rom_two (a b : point real_arith) (t : R) :
  catmull_rom (A:=real_arith) a a b b t
  = seg_point a b (ease t).
Proof.
  destruct a as [ax ay], b as [bx b_y].
  unfold ease, catmull_rom, seg_point, pscale, padd, psub, pneg, ptimes, half.
  cbn [px py]. real_ops. f_equal; field.
Qed.

Lemma ease_range (t : R) : (0 <= t <= 1)%R -> (0 <= ease t <= 1)%R.
Proof.
  intros Ht. unfold ease.
  assert (H2 : (0 <= t * t)%R) by (apply Rmult_le_pos; lra).
  assert (H3 : (0 <= t * t * (3 - 2 * t))%R) by (apply Rmult_le_pos; lra).
  assert (H4 : (0 <= t * (1 - t))%R) by (apply Rmult_le_pos; lra).
  assert (H5 : (0 <= (1 - t) * (2 + t - 2 * (t * t)))%R)
    by (apply Rmult_le_pos; lra).
  split; lra.
Qed.

Lemma ease_mono (t t' : R) :
  (0 <= t)%R -> (t <= t')%R -> (t' <= 1)%R -> (ease t <= ease t')%R.
Proof.
  intros H0 Hle H1. unfold ease.
  assert (E : ((t' + 3 * (t' * t') - 2 * (t' * t' * t'))
               - (t + 3 * (t * t) - 2 * (t * t * t))
               = (t' - t) * (1 + 3 * (t + t')
                             - 2 * (t * t + t * t' + t' * t')))%R) by ring.
  assert (Ha : (0 <= t * (1 - t))%R) by (apply Rmult_le_pos; lra).
  assert (Hb : (0 <= t' * (1 - t'))%R) by (apply Rmult_le_pos; lra).
  assert (Hc : (0 <= t * (1 - t'))%R) by (apply Rmult_le_pos; lra).
  assert (Hd : (0 <= (t' - t) * (1 + 3 * (t + t')
                                 - 2 * (t * t + t * t' + t' * t')))%R)
    by (apply Rmult_le_pos; lra).
  lra.
Qed.

Lemma dist_from_seg_point (a b : point real_arith) (s s' : R) :
  (s <= s')%R ->
  dist_from (seg_point a b s) (seg_point a b s')
  = ((s' - s) * dist_from a b)%R.
Proof.
  intros Hs. destruct a as [ax ay], b as [bx b_y].
  unfold dist_from, norm, seg_point, padd, pscale, psub. cbn [px py]. real_ops.
  replace ((ax + s' * (bx - ax) - (ax + s * (bx - ax)))
           * (ax + s' * (bx - ax) - (ax + s * (bx - ax)))
           + (ay + s' * (b_y - ay) - (ay + s * (b_y - ay)))
             * (ay + s' * (b_y - ay) - (ay + s * (b_y - ay))))%R
    with (((s' - s) * (s' - s))
          * ((bx - ax) * (bx - ax) + (b_y - ay) * (b_y - ay)))%R by ring.
  rewrite sqrt_mult_alt by (apply Rle_0_sqr).
  rewrite sqrt_square by lra. reflexivity.
Qed.

(** The length of a path that runs along the segment without turning
    back. *)
Lemma plen_along_segment (a b : point real_arith) (ss : list R) (s0 : R) :
  (forall i, i + 1 < length (s0 :: ss) ->
     (nth i (s0 :: ss) 0 <= nth (i + 1) (s0 :: ss) 0)%R) ->
  plen (map (seg_point a b) (s0 :: ss))
  = ((last ss s0 - s0) * dist_from a b)%R.
Proof.
  revert s0. induction ss as [|s1 ss IH]; intros s0 Hsorted.
  - simpl. lra.
  - change (plen (map (seg_point a b) (s0 :: s1 :: ss)))
      with (dist_from (seg_point a b s0) (seg_point a b s1)
            + plen (map (seg_point a b) (s1 :: ss)))%R.
    rewrite IH.
    + rewrite dist_from_seg_point by (apply (Hsorted 0); simpl; lia).
      rewrite (last_cons_default ss s1 s0). lra.
    + intros i Hi. apply (Hsorted (S i)). simpl in *. lia.
Qed.

(** X8: in exact arithmetic the smoothed path of two waypoints runs on the
    straight segment between them, and with at least one sample it is as
    long as the segment. *)
Theorem smooth_path_two_straight (a b : point real_arith) (k : nat) :
  Forall (fun p => exists s, (0 <= s <= 1)%R /\ p = seg_point a b s)
         (smooth_path [a; b] k) /\
  (1 <= k -> path_distance (smooth_path [a; b] k) = dist_from a b).
Proof.
  assert (Hb : b = seg_point a b 1).
  { destruct a as [ax ay], b as [bx b_y].
    unfold seg_point, padd, pscale, psub. cbn [px py]. real_ops.
    f_equal; ring. }
  assert (Hpath : smooth_path [a; b] k
                  = map (seg_point a b)
                        (map (fun i => ease (INR i / INR k)) (seq 0 k) ++ [1%R])).
  { rewrite smooth_path_segments by (simpl; lia).
    cbn [length Nat.sub seq flat_map]. rewrite app_nil_r.
    rewrite map_app, map_map. cbn [map]. f_equal; [|f_equal; exact Hb].
    unfold segment_samples. apply map_ext. intros i.
    cbn [at_ nth Nat.sub Nat.add Nat.min length].
    rewrite catmull_rom_two. unfold ease, of_nat. real_ops.
    rewrite <- !INR_IZR_INZ. reflexivity. }
  assert (Hfrac : forall i, i < k -> (0 <= INR i / INR k < 1)%R).
  { intros i Hi.
    assert (Hk : (0 < INR k)%R) by (apply lt_0_INR; lia).
    assert (Hik : (INR i < INR k)%R) by (apply lt_INR; lia).
    pose proof (pos_INR i) as Hi0. split.
    - apply Rmult_le_pos; [exact Hi0|]. left. apply Rinv_0_lt_compat. exact Hk.
    - apply (Rmult_lt_reg_r (INR k)); [exact Hk|].
      unfold Rdiv. rewrite Rmult_assoc, Rinv_l by lra. lra. }
  split.
  - rewrite Hpath. apply Forall_forall. intros p Hp.
    apply in_map_iff in Hp. destruct Hp as (s & <- & Hs).
    exists s. split; [|reflexivity].
    apply in_app_or in Hs. destruct Hs as [Hs|[<-|[]]]; [|lra].
    apply in_map_iff in Hs. destruct Hs as (i & <- & Hi). apply in_seq in Hi.
    apply ease_range. specialize (Hfrac i ltac:(lia)). lra.
  - intros Hk. rewrite path_distance_plen, Hpath.
    destruct k as [|k]; [lia|].
    set (ps := fun i => ease (INR i / INR (S k))).
    change (map ps (seq 0 (S k)) ++ [1%R])
      with (ps 0 :: (map ps (seq 1 k) ++ [1%R])).
    rewrite plen_along_segment.
    + rewrite last_last. unfold ps, ease. replace (INR 0) with 0%R by reflexivity.
      unfold Rdiv. rewrite !Rmult_0_l. lra.
    + intros i Hi.
      change (ps 0 :: (map ps (seq 1 k) ++ [1%R]))
        with (map ps (seq 0 (S k)) ++ [1%R]).
      cbn [length] in Hi. rewrite length_app, length_map, length_seq in Hi.
      cbn [length] in Hi.
      assert (Hnth : forall j, j < S k ->
                nth j (map ps (seq 0 (S k)) ++ [1%R]) 0%R = ps j).
      { intros j Hj. rewrite app_nth1 by (rewrite length_map, length_seq; lia).
        rewrite (nth_map_in ps (seq 0 (S k)) j 0 0%R)
          by (rewrite length_seq; lia).
        rewrite seq_nth by lia. reflexivity. }
      rewrite (Hnth i) by lia.
      destruct (Nat.eq_dec (i + 1) (S k)) as [E|E].
      * rewrite app_nth2 by (rewrite length_map, length_seq; lia).
        rewrite length_map, length_seq, E, Nat.sub_diag. cbn [nth].
        apply ease_range. specialize (Hfrac i ltac:(lia)). lra.
      * rewrite (Hnth (i + 1)) by lia. unfold ps.
        pose proof (Hfrac i ltac:(lia)) as H1.
        pose proof (Hfrac (i + 1) ltac:(lia)) as H2.
        apply ease_mono; try lra.
        rewrite plus_INR. simpl (INR 1). unfold Rdiv.
        assert (Hk' : (0 < / INR (S k))%R)
          by (apply Rinv_0_lt_compat, lt_0_INR; lia).
        nra.
Qed.

(** ** What 2-opt leaves *)

(** X9: whenever [two_opt_improve] returns, in any arithmetic, no pair of
    edges of the tour returned passes the test [d_new < d_old - 1e-10] (for
    a tour of four points or more), and [two_opt_improve] returns that
    tour unchanged, whatever the number of sweeps allowed. *)
Theorem two_opt_improve_local_optimum {A : Arith} (fuel : nat)
    (tour out : list (point A)) :
  two_opt_improve fuel tour = Returns out ->
  (4 <= length tour -> ~ has_improving_swap out) /\
  (forall fuel', 1 <= fuel' -> two_opt_improve fuel' out = Returns out).
Proof.
  unfold two_opt_improve.
  destruct (Nat.ltb_spec (length tour) 4) as [Hlt|Hge].
  - intros E. injection E as <-. split; [lia|].
    intros fuel' _. destruct (Nat.ltb_spec (length tour) 4); [reflexivity|lia].
  - intros Hrun. apply two_opt_loop_permutation in Hrun.
    destruct Hrun as (Hp & _ & Hno). split; [intros _; exact Hno|].
    intros fuel' Hfuel. rewrite <- (Permutation_length Hp).
    destruct (Nat.ltb_spec (length tour) 4); [lia|].
    destruct fuel' as [|fuel']; [lia|]. cbn [two_opt_loop].
    rewrite (Permutation_length Hp).
    pose proof (proj2 (two_opt_sweep_fixed out) Hno) as Hs.
    pose proof (two_opt_sweep_unchanged out Hs) as Hu.
    destruct (two_opt_sweep (length out) out) as [t' b].
    cbn [fst snd] in *. subst. reflexivity.
Qed.

(** X9 at six points on a line, in binary64. *)
Lemma two_opt_improve_local_optimum_witness :
  let tour : list (point float_arith) :=
    [mkpt 0%float 0%float; mkpt 2%float 0%float; mkpt 1%float 0%float;
     mkpt 3%float 0%float; mkpt 5%float 0%float; mkpt 4%float 0%float] in
  let out : list (point float_arith) :=
    [mkpt 0%float 0%float; mkpt 1%float 0%float; mkpt 2%float 0%float;
     mkpt 3%float 0%float; mkpt 4%float 0%float; mkpt 5%float 0%float] in
  two_opt_improve 5 tour = Returns out /\
  (4 <= length tour -> ~ has_improving_swap out) /\
  (forall fuel', 1 <= fuel' -> two_opt_improve fuel' out = Returns out).
Proof.
  cbv zeta. split; [vm_compute; reflexivity|].
  apply (two_opt_improve_local_optimum 5). vm_compute. reflexivity.
Defined.

(** ** The flood fill of [find_nearest_cluster] *)

Section FloodFacts.

Context {A : Arith} {Pw : Pow A}.
Variable balls : list (point A).
Variable radius : num.

Local Abbreviation n := (length balls).
Local Abbreviation near := (near balls radius).
Local Abbreviation chain := (chain balls radius).
Local Abbreviation bfs_inv := (bfs_inv balls radius).

(** The loop of [find_nearest_cluster] is the loop of [find_all_clusters]
    run with one mask for [visited] and [in_cluster]. *)
Lemma flood_visit_bfs (curr : nat) (l : list nat) (mask : list bool)
    (q : list nat) :
  fold_left (bfs_visit balls radius curr) l (mkbfs mask mask q)
  = mkbfs (fst (fold_left (flood_visit balls radius curr) l (mask, q)))
          (fst (fold_left (flood_visit balls radius curr) l (mask, q)))
          (snd (fold_left (flood_visit balls radius curr) l (mask, q))).
Proof.
  revert mask q. induction l as [|i l IH]; intros mask q; [reflexivity|].
  cbn [fold_left].
  assert (Hstep : bfs_visit balls radius curr (mkbfs mask mask q) i
                  = mkbfs (fst (flood_visit balls radius curr (mask, q) i))
                          (fst (flood_visit balls radius curr (mask, q) i))
                          (snd (flood_visit balls radius curr (mask, q) i))).
  { unfold bfs_visit, flood_visit. cbn [visited in_cluster queue].
    destruct (negb (nth i mask false) && nleb (ball_dist balls curr i) radius);
      reflexivity. }
  rewrite Hstep.
  destruct (flood_visit balls radius curr (mask, q) i) as [mask' q'].
  apply IH.
Qed.

Lemma flood_loop_bfs (fuel : nat) (mask : list bool) (q : list nat) :
  flood_loop fuel balls radius (mask, q)
  = let* st := bfs_loop fuel balls radius (mkbfs mask mask q) in
    Returns (in_cluster st).
Proof.
  revert mask q. induction fuel as [|fuel IH]; intros mask q.
  - destruct q; reflexivity.
  - destruct q as [|curr rest]; [reflexivity|].
    cbn [flood_loop bfs_loop fst snd queue visited in_cluster].
    rewrite flood_visit_bfs.
    destruct (fold_left (flood_visit balls radius curr) (range 0 (length balls))
                        (mask, rest)) as [mask' q'].
    cbn [fst snd]. apply IH.
Qed.

Lemma bfs_inv_start (seed : nat) :
  seed < n ->
  bfs_inv (repeat false n) seed
    (mkbfs (set_at (repeat false n) seed true)
           (set_at (repeat false n) seed true) [seed]).
Proof.
  intros Hseed.
  assert (Hrep : forall i, ~ isset (repeat false (length balls)) i).
  { intros i. unfold isset. rewrite nth_repeat_false. discriminate. }
  assert (Hset : forall i, isset (set_at (repeat false n) seed true) i
                           <-> i = seed).
  { intros i. rewrite isset_set_at by (rewrite repeat_length; exact Hseed).
    split; [intros [E|H]; [exact E|destruct (Hrep i H)]|auto]. }
  unfold bfs_inv. cbn [visited in_cluster queue].
  rewrite !set_at_length, repeat_length.
  split; [reflexivity|]. split; [reflexivity|].
  split; [|split; [|split; [|split; [|split]]]].
  - intros q [<-|[]]. apply Hset. reflexivity.
  - intros i _. apply Hrep.
  - intros i. split; [auto|]. intros [H|H]; [destruct (Hrep i H)|exact H].
  - apply Hset. reflexivity.
  - intros i Hi. apply Hset in Hi. subst i. apply rt_refl.
  - intros i Hi Hnq. apply Hset in Hi. subst i.
    exfalso. apply Hnq. left. reflexivity.
Qed.

(** The flood fill from [seed] returns the mask of the balls that chains
    from [seed] reach. *)
Lemma flood_loop_reach (seed : nat) :
  seed < n ->
  exists mask,
    flood_loop (2 * n + 1) balls radius
               (set_at (repeat false n) seed true, [seed]) = Returns mask /\
    length mask = n /\
    forall i, isset mask i <-> chain seed i.
Proof.
  intros Hseed. rewrite flood_loop_bfs.
  destruct (bfs_loop_spec balls radius (repeat false n) seed (2 * n + 1) _
              (bfs_inv_start seed Hseed)) as (st' & -> & Hinv & Hq).
  { cbn [queue visited length].
    pose proof (unset_count_le (set_at (repeat false n) seed true)) as Hle.
    rewrite set_at_length, repeat_length in Hle. lia. }
  cbn [bind]. exists (in_cluster st'). split; [reflexivity|].
  destruct Hinv as (_ & HC & _ & _ & Hvis & Hs & Hchain & Hexp).
  split; [exact HC|]. intros i. split; [apply Hchain|].
  rewrite Hq in Hexp. intros Hch.
  enough (Hclosed : forall x y, chain x y ->
            isset (in_cluster st') x -> isset (in_cluster st') y)
    by (apply (Hclosed seed i Hch Hs)).
  clear i Hch.
  induction 1 as [x y (Hx & Hy & Hn)|x|x y z _ IH1 _ IH2]; intros Hin.
  - specialize (Hexp x Hin (fun H => H) y Hy Hn).
    apply Hvis in Hexp. destruct Hexp as [H0|H1]; [|exact H1].
    unfold isset in H0. rewrite nth_repeat_false in H0. discriminate.
  - exact Hin.
  - auto.
Qed.

End FloodFacts.

Lemma take_mask_subseq {A : Arith} (pts : list (point A)) (mask : list bool) :
  subseq (take_mask pts mask) pts.
Proof.
  assert (Hnil : forall l : list (point A), subseq [] l)
    by (induction l; constructor; assumption).
  revert mask. induction pts as [|p pts IH]; intros [|b mask];
    cbn [take_mask]; try apply Hnil.
  destruct b; [apply subseq_keep|apply subseq_drop]; apply IH.
Qed.

Lemma chain_lt {A : Arith} (balls : list (point A)) (radius : num) (i j : nat) :
  chain balls radius i j -> i < length balls -> j < length balls.
Proof.
  induction 1 as [x y (_ & Hy & _)| |x y z _ IH1 _ IH2]; auto.
Qed.

(** What [find_nearest_cluster] computes, in any arithmetic. *)
Lemma find_nearest_cluster_spec {A : Arith} (balls : list (point A))
    (robot_pos : point A) (radius : num) :
  balls <> [] ->
  exists seed mask,
    argmin (map (fun b => norm (psub b robot_pos)) balls) = Returns seed /\
    seed < length balls /\
    length mask = length balls /\
    (forall i, isset mask i <-> chain balls radius seed i) /\
    find_nearest_cluster balls robot_pos radius
    = Returns (take_mask balls mask).
Proof.
  intros Hne. unfold find_nearest_cluster.
  destruct (length balls =? 0)%nat eqn:Hz.
  { apply Nat.eqb_eq in Hz. destruct balls; [congruence|discriminate]. }
  destruct (argmin_returns (map (fun b => norm (psub b robot_pos)) balls))
    as (seed & Hseed & Hlt).
  { destruct balls; [congruence|discriminate]. }
  rewrite length_map in Hlt.
  destruct (flood_loop_reach balls radius seed Hlt) as (mask & Hrun & Hlen & Hmask).
  exists seed, mask. rewrite Hseed. cbn [bind]. rewrite Hrun. cbn [bind].
  repeat split; try assumption; apply Hmask.
Qed.

(** X10: for a non-empty list of balls [find_nearest_cluster] returns, in
    any arithmetic, the balls that chains of balls, each within [radius] of
    the one before, reach from the seed, the ball [np.argmin] finds nearest
    the robot; they are returned in the order of the input, each once, and
    the seed is one of them. *)
Theorem find_nearest_cluster_reach {A : Arith} (balls : list (point A))
    (robot_pos : point A) (radius : num) :
  balls <> [] ->
  exists seed idxs,
    argmin (map (fun b => norm (psub b robot_pos)) balls) = Returns seed /\
    find_nearest_cluster balls robot_pos radius
    = Returns (take_idx balls idxs) /\
    (forall i, In i idxs <-> chain balls radius seed i) /\
    In seed idxs /\ NoDup idxs /\
    subseq (take_idx balls idxs) balls.
Proof.
  intros Hne.
  destruct (find_nearest_cluster_spec balls robot_pos radius Hne)
    as (seed & mask & Hseed & Hlt & Hlen & Hmask & Hrun).
  exists seed, (mask_indices mask).
  rewrite <- take_mask_indices by lia.
  split; [exact Hseed|]. split; [exact Hrun|].
  split; [|split; [|split]].
  - intros i. rewrite in_mask_indices. apply Hmask.
  - apply in_mask_indices. apply Hmask. apply rt_refl.
  - apply mask_indices_from_NoDup.
  - apply take_mask_subseq.
Qed.

(** X10 at three balls, in binary64. *)
Lemma find_nearest_cluster_reach_witness :
  let balls : list (point float_arith) :=
    [mkpt 5%float 5%float; mkpt 1%float 1%float; mkpt 2%float 1%float] in
  balls <> [] /\
  exists seed idxs,
    argmin (map (fun b => norm (psub b (mkpt 0%float 0%float))) balls)
    = Returns seed /\
    find_nearest_cluster balls (mkpt 0%float 0%float) 1.5%float
    = Returns (take_idx balls idxs) /\
    (forall i, In i idxs <-> chain balls 1.5%float seed i) /\
    In seed idxs /\ NoDup idxs /\
    subseq (take_idx balls idxs) balls.
Proof.
  cbv zeta. split; [discriminate|].
  apply find_nearest_cluster_reach. discriminate.
Defined.

(** X11: in exact arithmetic the cluster [find_nearest_cluster] returns
    for a non-empty list of balls holds a ball that no ball is nearer the
    robot than, and holds balls of the list only. *)
Theorem find_nearest_cluster_has_nearest (balls : list (point real_arith))
    (robot_pos : point real_arith) (radius : R) :
  balls <> [] ->
  exists out p,
    find_nearest_cluster balls robot_pos radius = Returns out /\
    In p out /\
    (forall q, In q out -> In q balls) /\
    forall q, In q balls -> (dist_from robot_pos p <= dist_from robot_pos q)%R.
Proof.
  intros Hne.
  destruct (find_nearest_cluster_spec balls robot_pos radius Hne)
    as (seed & mask & Hseed & Hlt & Hlen & Hmask & Hrun).
  exists (take_mask balls mask), (at_ balls seed).
  split; [exact Hrun|]. split; [|split].
  - rewrite take_mask_indices by lia. unfold take_idx. apply in_map.
    apply in_mask_indices. apply Hmask. apply rt_refl.
  - intros q Hq. eapply subseq_In; [apply take_mask_subseq|exact Hq].
  - change (argmin (A:=real_arith) (map (dist_from robot_pos) balls)
            = Returns seed) in Hseed.
    destruct (argmin_real (map (dist_from robot_pos) balls))
      as (k & Hk & _ & Hmin & _).
    { destruct balls; [congruence|discriminate]. }
    rewrite Hk in Hseed. injection Hseed as ->.
    intros q Hq. specialize (Hmin (dist_from robot_pos q) (in_map _ _ _ Hq)).
    rewrite (nth_map_in (dist_from robot_pos) balls seed origin 0%R Hlt) in Hmin.
    exact Hmin.
Qed.


(** X11 at two balls. *)
Lemma find_nearest_cluster_has_nearest_witness :
  let balls : list (point real_arith) :=
    [@mkpt real_arith 2%R 4%R; @mkpt real_arith 6%R 4%R] in
  let robot_pos : point real_arith := @mkpt real_arith 1%R 4%R in
  balls <> [] /\
  exists out p,
    find_nearest_cluster balls robot_pos (3 / 2)%R = Returns out /\
    In p out /\
    (forall q, In q out -> In q balls) /\
    forall q, In q balls -> (dist_from robot_pos p <= dist_from robot_pos q)%R.
Proof.
  cbv zeta. split; [discriminate|].
  apply find_nearest_cluster_has_nearest. discriminate.
Defined.

Lemma NoDup_app_disjoint {T : Type} (l l' : list T) (x : T) :
  NoDup (l ++ l') -> In x l -> In x l' -> False.
Proof.
  intros Hnd Hl Hl'. apply in_split in Hl'. destruct Hl' as (l1 & l2 & ->).
  rewrite app_assoc in Hnd. apply NoDup_remove_2 in Hnd. apply Hnd.
  apply in_or_app. left. apply in_or_app. left. exact Hl.
Qed.

Lemma NoDup_concat_unique {T : Type} (ls : list (list T)) (c c' : list T) (x : T) :
  NoDup (concat ls) -> In c ls -> In c' ls -> In x c -> In x c' -> c = c'.
Proof.
  induction ls as [|l ls IH]; intros Hnd Hc Hc' Hx Hx'; [destruct Hc|].
  cbn [concat] in Hnd.
  assert (Hdisj : forall d, In d ls -> In x d -> In x l -> False).
  { intros d Hd Hxd Hxl. apply (NoDup_app_disjoint _ _ x Hnd Hxl).
    apply in_concat. exists d. auto. }
  destruct Hc as [->|Hc]; destruct Hc' as [->|Hc'].
  - reflexivity.
  - destruct (Hdisj c' Hc' Hx' Hx).
  - destruct (Hdisj c Hc Hx Hx').
  - apply IH; auto. apply NoDup_app_remove_l in Hnd. exact Hnd.
Qed.

Lemma NoDup_concat_in {T : Type} (ls : list (list T)) (c : list T) :
  NoDup (concat ls) -> In c ls -> NoDup c.
Proof.
  induction ls as [|l ls IH]; intros Hnd Hc; [destruct Hc|].
  cbn [concat] in Hnd. destruct Hc as [->|Hc].
  - apply NoDup_app_remove_r in Hnd. exact Hnd.
  - apply IH; [|exact Hc]. apply NoDup_app_remove_l in Hnd. exact Hnd.
Qed.

Section NearestAmongAll.

Context {A : Arith} {Pw : Pow A}.
Variable balls : list (point A).
Variable radius : num.
Hypothesis near_sym : forall i j, i < length balls -> j < length balls ->
  near balls radius i j = near balls radius j i.

Lemma find_nearest_cluster_among_all (robot_pos : point A) :
  balls <> [] ->
  exists out clusters c,
    find_nearest_cluster balls robot_pos radius = Returns out /\
    find_all_clusters balls radius = Returns clusters /\
    In c clusters /\ Permutation c out.
Proof.
  intros Hne.
  destruct (find_nearest_cluster_spec balls robot_pos radius Hne)
    as (seed & mask & _ & Hlt & Hlen & Hmask & Hrun).
  destruct (find_all_clusters_indices balls radius near_sym)
    as (clusters & idxs & Hall & Hcl & _ & Hperm & Hchain & _).
  assert (Hnd : NoDup (concat idxs)).
  { apply (Permutation_NoDup (Permutation_sym Hperm)). apply seq_NoDup. }
  assert (Hin : forall i, In i (concat idxs) <-> i < length balls).
  { intros i. split.
    - intros Hi. apply (Permutation_in _ Hperm), in_range in Hi. lia.
    - intros Hi. apply (Permutation_in _ (Permutation_sym Hperm)).
      apply in_range. lia. }
  pose proof (proj2 (Hin seed) Hlt) as Hs. apply in_concat in Hs.
  destruct Hs as (ic & Hic & Hseed).
  exists (take_mask balls mask), clusters, (take_idx balls ic).
  split; [exact Hrun|]. split; [exact Hall|]. split.
  - rewrite Hcl. apply in_map. exact Hic.
  - rewrite take_mask_indices by lia. apply Permutation_map.
    apply NoDup_Permutation.
    + apply (NoDup_concat_in idxs); assumption.
    + apply mask_indices_from_NoDup.
    + intros i. rewrite in_mask_indices. fold (isset mask i). rewrite Hmask.
      split.
      * intros Hi. apply Hchain; [exact Hlt| |exists ic; auto].
        apply Hin. apply in_concat. exists ic. auto.
      * intros Hch. pose proof (chain_lt balls radius seed i Hch Hlt) as Hi.
        apply (Hchain seed i Hlt Hi) in Hch.
        destruct Hch as (c' & Hc' & Hsc' & Hic').
        rewrite (NoDup_concat_unique idxs ic c' seed Hnd Hic Hc' Hseed Hsc').
        exact Hic'.
Qed.

End NearestAmongAll.

(** X12: what [find_nearest_cluster] returns for a non-empty list of
    balls is, up to the order of the balls, one of the clusters that
    [find_all_clusters] returns for the same balls and radius; in exact
    arithmetic and in binary64. *)
Theorem find_nearest_cluster_is_a_cluster :
  (forall (balls : list (point real_arith)) (robot_pos : point real_arith)
          (radius : R),
      balls <> [] ->
      exists out clusters c,
        find_nearest_cluster balls robot_pos radius = Returns out /\
        find_all_clusters balls radius = Returns clusters /\
        In c clusters /\ Permutation c out) /\
  (forall (balls : list (point float_arith)) (robot_pos : point float_arith)
          (radius : float),
      balls <> [] ->
      exists out clusters c,
        find_nearest_cluster balls robot_pos radius = Returns out /\
        find_all_clusters balls radius = Returns clusters /\
        In c clusters /\ Permutation c out).
Proof.
  split; intros balls robot_pos radius.
  - apply find_nearest_cluster_among_all.
    intros i j _ _. apply near_sym_real.
  - apply find_nearest_cluster_among_all.
    intros i j _ _. apply near_sym_float.
Qed.

(** ** Selection *)

Lemma dist_from_self (p : point real_arith) : dist_from p p = 0%R.
Proof.
  unfold dist_from, norm, psub. cbn [px py]. real_ops.
  replace (px p - px p)%R with 0%R by ring.
  replace (py p - py p)%R with 0%R by ring.
  rewrite Rmult_0_l, Rplus_0_l. apply sqrt_0.
Qed.

(** A non-empty cluster is scored unless the division fails. *)
Lemma score_cluster_outcomes {A : Arith} (c : list (point A))
    (robot_pos : point A) (bias : num) :
  c <> [] ->
  (exists r, score_cluster c robot_pos bias = Returns r) \/
  score_cluster c robot_pos bias = Raises ZeroDivisionError.
Proof.
  destruct c as [|p c]; [congruence|]. intros _.
  unfold score_cluster. cbn [map npmin bind].
  destruct (neqb _ zero); [right; reflexivity|left; eexists; reflexivity].
Qed.

(** Without a bias, a cluster one of whose balls is under the robot is not
    scored. *)
Lemma score_cluster_under_robot (c : list (point real_arith))
    (robot_pos : point real_arith) :
  In robot_pos c ->
  score_cluster c robot_pos 0%R = Raises ZeroDivisionError.
Proof.
  intros Hin. destruct c as [|p0 c]; [destruct Hin|].
  unfold score_cluster.
  change (map (fun p => norm (psub p robot_pos)) (p0 :: c))
    with (map (dist_from robot_pos) (p0 :: c)).
  cbn [map npmin bind].
  destruct (fold_np_minimum_real (map (dist_from robot_pos) c)
                                 (dist_from robot_pos p0)) as (Hm & Hmin).
  set (md := fold_left (@np_minimum real_arith) (map (dist_from robot_pos) c)
                       (dist_from robot_pos p0)) in *.
  change (dist_from robot_pos p0 :: map (dist_from robot_pos) c)
    with (map (dist_from robot_pos) (p0 :: c)) in Hm, Hmin.
  assert (Hmd : md = 0%R).
  { apply Rle_antisym.
    - rewrite <- (dist_from_self robot_pos). apply Hmin. apply in_map. exact Hin.
    - apply in_map_iff in Hm. destruct Hm as (p & <- & _).
      apply dist_from_nonneg. }
  unfold zero. real_ops. rewrite Hmd, Rplus_0_l, Reqb_refl. reflexivity.
Qed.

(** A loop one of whose bodies raises, the others raising nothing else,
    raises. *)
Lemma for_each_raises {S X : Type} (body : S -> X -> outcome S) (e : pyexn)
    (xs : list X) (x : X) (s0 : S) :
  In x xs ->
  (forall s, body s x = Raises e) ->
  (forall s y, In y xs -> (exists s', body s y = Returns s') \/ body s y = Raises e) ->
  for_each body xs s0 = Raises e.
Proof.
  intros Hin Hx Hall. revert s0.
  induction xs as [|y xs IH]; intros s0; [destruct Hin|].
  cbn [for_each].
  destruct (Hall s0 y (or_introl eq_refl)) as [(s' & Hy)|Hy];
    rewrite Hy; cbn [bind]; [|reflexivity].
  destruct Hin as [->|Hin]; [rewrite Hx in Hy; discriminate|].
  apply IH; [exact Hin|]. intros s z Hz. apply Hall. right. exact Hz.
Qed.

(** X13: in exact arithmetic and with a [distance_bias] of zero,
    [select_best_cluster] raises [ZeroDivisionError] when the robot stands
    on one of the balls. *)
Theorem select_best_cluster_zero_bias (balls : list (point real_arith))
    (robot_pos : point real_arith) (radius : R) :
  In robot_pos balls ->
  select_best_cluster balls robot_pos radius 0%R = Raises ZeroDivisionError.
Proof.
  intros Hin.
  destruct (find_all_clusters_spec balls radius
              (fun i j _ _ => near_sym_real balls radius i j))
    as (clusters & Hrun & Hall & Hperm & _ & _).
  unfold select_best_cluster. rewrite Hrun. cbn [bind].
  apply (Permutation_in _ Hperm), in_concat in Hin.
  destruct Hin as (c & Hc & Hrc).
  rewrite Forall_forall in Hall.
  assert (Hloop : for_each (select_step robot_pos 0%R) clusters
                           (None, of_Z (-1), zero) = Raises ZeroDivisionError).
  { apply (for_each_raises _ _ clusters c); [exact Hc| |].
    - intros [[bc bs] bmd]. unfold select_step.
      rewrite (score_cluster_under_robot c robot_pos Hrc). reflexivity.
    - intros [[bc bs] bmd] c' Hc'. unfold select_step.
      destruct (score_cluster_outcomes c' robot_pos 0%R (Hall c' Hc'))
        as [([s md] & ->)| ->]; cbn [bind]; [left|right; reflexivity].
      destruct (nltb bs s); eexists; reflexivity. }
  destruct clusters as [|c0 cs]; [destruct Hc|].
  rewrite Hloop. reflexivity.
Qed.

(** X13 at two balls, the robot on the second. *)
Lemma select_best_cluster_zero_bias_witness :
  let robot_pos : point real_arith := @mkpt real_arith 1%R 4%R in
  let balls : list (point real_arith) :=
    [@mkpt real_arith 6%R 4%R; robot_pos] in
  In robot_pos balls /\
  select_best_cluster balls robot_pos (3 / 2)%R 0%R = Raises ZeroDivisionError.
Proof.
  cbv zeta. split; [simpl; auto|].
  apply select_best_cluster_zero_bias. simpl. auto.
Defined.

(** A loop that returned kept what its body keeps. *)
Lemma for_each_returned {S X : Type} (body : S -> X -> outcome S)
    (P : list X -> S -> Prop) (xs : list X) (s0 s' : S) :
  P [] s0 ->
  (forall done x s s1, In x xs -> P done s -> body s x = Returns s1 ->
     P (done ++ [x]) s1) ->
  for_each body xs s0 = Returns s' -> P xs s'.
Proof.
  intros H0 Hstep.
  enough (H : forall rest done s,
             (forall x, In x rest -> In x xs) -> P done s ->
             for_each body rest s = Returns s' -> P (done ++ rest) s').
  { apply (H xs [] s0); auto. }
  induction rest as [|x rest IH]; intros done s Hin HP Hrun.
  - cbn [for_each] in Hrun. injection Hrun as <-. rewrite app_nil_r. exact HP.
  - cbn [for_each] in Hrun. apply bind_returns in Hrun.
    destruct Hrun as (s1 & Hbody & Hrun).
    replace (done ++ x :: rest) with ((done ++ [x]) ++ rest)
      by (rewrite <- app_assoc; reflexivity).
    apply (IH (done ++ [x]) s1); [| |exact Hrun].
    + intros y Hy. apply Hin. right. exact Hy.
    + apply (Hstep done x s s1); auto. apply Hin. left. reflexivity.
Qed.

(** What the selection loop holds when it returns, in any arithmetic: a
    cluster it keeps is one of those it has read, with its own score. *)
Lemma select_loop_keeps {A : Arith} (robot_pos : point A) (bias : num)
    (clusters : list (list (point A)))
    (st : option (list (point A)) * num * num) :
  for_each (select_step robot_pos bias) clusters (None, of_Z (-1), zero)
  = Returns st ->
  match fst (fst st) with
  | None => True
  | Some c => In c clusters /\
              score_cluster c robot_pos bias = Returns (snd (fst st), snd st)
  end.
Proof.
  apply (for_each_returned (select_step robot_pos bias)
           (fun done st =>
              match fst (fst st) with
              | None => True
              | Some c => In c done /\
                  score_cluster c robot_pos bias
                  = Returns (snd (fst st), snd st)
              end)); [exact I|].
  intros done c [[bc' bs'] bmd'] s1 _ HP Hstep. unfold select_step in Hstep.
  apply bind_returns in Hstep. destruct Hstep as ([s md] & Hscore & Hstep).
  cbn [fst snd] in *.
  destruct (nltb bs' s); injection Hstep as <-; cbn [fst snd].
  - split; [apply in_or_app; right; left; reflexivity|exact Hscore].
  - destruct bc' as [c'|]; [|exact I]. destruct HP as (Hin & Hsc).
    split; [apply in_or_app; left; exact Hin|exact Hsc].
Qed.

(** The cluster of a selection is one of the clusters found, and the size
    returned is its length. *)
Lemma select_best_cluster_member {A : Arith} (balls : list (point A))
    (robot_pos : point A) (radius bias : num) (sel : selection) :
  select_best_cluster balls robot_pos radius bias = Returns (Some sel) ->
  exists clusters,
    find_all_clusters balls radius = Returns clusters /\
    In (sel_cluster sel) clusters /\
    sel_size sel = length (sel_cluster sel).
Proof.
  unfold select_best_cluster. intros H.
  apply bind_returns in H. destruct H as (clusters & Hall & H).
  exists clusters. split; [exact Hall|].
  destruct clusters as [|c0 cs]; [discriminate|].
  apply bind_returns in H. destruct H as ([[bc bs] bmd] & Hloop & H).
  apply select_loop_keeps in Hloop. cbn [fst snd] in Hloop.
  destruct bc as [c|]; [|discriminate].
  injection H as <-. cbn [sel_cluster sel_size].
  split; [apply Hloop|reflexivity].
Qed.

(** X14: whenever [select_best_cluster] returns a selection, in any
    arithmetic, the cluster selected is one of those [find_all_clusters]
    returns, the score and the least distance returned are those
    [score_cluster] gives for it, and the size and the number of clusters
    returned are the lengths of the cluster and of the list of clusters. *)
Theorem select_best_cluster_consistent {A : Arith} (balls : list (point A))
    (robot_pos : point A) (radius bias : num) (sel : selection) :
  select_best_cluster balls robot_pos radius bias = Returns (Some sel) ->
  exists clusters,
    find_all_clusters balls radius = Returns clusters /\
    In (sel_cluster sel) clusters /\
    score_cluster (sel_cluster sel) robot_pos bias
    = Returns (sel_score sel, sel_min_distance sel) /\
    sel_size sel = length (sel_cluster sel) /\
    sel_num_clusters sel = length clusters.
Proof.
  unfold select_best_cluster. intros H.
  apply bind_returns in H. destruct H as (clusters & Hall & H).
  exists clusters. split; [exact Hall|].
  destruct clusters as [|c0 cs]; [discriminate|].
  apply bind_returns in H. destruct H as ([[bc bs] bmd] & Hloop & H).
  apply select_loop_keeps in Hloop. cbn [fst snd] in Hloop.
  destruct bc as [c|]; [|discriminate].
  injection H as <-. cbn [sel_cluster sel_score sel_min_distance sel_size
                            sel_num_clusters].
  destruct Hloop as (Hin & Hscore). auto.
Qed.

(** X14 at three balls, in binary64. *)
Lemma select_best_cluster_consistent_witness :
  let balls : list (point float_arith) :=
    [mkpt 5%float 5%float; mkpt 1%float 1%float; mkpt 2%float 1%float] in
  let robot_pos : point float_arith := mkpt 0%float 0%float in
  exists sel,
    select_best_cluster balls robot_pos 1.5%float 0.5%float
    = Returns (Some sel) /\
    exists clusters,
      find_all_clusters balls 1.5%float = Returns clusters /\
      In (sel_cluster sel) clusters /\
      score_cluster (sel_cluster sel) robot_pos 0.5%float
      = Returns (sel_score sel, sel_min_distance sel) /\
      sel_size sel = length (sel_cluster sel) /\
      sel_num_clusters sel = length clusters.
Proof.
  cbv zeta. eexists. split; [vm_compute; reflexivity|].
  apply select_best_cluster_consistent. vm_compute. reflexivity.
Defined.

(** In exact arithmetic and with a positive bias, a cluster is selected
    among those of a non-empty list of balls. *)
Lemma select_best_cluster_returns_real (balls : list (point real_arith))
    (robot_pos : point real_arith) (radius bias : R) :
  (0 < bias)%R -> balls <> [] ->
  exists sel,
    select_best_cluster balls robot_pos radius bias = Returns (Some sel) /\
    sel_cluster sel <> [].
Proof.
  intros Hb Hne.
  destruct (find_all_clusters_spec balls radius
              (fun i j _ _ => near_sym_real balls radius i j))
    as (clusters & Hrun & Hall & Hperm & _ & _).
  assert (Hcne : clusters <> []).
  { intros ->. simpl in Hperm. apply Permutation_sym, Permutation_nil in Hperm.
    contradiction. }
  unfold select_best_cluster. rewrite Hrun. cbn [bind].
  destruct (for_each_invariant (select_step robot_pos bias)
              (select_inv robot_pos bias) clusters (None, of_Z (-1), zero))
    as ([[bc bs] bmd] & Hloop & Hinv).
  { left. auto. }
  { intros done c st Hc Hinv. apply select_step_inv; [exact Hb| |exact Hinv].
    rewrite Forall_forall in Hall. apply Hall. exact Hc. }
  destruct clusters as [|c0 clusters']; [congruence|].
  rewrite Hloop. cbn [bind].
  destruct Hinv as [(E & _)|(k & c & -> & Hk & _)]; [discriminate|].
  eexists. split; [reflexivity|]. cbn [sel_cluster].
  rewrite Forall_forall in Hall. apply Hall. eapply nth_error_In. exact Hk.
Qed.


(** ** The planners *)

(** Every cluster of [find_all_clusters] is a subsequence of the balls, in
    any arithmetic. *)
Lemma find_all_clusters_subseq {A : Arith} (balls : list (point A))
    (radius : num) (clusters : list (list (point A))) :
  find_all_clusters balls radius = Returns clusters ->
  forall c, In c clusters -> subseq c balls.
Proof.
  unfold find_all_clusters.
  destruct (length balls =? 0)%nat; [intros E; injection E as <-; contradiction|].
  intros H. apply bind_returns in H. destruct H as (acc & Hloop & H).
  injection H as <-.
  apply (for_each_returned (cluster_from_seed balls radius)
           (fun _ acc => forall c, In c (snd acc) -> subseq c balls)
           (range 0 (length balls)) (repeat false (length balls), []) acc);
    [intros c []| |exact Hloop].
  intros _ seed [V cs] s1 _ HP Hstep. unfold cluster_from_seed in Hstep.
  destruct (nth seed V false); [injection Hstep as <-; exact HP|].
  apply bind_returns in Hstep. destruct Hstep as (st & _ & Hstep).
  injection Hstep as <-. cbn [snd] in *. intros c Hc.
  apply in_app_or in Hc. destruct Hc as [Hc|[<-|[]]]; [auto|].
  apply take_mask_subseq.
Qed.

Lemma smooth_path_keeps_last {A : Arith} {Pw : Pow A} (w : list (point A)) (k : nat) :
  last (smooth_path w k) origin = last w origin.
Proof.
  unfold smooth_path. destruct (length w <? 2)%nat; [reflexivity|].
  cbv zeta. apply last_last.
Qed.

Lemma two_opt_improve_shape {A : Arith} (fuel : nat) (tour out : list (point A)) :
  two_opt_improve fuel tour = Returns out ->
  Permutation tour out /\ hd_error out = hd_error tour.
Proof.
  unfold two_opt_improve. destruct (length tour <? 4)%nat.
  - intros E. injection E as <-. split; reflexivity.
  - intros Hrun. apply two_opt_loop_permutation in Hrun.
    destruct Hrun as (Hp & Hh & _). auto.
Qed.

(** X15: of every plan [plan_nearest_cluster] returns, in any arithmetic:
    the cluster is a subsequence of the balls; [cluster_size] is its
    length and [total_waypoints] one more; [pruned_waypoints] is
    [total_waypoints] less the number of waypoints, is not negative, and
    leaves the robot's position and at least one ball; the waypoints begin
    with the robot's position and are otherwise balls of the cluster; the
    path ends where the waypoints end. *)
Theorem plan_nearest_cluster_shape {A : Arith} {Pw : Pow A} (balls : list (point A))
    (robot_pos : point A) (cluster_radius : num) (plan : cluster_plan) :
  plan_nearest_cluster balls robot_pos cluster_radius = Returns (Some plan) ->
  subseq (nc_cluster plan) balls /\
  nc_cluster_size plan = length (nc_cluster plan) /\
  nc_total_waypoints plan = (Z.of_nat (nc_cluster_size plan) + 1)%Z /\
  nc_pruned_waypoints plan
  = (nc_total_waypoints plan - Z.of_nat (length (nc_waypoints plan)))%Z /\
  (0 <= nc_pruned_waypoints plan)%Z /\
  (1 <= nc_cluster_size plan ->
   (nc_pruned_waypoints plan <= Z.of_nat (nc_cluster_size plan) - 1)%Z) /\
  hd_error (nc_waypoints plan) = Some robot_pos /\
  (forall p, In p (nc_waypoints plan) ->
             p = robot_pos \/ In p (nc_cluster plan)) /\
  last (nc_path plan) origin = last (nc_waypoints plan) origin.
Proof.
  unfold plan_nearest_cluster.
  destruct (length balls =? 0)%nat; [discriminate|].
  intros H. apply bind_returns in H. destruct H as ([sel|] & Hsel & H);
    [|discriminate].
  apply bind_returns in H. destruct H as (ordered & Hnn & H).
  apply bind_returns in H. destruct H as (wps & Hprune & H).
  remember (Z.of_nat (length (robot_pos :: ordered))) as total eqn:Etotal.
  remember (Z.of_nat (length wps)) as left eqn:Eleft.
  injection H as <-.
  cbn [nc_cluster nc_cluster_size nc_total_waypoints nc_pruned_waypoints
       nc_waypoints nc_path].
  destruct (select_best_cluster_member _ _ _ _ _ Hsel)
    as (clusters & Hall & Hin & Hsize).
  destruct (nearest_neighbor_order_permutation (sel_cluster sel) robot_pos)
    as (ordered' & Hnn' & Hlen & Hperm).
  rewrite Hnn' in Hnn. injection Hnn as ->.
  destruct (prune_waypoints_shape (robot_pos :: ordered) INTAKE_HALF_WIDTH)
    as (wps' & Hprune' & Hsub & Hhd & _ & Hmin).
  rewrite Hprune' in Hprune. injection Hprune as ->.
  pose proof (subseq_length _ _ Hsub) as Hle.
  rewrite Eleft. change (length (robot_pos :: ordered)) with (S (length ordered)) in *.
  split; [exact (find_all_clusters_subseq _ _ _ Hall _ Hin)|].
  split; [exact Hsize|]. split; [lia|]. split; [reflexivity|].
  split; [lia|]. split; [lia|]. split; [exact Hhd|]. split.
  - intros p Hp. apply (subseq_In _ _ _ Hsub) in Hp.
    destruct Hp as [<-|Hp]; [left; reflexivity|right].
    apply (Permutation_in _ (Permutation_sym Hperm)). exact Hp.
  - apply smooth_path_keeps_last.
Qed.

(** X15 at three balls, in binary64. *)
Lemma plan_nearest_cluster_shape_witness :
  let balls : list (point float_arith) :=
    [mkpt 5%float 5%float; mkpt 1%float 1%float; mkpt 2%float 1%float] in
  let robot_pos : point float_arith := mkpt 0%float 0%float in
  exists plan,
    plan_nearest_cluster balls robot_pos 1.5%float = Returns (Some plan) /\
    subseq (nc_cluster plan) balls /\
    nc_cluster_size plan = length (nc_cluster plan) /\
    nc_total_waypoints plan = (Z.of_nat (nc_cluster_size plan) + 1)%Z /\
    nc_pruned_waypoints plan
    = (nc_total_waypoints plan - Z.of_nat (length (nc_waypoints plan)))%Z /\
    (0 <= nc_pruned_waypoints plan)%Z /\
    (1 <= nc_cluster_size plan ->
     (nc_pruned_waypoints plan <= Z.of_nat (nc_cluster_size plan) - 1)%Z) /\
    hd_error (nc_waypoints plan) = Some robot_pos /\
    (forall p, In p (nc_waypoints plan) ->
               p = robot_pos \/ In p (nc_cluster plan)) /\
    last (nc_path plan) origin = last (nc_waypoints plan) origin.
Proof.
  cbv zeta. eexists. split; [vm_compute; reflexivity|].
  apply (plan_nearest_cluster_shape (A:=float_arith) _ _ 1.5%float).
  vm_compute. reflexivity.
Defined.

(** *** Exact arithmetic *)

Lemma smooth_path_starts (w : list (point real_arith)) (k : nat) :
  2 <= length w -> 1 <= k ->
  hd_error (smooth_path w k) = hd_error w /\
  length (smooth_path w k) = k * (length w - 1) + 1.
Proof.
  intros Hw Hk. rewrite (smooth_path_segments w k Hw). split.
  - replace (length w - 1) with (S (length w - 2)) by lia.
    cbn [seq flat_map]. unfold segment_samples at 1.
    destruct k as [|k]; [lia|]. cbn [seq map app hd_error].
    rewrite catmull_rom_at_0. destruct w; [simpl in Hw; lia|reflexivity].
  - rewrite length_app,
      (flat_map_length_const _ _ k (segment_samples_length w k)), length_seq.
    reflexivity.
Qed.

Lemma plan_nearest_cluster_real (balls : list (point real_arith))
    (robot_pos : point real_arith) (cluster_radius : R) :
  balls <> [] ->
  exists plan,
    plan_nearest_cluster balls robot_pos cluster_radius = Returns (Some plan) /\
    nc_cluster plan <> [] /\
    2 <= length (nc_waypoints plan) /\
    hd_error (nc_waypoints plan) = Some robot_pos /\
    nc_path plan = smooth_path (nc_waypoints plan) 20.
Proof.
  intros Hne. unfold plan_nearest_cluster.
  destruct (length balls =? 0)%nat eqn:Hz.
  { apply Nat.eqb_eq in Hz. destruct balls; [congruence|discriminate]. }
  destruct (select_best_cluster_returns_real balls robot_pos cluster_radius
              (@half real_arith)) as (sel & Hsel & Hcne);
    [unfold half; real_ops; lra|exact Hne|].
  rewrite Hsel. cbn [bind].
  destruct (nearest_neighbor_order_permutation (sel_cluster sel) robot_pos)
    as (ordered & Hnn & Hlen & _).
  rewrite Hnn. cbn [bind].
  destruct (prune_waypoints_shape (robot_pos :: ordered) INTAKE_HALF_WIDTH)
    as (wps & Hprune & _ & Hhd & _ & Hmin).
  rewrite Hprune. cbn [bind]. eexists. split; [reflexivity|].
  cbn [nc_cluster nc_waypoints nc_path]. split; [exact Hcne|].
  split; [|split; [exact Hhd|reflexivity]].
  apply Hmin. cbn [length]. rewrite Hlen.
  destruct (sel_cluster sel); [congruence|simpl; lia].
Qed.

Lemma plan_full_sweep_real (balls : list (point real_arith))
    (robot_pos : point real_arith) :
  balls <> [] ->
  exists sweeps plan,
    (forall fuel, sweeps <= fuel ->
       plan_full_sweep fuel balls robot_pos = Returns (Some plan)) /\
    2 <= length (nn_waypoints plan) /\
    2 <= length (opt_waypoints plan) /\
    hd_error (nn_waypoints plan) = Some robot_pos /\
    hd_error (opt_waypoints plan) = Some robot_pos /\
    nn_path plan = smooth_path (nn_waypoints plan) 20 /\
    opt_path plan = smooth_path (opt_waypoints plan) 20.
Proof.
  intros Hne. unfold plan_full_sweep.
  destruct (length balls =? 0)%nat eqn:Hz.
  { apply Nat.eqb_eq in Hz. destruct balls; [congruence|discriminate]. }
  destruct (nearest_neighbor_order_permutation balls robot_pos)
    as (ordered & -> & Hlen & _).
  destruct (two_opt_improve_returns (robot_pos :: ordered))
    as (sweeps & refined & Hrun).
  destruct (two_opt_improve_shape _ _ _ (Hrun sweeps (le_n _))) as (Hp2 & Hh2).
  destruct (prune_waypoints_shape (robot_pos :: ordered) INTAKE_HALF_WIDTH)
    as (nn_wps & Hpn & _ & Hhd1 & _ & Hmin1).
  destruct (prune_waypoints_shape refined INTAKE_HALF_WIDTH)
    as (opt_wps & Hpo & _ & Hhd2 & _ & Hmin2).
  assert (Hlen1 : 2 <= length (robot_pos :: ordered)).
  { cbn [length]. rewrite Hlen. destruct balls; [congruence|simpl; lia]. }
  exists sweeps. eexists. split.
  { intros fuel Hfuel. cbn [bind]. rewrite (Hrun fuel Hfuel). cbn [bind].
    rewrite Hpn. cbn [bind]. rewrite Hpo. cbn [bind]. reflexivity. }
  cbn [nn_waypoints opt_waypoints nn_path opt_path].
  split; [apply Hmin1; exact Hlen1|].
  split; [apply Hmin2; rewrite <- (Permutation_length Hp2); exact Hlen1|].
  split; [exact Hhd1|]. split; [rewrite Hhd2, Hh2; reflexivity|].
  split; reflexivity.
Qed.

(** X16: in exact arithmetic [plan_nearest_cluster] returns a plan for
    every non-empty list of balls, with a non-empty cluster, at least two
    waypoints and a path of 20 points for each pair of consecutive
    waypoints and one more, which begins at the robot's position; for no
    balls it returns [None], in every arithmetic. *)
Theorem plan_nearest_cluster_returns :
  (forall (balls : list (point real_arith)) (robot_pos : point real_arith)
          (cluster_radius : R),
      balls <> [] ->
      exists plan,
        plan_nearest_cluster balls robot_pos cluster_radius
        = Returns (Some plan) /\
        nc_cluster plan <> [] /\
        2 <= length (nc_waypoints plan) /\
        hd_error (nc_path plan) = Some robot_pos /\
        length (nc_path plan) = 20 * (length (nc_waypoints plan) - 1) + 1) /\
  (forall (A : Arith) (Pw : Pow A) (robot_pos : point A) (cluster_radius : num),
      plan_nearest_cluster [] robot_pos cluster_radius = Returns None).
Proof.
  split; [|reflexivity].
  intros balls robot_pos cluster_radius Hne.
  destruct (plan_nearest_cluster_real balls robot_pos cluster_radius Hne)
    as (plan & Hplan & Hcne & Hlen & Hhd & Hpath).
  destruct (smooth_path_starts (nc_waypoints plan) 20 Hlen ltac:(lia))
    as (Hstart & Hcount).
  exists plan. split; [exact Hplan|]. split; [exact Hcne|].
  split; [exact Hlen|]. rewrite Hpath.
  split; [congruence|exact Hcount].
Qed.

(** X17: of every plan [plan_full_sweep] returns, in any arithmetic: both
    lists of waypoints begin with the robot's position and are otherwise
    balls of the input; each has at least two waypoints and at most one more
    than there are balls; [pruned_waypoints] is not negative and less
    than the number of balls; each path ends where its waypoints end. *)
Theorem plan_full_sweep_shape {A : Arith} {Pw : Pow A} (fuel : nat) (balls : list (point A))
    (robot_pos : point A) (plan : sweep_plan) :
  plan_full_sweep fuel balls robot_pos = Returns (Some plan) ->
  hd_error (nn_waypoints plan) = Some robot_pos /\
  hd_error (opt_waypoints plan) = Some robot_pos /\
  (forall p, In p (nn_waypoints plan) -> p = robot_pos \/ In p balls) /\
  (forall p, In p (opt_waypoints plan) -> p = robot_pos \/ In p balls) /\
  2 <= length (nn_waypoints plan) <= length balls + 1 /\
  2 <= length (opt_waypoints plan) <= length balls + 1 /\
  (0 <= pruned_waypoints plan <= Z.of_nat (length balls) - 1)%Z /\
  last (nn_path plan) origin = last (nn_waypoints plan) origin /\
  last (opt_path plan) origin = last (opt_waypoints plan) origin.
Proof.
  unfold plan_full_sweep.
  destruct (length balls =? 0)%nat eqn:Hz; [discriminate|].
  apply Nat.eqb_neq in Hz.
  intros H.
  apply bind_returns in H. destruct H as (ordered & Hnn & H).
  apply bind_returns in H. destruct H as (refined & Hopt & H).
  apply bind_returns in H. destruct H as (nn_wps & Hpn & H).
  apply bind_returns in H. destruct H as (opt_wps & Hpo & H).
  remember (Z.of_nat (length (robot_pos :: ordered))) as total eqn:Etotal.
  remember (Z.of_nat (length opt_wps)) as left eqn:Eleft.
  injection H as <-.
  cbn [nn_waypoints opt_waypoints nn_path opt_path pruned_waypoints].
  destruct (nearest_neighbor_order_permutation balls robot_pos)
    as (ordered' & Hnn' & Hlen & Hperm).
  rewrite Hnn' in Hnn. injection Hnn as ->.
  destruct (two_opt_improve_shape _ _ _ Hopt) as (Hp2 & Hh2).
  destruct (prune_waypoints_shape (robot_pos :: ordered) INTAKE_HALF_WIDTH)
    as (w1 & Hw1 & Hsub1 & Hhd1 & _ & Hmin1).
  rewrite Hw1 in Hpn. injection Hpn as ->.
  destruct (prune_waypoints_shape refined INTAKE_HALF_WIDTH)
    as (w2 & Hw2 & Hsub2 & Hhd2 & _ & Hmin2).
  rewrite Hw2 in Hpo. injection Hpo as ->.
  pose proof (subseq_length _ _ Hsub1) as Hle1.
  pose proof (subseq_length _ _ Hsub2) as Hle2.
  pose proof (Permutation_length Hp2) as Hlen2.
  change (length (robot_pos :: ordered)) with (S (length ordered)) in *.
  assert (Hmem : forall p, In p (robot_pos :: ordered) ->
                           p = robot_pos \/ In p balls).
  { intros p [<-|Hp]; [left; reflexivity|right].
    apply (Permutation_in _ (Permutation_sym Hperm)). exact Hp. }
  split; [exact Hhd1|]. split; [rewrite Hhd2, Hh2; reflexivity|].
  split; [intros p Hp; apply Hmem; apply (subseq_In _ _ _ Hsub1); exact Hp|].
  split.
  { intros p Hp. apply Hmem. apply (Permutation_in _ (Permutation_sym Hp2)).
    apply (subseq_In _ _ _ Hsub2). exact Hp. }
  split; [lia|]. split; [lia|]. split; [lia|].
  split; apply smooth_path_keeps_last.
Qed.

(** X17 at four balls, in binary64. *)
Lemma plan_full_sweep_shape_witness :
  let balls : list (point float_arith) :=
    [mkpt (-1)%float 2%float; mkpt (-4)%float 4%float;
     mkpt (-1)%float 3%float; mkpt 3%float 4%float] in
  let robot_pos : point float_arith := mkpt 0%float 0%float in
  exists plan,
    plan_full_sweep 3 balls robot_pos = Returns (Some plan) /\
    hd_error (nn_waypoints plan) = Some robot_pos /\
    hd_error (opt_waypoints plan) = Some robot_pos /\
    (forall p, In p (nn_waypoints plan) -> p = robot_pos \/ In p balls) /\
    (forall p, In p (opt_waypoints plan) -> p = robot_pos \/ In p balls) /\
    2 <= length (nn_waypoints plan) <= length balls + 1 /\
    2 <= length (opt_waypoints plan) <= length balls + 1 /\
    (0 <= pruned_waypoints plan <= Z.of_nat (length balls) - 1)%Z /\
    last (nn_path plan) origin = last (nn_waypoints plan) origin /\
    last (opt_path plan) origin = last (opt_waypoints plan) origin.
Proof.
  cbv zeta. eexists. split; [vm_compute; reflexivity|].
  apply (plan_full_sweep_shape (A:=float_arith) 3).
  vm_compute. reflexivity.
Defined.

(** * The simulation

    Properties of the functions of [simulation.py] that change the state. *)

(** ** Collecting balls *)

Lemma pop_ball_at_end {A : Arith} (bs t : list (point A)) (b : point A) :
  pop_ball ((bs ++ [b]) ++ t) (length bs) = bs ++ t.
Proof.
  unfold pop_ball. rewrite <- app_assoc. cbn [app].
  rewrite firstn_app, Nat.sub_diag, firstn_all. cbn [firstn].
  rewrite app_nil_r.
  replace (S (length bs)) with (length (bs ++ [b]))
    by (rewrite length_app; simpl; lia).
  replace (bs ++ b :: t) with ((bs ++ [b]) ++ t)
    by (rewrite <- app_assoc; reflexivity).
  rewrite skipn_app, Nat.sub_diag, skipn_all. reflexivity.
Qed.

Lemma filter_range_snoc (p : nat -> bool) (m : nat) :
  filter p (range 0 (S m))
  = filter p (range 0 m) ++ (if p m then [m] else []).
Proof. rewrite range_snoc by lia. rewrite filter_app. reflexivity. Qed.

Section Pops.

Context {A : Arith} {Pw : Pow A}.
Variable p : nat -> bool.

(** The balls that popping the positions [p] holds of, from the last to
    the first, leaves: those at the other positions, in their order.  [t]
    stands for balls behind those read. *)
Lemma pops_leave (bs t : list (point A)) (C : ListSet.set nat) :
  fst (fold_left
         (fun bc idx => (pop_ball (fst bc) idx, remap_collected (snd bc) idx))
         (rev (filter p (range 0 (length bs)))) (bs ++ t, C))
  = map (at_ bs) (filter (fun i => negb (p i)) (range 0 (length bs))) ++ t.
Proof.
  revert t C. induction bs as [|b bs IH] using rev_ind; intros t C;
    [reflexivity|].
  rewrite length_app. cbn [length]. rewrite Nat.add_1_r.
  rewrite !filter_range_snoc.
  assert (Hmap : forall l, (forall i, In i l -> i < length bs) ->
            map (at_ (bs ++ [b])) l = map (at_ bs) l).
  { intros l Hl. apply map_ext_in. intros i Hi. unfold at_.
    apply app_nth1. apply Hl. exact Hi. }
  assert (Hkeep : forall i, In i (filter (fun i => negb (p i))
                                  (range 0 (length bs))) -> i < length bs).
  { intros i Hi. apply filter_In in Hi. destruct Hi as (Hi & _).
    apply in_range in Hi. lia. }
  destruct (p (length bs)) eqn:Hp; cbn [negb].
  - rewrite rev_app_distr. cbn [rev app fold_left fst snd].
    rewrite pop_ball_at_end, IH, app_nil_r. f_equal.
    symmetry. apply Hmap. exact Hkeep.
  - rewrite app_nil_r. rewrite <- app_assoc. cbn [app].
    rewrite IH, map_app. cbn [map]. rewrite <- app_assoc. cbn [app].
    f_equal; [symmetry; apply Hmap; exact Hkeep|].
    unfold at_. rewrite nth_middle. reflexivity.
Qed.

End Pops.

Lemma in_remap_collected (C : ListSet.set nat) (idx j : nat) :
  In j (remap_collected C idx) <->
  exists i, In i C /\ i <> idx /\ j = (if (idx <? i)%nat then i - 1 else i).
Proof.
  unfold remap_collected. induction C as [|c C IH]; cbn [fold_right].
  - split; [intros []|intros (i & [] & _)].
  - destruct (Nat.eqb_spec c idx) as [->|Hne].
    + rewrite IH. split.
      * intros (i & Hi & H). exists i. split; [right; exact Hi|exact H].
      * intros (i & [<-|Hi] & Hn & Hj); [congruence|]. exists i. auto.
    + rewrite ListSet.set_add_iff, IH. split.
      * intros [->|(i & Hi & H)].
        -- exists c. split; [left; reflexivity|]. split; [exact Hne|reflexivity].
        -- exists i. split; [right; exact Hi|exact H].
      * intros (i & [<-|Hi] & Hn & Hj); [left; exact Hj|right].
        exists i. auto.
Qed.

Lemma pops_snd {A : Arith} (l : list nat) (bs : list (point A))
    (C : ListSet.set nat) :
  snd (fold_left
         (fun bc idx => (pop_ball (fst bc) idx, remap_collected (snd bc) idx))
         l (bs, C))
  = fold_left remap_collected l C.
Proof.
  revert bs C. induction l as [|idx l IH]; intros bs C; [reflexivity|].
  cbn [fold_left fst snd]. apply IH.
Qed.

Lemma removed_below_all (p : nat -> bool) (m i : nat) :
  m <= i -> removed_below p m i = length (filter p (range 0 m)).
Proof.
  intros Hle. unfold removed_below. f_equal. apply filter_ext_in.
  intros r Hr. apply in_range in Hr.
  replace (r <? i)%nat with true by (symmetry; apply Nat.ltb_lt; lia).
  apply andb_true_r.
Qed.

Lemma removed_below_snoc (p : nat -> bool) (m i : nat) :
  removed_below p (S m) i
  = removed_below p m i + (if p m && (m <? i)%nat then 1 else 0).
Proof.
  unfold removed_below. rewrite filter_range_snoc, length_app.
  destruct (p m && (m <? i)%nat); reflexivity.
Qed.

(** The set that remapping after each pop leaves. *)
Lemma remaps_leave (p : nat -> bool) (m : nat) (C : ListSet.set nat) (j : nat) :
  In j (fold_left remap_collected (rev (filter p (range 0 m))) C) <->
  exists i, In i C /\ (i < m -> p i = false) /\ j = i - removed_below p m i.
Proof.
  revert C j. induction m as [|m IH]; intros C j.
  - cbn. split.
    + intros Hj. exists j. split; [exact Hj|]. split; [lia|lia].
    + intros (i & Hi & _ & ->). rewrite Nat.sub_0_r. exact Hi.
  - rewrite filter_range_snoc, rev_app_distr.
    destruct (p m) eqn:Hp.
    + cbn [rev app fold_left]. rewrite IH. split.
      * intros (i1 & Hi1 & Hp1 & ->). apply in_remap_collected in Hi1.
        destruct Hi1 as (i & Hi & Hne & ->). exists i. split; [exact Hi|].
        rewrite removed_below_snoc, Hp. cbn [andb].
        destruct (Nat.ltb_spec m i) as [Hlt|Hge].
        -- split; [lia|].
           rewrite (removed_below_all p m (i - 1)) by lia.
           rewrite (removed_below_all p m i) by lia. lia.
        -- split; [|lia]. intros _. apply Hp1. lia.
      * intros (i & Hi & Hpi & ->).
        assert (Hne : i <> m) by (intros ->; rewrite Hpi in Hp by lia; discriminate).
        exists (if (m <? i)%nat then i - 1 else i). split.
        { apply in_remap_collected. exists i. auto. }
        rewrite removed_below_snoc, Hp. cbn [andb].
        destruct (Nat.ltb_spec m i) as [Hlt|Hge].
        -- split; [lia|].
           rewrite (removed_below_all p m (i - 1)) by lia.
           rewrite (removed_below_all p m i) by lia. lia.
        -- split; [|lia]. intros Hlt. apply Hpi. lia.
    + cbn [rev app]. rewrite IH. split.
      * intros (i & Hi & Hpi & ->). exists i. split; [exact Hi|].
        rewrite removed_below_snoc, Hp. cbn [andb]. split; [|lia].
        intros Hlt. destruct (Nat.eq_dec i m) as [->|Hne]; [exact Hp|].
        apply Hpi. lia.
      * intros (i & Hi & Hpi & ->). exists i. split; [exact Hi|].
        rewrite removed_below_snoc, Hp. cbn [andb]. split; [|lia].
        intros Hlt. apply Hpi. lia.
Qed.

Lemma filter_none {T : Type} (f : T -> bool) (l : list T) :
  (forall x, In x l -> f x = false) -> filter f l = [].
Proof.
  induction l as [|x l IH]; intros H; [reflexivity|].
  cbn [filter]. rewrite (H x) by (left; reflexivity).
  apply IH. intros y Hy. apply H. right. exact Hy.
Qed.

Lemma range_split (n i : nat) :
  i < n -> range 0 n = range 0 i ++ i :: range (S i) n.
Proof.
  intros Hi. unfold range. rewrite !Nat.sub_0_r.
  replace n with (i + (n - i)) at 1 by lia. rewrite seq_app. cbn [Nat.add].
  f_equal. replace (n - i) with (S (n - S i)) by lia. reflexivity.
Qed.

Lemma removed_below_upto (p : nat -> bool) (n i : nat) :
  i <= n -> removed_below p n i = length (filter p (range 0 i)).
Proof.
  intros Hi. unfold removed_below.
  replace (range 0 n) with (range 0 i ++ range i n).
  2:{ unfold range. rewrite !Nat.sub_0_r.
      replace n with (i + (n - i)) at 2 by lia. rewrite seq_app. reflexivity. }
  rewrite filter_app, length_app.
  rewrite (filter_none _ (range i n)).
  - cbn [length]. rewrite Nat.add_0_r. f_equal. apply filter_ext_in.
    intros r Hr. apply in_range in Hr.
    replace (r <? i)%nat with true by (symmetry; apply Nat.ltb_lt; lia).
    apply andb_true_r.
  - intros r Hr. apply in_range in Hr.
    replace (r <? i)%nat with false by (symmetry; apply Nat.ltb_ge; lia).
    apply andb_false_r.
Qed.

(** Where a position that stays ends up. *)
Lemma kept_position (p : nat -> bool) (n i : nat) :
  i < n -> p i = false ->
  i - removed_below p n i < length (filter (fun k => negb (p k)) (range 0 n)) /\
  nth (i - removed_below p n i)
      (filter (fun k => negb (p k)) (range 0 n)) 0 = i.
Proof.
  intros Hi Hp.
  rewrite (removed_below_upto p n i) by lia.
  pose proof (filter_length p (range 0 i)) as Hlen.
  unfold range at 3 in Hlen. rewrite length_seq, Nat.sub_0_r in Hlen.
  replace (i - length (filter p (range 0 i)))
    with (length (filter (fun k => negb (p k)) (range 0 i))) by lia.
  rewrite (range_split n i Hi), filter_app. cbn [filter]. rewrite Hp.
  cbn [negb]. split; [|apply nth_middle].
  rewrite length_app. cbn [length]. lia.
Qed.

Lemma filter_by_index {T : Type} (q : T -> bool) (l : list T) (d : T) :
  map (fun i => nth i l d) (filter (fun i => q (nth i l d)) (range 0 (length l)))
  = filter q l.
Proof.
  induction l as [|x l IH] using rev_ind; [reflexivity|].
  rewrite length_app. cbn [length]. rewrite Nat.add_1_r, filter_range_snoc.
  rewrite map_app, filter_app, nth_middle. cbn [filter].
  f_equal.
  - rewrite <- IH. 
    replace (filter (fun i => q (nth i (l ++ [x]) d)) (range 0 (length l)))
      with (filter (fun i => q (nth i l d)) (range 0 (length l))).
    + apply map_ext_in. intros i Hi. apply filter_In in Hi.
      destruct Hi as (Hi & _). apply in_range in Hi.
      rewrite app_nth1 by lia. reflexivity.
    + apply filter_ext_in. intros i Hi. apply in_range in Hi.
      rewrite app_nth1 by lia. reflexivity.
  - destruct (q x); [|reflexivity]. cbn [map]. rewrite nth_middle. reflexivity.
Qed.

Lemma remaps_of_none (l : list nat) : fold_left remap_collected l [] = [].
Proof. induction l as [|r l IH]; [reflexivity|exact IH]. Qed.

Lemma collect_balls_fst {A : Arith} (balls : list (point A))
    (collected : ListSet.set nat) (pos : point A) :
  fst (collect_balls balls collected pos)
  = map (at_ balls)
        (filter (fun i => negb (in_reach balls collected pos i))
                (range 0 (length balls))).
Proof.
  unfold collect_balls, to_remove.
  pose proof (pops_leave (in_reach balls collected pos) balls [] collected)
    as Hballs.
  rewrite !app_nil_r in Hballs. exact Hballs.
Qed.

Lemma collect_balls_uncollected {A : Arith} (balls : list (point A))
    (pos : point A) :
  collect_balls balls [] pos
  = (filter (fun b => negb (nltb (norm (psub b pos)) COLLECTION_RADIUS)) balls,
     []).
Proof.
  rewrite (surjective_pairing (collect_balls balls [] pos)). f_equal.
  - rewrite collect_balls_fst.
    apply (filter_by_index
             (fun b => negb (nltb (norm (psub b pos)) COLLECTION_RADIUS))
             balls origin).
  - unfold collect_balls. rewrite pops_snd. apply remaps_of_none.
Qed.

(** X18: the loop of [step] that collects balls, which pops the positions
    found from the last to the first, leaves the balls that are marked
    collected or not within [COLLECTION_RADIUS] of the robot, in their
    order; it remaps the set [collected] to the positions the balls marked
    have moved to, each lowered by the number of balls removed below it, so
    that the marks stay on their balls; and when nothing is marked it
    leaves the balls that are not within reach, and nothing marked.  In
    any arithmetic. *)
Theorem collect_balls_leaves {A : Arith} (balls : list (point A))
    (collected : ListSet.set nat) (pos : point A) :
  let within i :=
    nltb (norm (psub (at_ balls i) pos)) COLLECTION_RADIUS in
  let below i :=
    length (filter (fun r => (r <? i)%nat) (to_remove balls collected pos)) in
  let balls' := fst (collect_balls balls collected pos) in
  let collected' := snd (collect_balls balls collected pos) in
  balls' = map (at_ balls)
               (filter (fun i => is_collected collected i || negb (within i))
                       (range 0 (length balls))) /\
  (forall j, In j collected' <-> exists i, In i collected /\ j = i - below i) /\
  (forall i, In i collected -> i < length balls ->
             at_ balls' (i - below i) = at_ balls i) /\
  (collected = [] ->
   balls' = filter (fun b => negb (nltb (norm (psub b pos)) COLLECTION_RADIUS))
                   balls /\
   collected' = []).
Proof.
  cbv zeta. unfold collect_balls, to_remove.
  set (p := fun i => negb (is_collected collected i)
                     && nltb (norm (psub (at_ balls i) pos)) COLLECTION_RADIUS).
  assert (Hkeep : forall i, negb (p i)
            = is_collected collected i
              || negb (nltb (norm (psub (at_ balls i) pos)) COLLECTION_RADIUS)).
  { intros i. unfold p. rewrite negb_andb, negb_involutive. reflexivity. }
  assert (Hbelow : forall i,
            length (filter (fun r => (r <? i)%nat)
                           (filter p (range 0 (length balls))))
            = removed_below p (length balls) i).
  { intros i. unfold removed_below. f_equal.
    induction (range 0 (length balls)) as [|r l IH]; [reflexivity|].
    cbn [filter]. destruct (p r); cbn [filter andb]; [|exact IH].
    destruct (r <? i)%nat; [f_equal|]; exact IH. }
  assert (Hcol : forall i, In i collected -> p i = false).
  { intros i Hi. unfold p, is_collected.
    rewrite (ListSet.set_mem_correct2 Nat.eq_dec i collected Hi). reflexivity. }
  pose proof (pops_leave p balls [] collected) as Hballs.
  rewrite !app_nil_r in Hballs.
  assert (Hballs' : fst (fold_left
             (fun bc idx => (pop_ball (fst bc) idx,
                             remap_collected (snd bc) idx))
             (rev (filter p (range 0 (length balls)))) (balls, collected))
           = map (at_ balls)
               (filter (fun i => is_collected collected i
                  || negb (nltb (norm (psub (at_ balls i) pos))
                                COLLECTION_RADIUS))
                  (range 0 (length balls)))).
  { rewrite Hballs. f_equal. apply filter_ext. exact Hkeep. }
  split; [exact Hballs'|]. split; [|split].
  - intros j. rewrite pops_snd, remaps_leave. split.
    + intros (i & Hi & _ & ->). exists i. split; [exact Hi|].
      rewrite Hbelow. reflexivity.
    + intros (i & Hi & ->). exists i. split; [exact Hi|].
      split; [intros _; apply Hcol; exact Hi|]. rewrite Hbelow. reflexivity.
  - intros i Hi Hlt. rewrite Hballs, Hbelow.
    destruct (kept_position p (length balls) i Hlt (Hcol i Hi)) as (Hk & Hnth).
    unfold at_ at 1.
    rewrite (nth_map_in (at_ balls) _ _ 0 origin Hk), Hnth. reflexivity.
  - intros ->. split.
    + rewrite Hballs'. cbn [is_collected ListSet.set_mem orb].
      apply (filter_by_index
               (fun b => negb (nltb (norm (psub b pos)) COLLECTION_RADIUS))
               balls origin).
    + rewrite pops_snd. apply remaps_of_none.
Qed.
(** ** Moving along the path *)
(** ** Moving along the path, in exact arithmetic *)

(** The loop that moves the robot ends within the turns [step] gives it, in
    an arithmetic where [0 > 0] is false: a turn passes a point of the
    path or leaves no budget. *)
Lemma move_loop_returns {A : Arith} (path : list (point A)) (fuel : nat)
    (pos : point A) (idx : nat) (dist_budget : num) :
  nltb zero zero = false ->
  length path - idx <= fuel ->
  exists pos' idx' unspent,
    move_loop fuel path pos idx dist_budget = Returns (pos', idx', unspent) /\
    idx <= idx' /\ idx' <= Nat.max idx (length path - 1).
Proof.
  intros Hzero. revert pos idx dist_budget.
  induction fuel as [|fuel IH]; intros pos idx budget Hfuel.
  - cbn [move_loop].
    replace (idx <? length path - 1)%nat with false
      by (symmetry; apply Nat.ltb_ge; lia).
    rewrite andb_false_r. exists pos, idx, budget.
    split; [reflexivity|lia].
  - cbn [move_loop].
    destruct (nltb zero budget && (idx <? length path - 1)%nat) eqn:Hc.
    2:{ exists pos, idx, budget. split; [reflexivity|lia]. }
    apply andb_true_iff in Hc. destruct Hc as (_ & Hidx).
    apply Nat.ltb_lt in Hidx.
    destruct (nleb _ budget).
    + destruct (IH (at_ path (idx + 1)) (idx + 1)
                   (nsub budget (norm (psub (at_ path (idx + 1)) pos))))
        as (pos' & idx' & unspent & Hrun & Hlo & Hhi); [lia|].
      exists pos', idx', unspent. split; [exact Hrun|lia].
    + eexists _, idx, zero. split; [|lia].
      destruct fuel; cbn [move_loop]; rewrite Hzero; reflexivity.
Qed.

(** In binary64 the turns [step] gives the loop are enough. *)
Lemma move_loop_returns_float (path : list (point float_arith))
    (pos : point float_arith) (idx : nat) (dist_budget : float) :
  exists pos' idx' unspent,
    move_loop (A:=float_arith) (length path + 1) path pos idx dist_budget
    = Returns (pos', idx', unspent) /\
    idx <= idx' /\ idx' <= Nat.max idx (length path - 1).
Proof. apply move_loop_returns; [reflexivity|lia]. Qed.

(** A move of [budget] towards a target farther away than that covers
    [budget]. *)
Lemma partial_move_length (pos target : point real_arith) (budget : R) :
  (0 <= budget)%R -> (budget < dist_from pos target)%R ->
  dist_from pos
    (padd pos (ptimes (pdiv (psub target pos)
                            (norm (A:=real_arith) (psub target pos))) budget))
  = budget.
Proof.
  intros Hb Hd. unfold dist_from in *.
  set (d := norm (A:=real_arith) (psub target pos)) in *.
  assert (Hd0 : (0 < d)%R) by lra.
  assert (Hsq : (d * d = px (psub target pos) * px (psub target pos)
                         + py (psub target pos) * py (psub target pos))%R).
  { unfold d, norm. real_ops. apply sqrt_sqrt.
    apply Rplus_le_le_0_compat; apply Rle_0_sqr. }
  destruct pos as [x y], target as [tx ty].
  unfold norm, padd, ptimes, pdiv, psub in *. cbn [px py] in *. real_ops.
  replace ((x + (tx - x) / d * budget - x) * (x + (tx - x) / d * budget - x)
           + (y + (ty - y) / d * budget - y) * (y + (ty - y) / d * budget - y))%R
    with ((budget * budget)
          * (((tx - x) * (tx - x) + (ty - y) * (ty - y)) / (d * d)))%R
    by (field; lra).
  rewrite <- Hsq. unfold Rdiv. rewrite Rinv_r by nra.
  rewrite Rmult_1_r. apply sqrt_square. exact Hb.
Qed.

Lemma move_loop_real (path : list (point real_arith)) (fuel : nat)
    (pos : point real_arith) (idx : nat) (budget : R) :
  (0 <= budget)%R -> (budget = 0%R \/ length path - idx <= fuel) ->
  exists pos' idx' budget',
    move_loop fuel path pos idx budget = Returns (pos', idx', budget') /\
    idx <= idx' /\ idx' <= Nat.max idx (length path - 1) /\
    (0 <= budget' <= budget)%R /\
    (budget' = 0%R \/ length path - 1 <= idx') /\
    plen (pos :: firstn (idx' - idx) (skipn (idx + 1) path) ++ [pos'])
    = (budget - budget')%R.
Proof.
  revert pos idx budget.
  assert (Hstop : forall fuel pos idx budget,
            (Rltb 0 budget && (idx <? length path - 1)%nat = false) ->
            (0 <= budget)%R ->
            exists pos' idx' budget',
              move_loop fuel path pos idx budget = Returns (pos', idx', budget') /\
              idx <= idx' /\ idx' <= Nat.max idx (length path - 1) /\
              (0 <= budget' <= budget)%R /\
              (budget' = 0%R \/ length path - 1 <= idx') /\
              plen (pos :: firstn (idx' - idx) (skipn (idx + 1) path) ++ [pos'])
              = (budget - budget')%R).
  { intros fuel' pos idx budget Hc Hb. exists pos, idx, budget.
    split; [destruct fuel'; cbn [move_loop]; unfold zero; real_ops;
            rewrite Hc; reflexivity|].
    split; [lia|]. split; [lia|]. split; [lra|]. split.
    - apply andb_false_iff in Hc. destruct Hc as [Hc|Hc].
      + left. apply Rltb_false in Hc. lra.
      + right. apply Nat.ltb_ge in Hc. exact Hc.
    - rewrite Nat.sub_diag. cbn [firstn app plen].
      unfold dist_from, norm, psub. cbn [px py]. real_ops.
      replace (px pos - px pos)%R with 0%R by ring.
      replace (py pos - py pos)%R with 0%R by ring.
      rewrite Rmult_0_l, Rplus_0_l, sqrt_0. lra. }
  induction fuel as [|fuel IH]; intros pos idx budget Hb Hfuel.
  - apply Hstop; [|exact Hb]. apply andb_false_iff.
    destruct Hfuel as [->|Hlen].
    + left. apply Rltb_false. lra.
    + right. apply Nat.ltb_ge. lia.
  - destruct (Rltb 0 budget && (idx <? length path - 1)%nat) eqn:Hc;
      [|apply Hstop; assumption].
    apply andb_true_iff in Hc. destruct Hc as (Hpos & Hidx).
    apply Rltb_true in Hpos.
    apply Nat.ltb_lt in Hidx.
    cbn [move_loop]. unfold zero at 1. real_ops.
    replace (Rltb 0 budget) with true by (symmetry; apply Rltb_true; exact Hpos).
    replace (idx <? length path - 1)%nat with true
      by (symmetry; apply Nat.ltb_lt; exact Hidx).
    cbn [andb].
    set (target := at_ path (idx + 1)).
    change (norm (psub target pos)) with (dist_from pos target).
    assert (Hskip : skipn (idx + 1) path = target :: skipn (idx + 2) path).
    { unfold target, at_.
      rewrite <- (firstn_skipn (idx + 1) path) at 2.
      rewrite app_nth2 by (rewrite length_firstn; lia).
      rewrite length_firstn, Nat.min_l, Nat.sub_diag by lia.
      replace (idx + 2) with (S (idx + 1)) by lia.
      destruct (skipn (idx + 1) path) as [|q rest] eqn:E.
      - apply (f_equal (@length _)) in E. rewrite length_skipn in E.
        simpl in E. lia.
      - cbn [nth]. f_equal.
        replace (S (idx + 1)) with (1 + (idx + 1)) by lia.
        rewrite <- skipn_skipn, E. reflexivity. }
    destruct (Rleb (dist_from pos target) budget) eqn:Hd.
    + apply Rleb_true in Hd. pose proof (dist_from_nonneg pos target) as Hd0.
      destruct (IH target (idx + 1) (budget - dist_from pos target)%R)
        as (pos' & idx' & budget' & Hrun & Hlo & Hhi & Hbud & Hend & Hlen);
        [lra|right; destruct Hfuel as [->|Hf]; [lra|lia]|].
      exists pos', idx', budget'. split; [exact Hrun|].
      split; [lia|]. split; [lia|]. split; [lra|]. split; [exact Hend|].
      rewrite Hskip. replace (idx' - idx) with (S (idx' - (idx + 1))) by lia.
      cbn [firstn app].
      replace (idx + 1 + 1) with (idx + 2) in Hlen by lia.
      change (plen (pos :: target :: firstn (idx' - (idx + 1))
                                      (skipn (idx + 2) path) ++ [pos']))
        with (dist_from pos target
              + plen (target :: firstn (idx' - (idx + 1))
                                  (skipn (idx + 2) path) ++ [pos']))%R.
      rewrite Hlen. lra.
    + apply Rleb_false in Hd.
      set (pos1 := padd pos (ptimes (pdiv (psub target pos)
                                          (dist_from pos target)) budget)).
      assert (Hret : move_loop fuel path pos1 idx 0%R = Returns (pos1, idx, 0%R)).
      { destruct fuel; cbn [move_loop]; unfold zero; real_ops;
          replace (Rltb 0 0) with false by (symmetry; apply Rltb_false; lra);
          reflexivity. }
      exists pos1, idx, 0%R. split; [exact Hret|].
      split; [lia|]. split; [lia|]. split; [lra|]. split; [left; reflexivity|].
      rewrite Nat.sub_diag. cbn [firstn app plen].
      unfold pos1, dist_from at 2.
      rewrite (partial_move_length pos target budget); lra.
Qed.

(** X19: in exact arithmetic the loop of [step] that moves the robot
    returns within the turns it is given; [path_idx] does not go down nor
    past the end of the path; the budget left is not negative and is zero
    unless the end of the path is reached; the polyline from the old
    position through the path points passed to the new position is as long
    as the budget spent, so that the robot is displaced by no more than
    that. *)
Theorem move_loop_spends (path : list (point real_arith))
    (pos : point real_arith) (idx : nat) (dist_budget : R) :
  (0 <= dist_budget)%R ->
  exists pos' idx' unspent,
    move_loop (A:=real_arith) (length path + 1) path pos idx dist_budget
    = Returns (pos', idx', unspent) /\
    idx <= idx' /\ idx' <= Nat.max idx (length path - 1) /\
    (0 <= unspent <= dist_budget)%R /\
    (unspent = 0%R \/ length path - 1 <= idx') /\
    path_distance (pos :: firstn (idx' - idx) (skipn (idx + 1) path) ++ [pos'])
    = (dist_budget - unspent)%R /\
    (dist_from pos pos' <= dist_budget - unspent)%R.
Proof.
  intros Hb.
  destruct (move_loop_real path (length path + 1) pos idx dist_budget Hb)
    as (pos' & idx' & unspent & Hrun & Hlo & Hhi & Hbud & Hend & Hlen);
    [right; lia|].
  exists pos', idx', unspent. split; [exact Hrun|]. split; [exact Hlo|].
  split; [exact Hhi|]. split; [exact Hbud|]. split; [exact Hend|].
  rewrite path_distance_plen. split; [exact Hlen|].
  pose proof (plen_straight
                (firstn (idx' - idx) (skipn (idx + 1) path) ++ [pos']) pos)
    as Hst.
  rewrite last_last in Hst. lra.
Qed.

(** X19 on a path of three points, with a budget of 3/2. *)
Lemma move_loop_spends_witness :
  let path : list (point real_arith) :=
    [@mkpt real_arith 0%R 0%R; @mkpt real_arith 1%R 0%R;
     @mkpt real_arith 1%R 1%R] in
  let pos : point real_arith := @mkpt real_arith 0%R 0%R in
  (0 <= 3 / 2)%R /\
  exists pos' idx' unspent,
    move_loop (A:=real_arith) (length path + 1) path pos 0 (3 / 2)%R
    = Returns (pos', idx', unspent) /\
    0 <= idx' /\ idx' <= Nat.max 0 (length path - 1) /\
    (0 <= unspent <= 3 / 2)%R /\
    (unspent = 0%R \/ length path - 1 <= idx') /\
    path_distance (pos :: firstn (idx' - 0) (skipn (0 + 1) path) ++ [pos'])
    = (3 / 2 - unspent)%R /\
    (dist_from pos pos' <= 3 / 2 - unspent)%R.
Proof.
  cbv zeta. split; [lra|]. apply move_loop_spends. lra.
Defined.

(** ** Planning from the state, in exact arithmetic *)

Section SimulationFacts.

Context {A : Arith} {Pw : Pow A}.
Variable arctan2 : num -> num -> num.

(** [_set_initial_heading] assigns to the heading and to nothing else. *)
Lemma _set_initial_heading_only (s : sim_state) :
  exists h, _set_initial_heading arctan2 s = set_robot_heading h s.
Proof.
  assert (Hsame : s = set_robot_heading (st_robot_heading s) s)
    by (destruct s; reflexivity).
  unfold _set_initial_heading.
  destruct (st_smooth_path s) as [path|]; [|eexists; exact Hsame].
  destruct (1 <? length path)%nat; [|eexists; exact Hsame].
  destruct (nltb eps_heading _); eexists; [reflexivity|exact Hsame].
Qed.

Lemma _ball_array_uncollected (s : sim_state) :
  st_collected s = [] -> _ball_array s = st_balls s.
Proof.
  intros Hc. unfold _ball_array. rewrite Hc.
  cbn [is_collected ListSet.set_mem negb].
  rewrite filter_true. apply map_nth_range.
Qed.

End SimulationFacts.

(** What [do_replan] leaves, in exact arithmetic. *)
Lemma do_replan_facts (arctan2 : R -> R -> R) (s : sim_state (A:=real_arith)) :
  exists sweeps s',
    (forall fuel, sweeps <= fuel ->
       do_replan (A:=real_arith) arctan2 fuel s = Returns s') /\
    st_robot_pos s' = st_robot_pos s /\ st_balls s' = st_balls s /\
    st_collected s' = st_collected s /\ st_phase s' = st_phase s /\
    st_paused s' = st_paused s /\ st_trail s' = st_trail s /\
    (_ball_array s = [] ->
     st_status s' = Done /\ st_smooth_path s' = None /\
     st_replan_count s' = st_replan_count s) /\
    (_ball_array s <> [] ->
     st_status s' = Executing /\ st_path_idx s' = 0 /\
     st_replan_count s' = (st_replan_count s + 1)%Z /\
     exists path, st_smooth_path s' = Some path /\
                  hd_error path = Some (st_robot_pos s) /\
                  21 <= length path).
Proof.
  unfold do_replan.
  destruct (_ball_array s) as [|b0 bs] eqn:Hballs.
  - exists 0. eexists. split; [intros fuel _; reflexivity|]. sim_fields.
    repeat split; congruence.
  - cbn [length Nat.eqb].
    assert (Hne : b0 :: bs <> []) by discriminate.
    destruct (st_phase s =? 1)%Z.
    + destruct (plan_nearest_cluster_real (b0 :: bs) (st_robot_pos s)
                  (@DEFAULT_CLUSTER_RADIUS real_arith) Hne)
        as (plan & Hplan & _ & Hlen & Hhd & Hpath).
      rewrite Hplan. cbn [bind].
      match goal with
      | |- context [@_set_initial_heading real_arith arctan2 ?t] =>
          destruct (_set_initial_heading_only (A:=real_arith) arctan2 t) as (h & ->)
      end.
      exists 0. eexists. split; [intros fuel _; reflexivity|]. sim_fields.
      destruct (smooth_path_starts (nc_waypoints plan) 20 Hlen ltac:(lia))
        as (Hstart & Hcount).
      repeat split; try congruence.
      exists (nc_path plan). split; [reflexivity|]. rewrite Hpath.
      split; [congruence|lia].
    + destruct (plan_full_sweep_real (b0 :: bs) (st_robot_pos s) Hne)
        as (sweeps & plan & Hplan & _ & Hlen & _ & Hhd & _ & Hpath).
      destruct (_set_initial_heading_only (A:=real_arith) arctan2
                  (set_replan_count (st_replan_count s + 1)%Z
                     (set_path_idx 0
                        (set_smooth_path (Some (opt_path plan))
                           (set_opt_path (Some (opt_path plan))
                              (set_nn_path (Some (nn_path plan))
                                 (set_plan (Some (SweepPlan plan)) s)))))))
        as (h & Hh).
      exists sweeps. eexists. split.
      { intros fuel Hfuel. rewrite (Hplan fuel Hfuel). cbn [bind].
        sim_fields. rewrite Hh. reflexivity. }
      sim_fields.
      destruct (smooth_path_starts (opt_waypoints plan) 20 Hlen ltac:(lia))
        as (Hstart & Hcount).
      repeat split; try congruence.
      exists (opt_path plan). split; [reflexivity|]. rewrite Hpath.
      split; [congruence|lia].
Qed.


(** X20: in exact arithmetic [do_plan] returns (given enough sweeps of
    2-opt), leaving the robot, the balls, the marks, the phase and the
    count of replans as they are.  Without uncollected balls it leaves the
    status done and the plan and the paths cleared; with some, a path of at
    least 21 points that begins at the robot, [path_idx] 0 and a trail of
    the robot's position, the status executing in phase 1 and, in the other
    phase, comparing, with the timer at [COMPARISON_PAUSE_SEC] and both
    paths kept for display. *)
Theorem do_plan_real (arctan2 : R -> R -> R) (s : sim_state (A:=real_arith)) :
  exists sweeps s',
    (forall fuel, sweeps <= fuel ->
       do_plan (A:=real_arith) arctan2 fuel s = Returns s') /\
    st_robot_pos s' = st_robot_pos s /\ st_balls s' = st_balls s /\
    st_collected s' = st_collected s /\ st_phase s' = st_phase s /\
    st_paused s' = st_paused s /\ st_replan_count s' = st_replan_count s /\
    (_ball_array s = [] ->
     st_status s' = Done /\ st_plan s' = None /\ st_smooth_path s' = None /\
     st_nn_path s' = None /\ st_opt_path s' = None) /\
    (_ball_array s <> [] ->
     st_path_idx s' = 0 /\ st_trail s' = [st_robot_pos s] /\
     (exists path, st_smooth_path s' = Some path /\
                   hd_error path = Some (st_robot_pos s) /\
                   21 <= length path) /\
     (st_phase s = 1%Z ->
      st_status s' = Executing /\ st_nn_path s' = None /\
      st_opt_path s' = None) /\
     (st_phase s <> 1%Z ->
      st_status s' = Comparing /\
      st_comparison_timer s' = @COMPARISON_PAUSE_SEC real_arith /\
      st_opt_path s' = st_smooth_path s' /\ st_nn_path s' <> None)).
Proof.
  unfold do_plan.
  destruct (_ball_array s) as [|b0 bs] eqn:Hballs.
  - exists 0. eexists. split; [intros fuel _; reflexivity|]. sim_fields.
    repeat split; congruence.
  - cbn [length Nat.eqb].
    assert (Hne : b0 :: bs <> []) by discriminate.
    destruct (Z.eqb_spec (st_phase s) 1) as [Hph|Hph].
    + destruct (plan_nearest_cluster_real (b0 :: bs) (st_robot_pos s)
                  (@DEFAULT_CLUSTER_RADIUS real_arith) Hne)
        as (plan & Hplan & _ & Hlen & Hhd & Hpath).
      rewrite Hplan. cbn [bind].
      match goal with
      | |- context [@_set_initial_heading real_arith arctan2 ?t] =>
          destruct (_set_initial_heading_only (A:=real_arith) arctan2 t)
            as (h & ->)
      end.
      exists 0. eexists. split; [intros fuel _; reflexivity|]. sim_fields.
      destruct (smooth_path_starts (nc_waypoints plan) 20 Hlen ltac:(lia))
        as (Hstart & Hcount).
      split; [reflexivity|]. split; [reflexivity|]. split; [reflexivity|].
      split; [reflexivity|]. split; [reflexivity|]. split; [reflexivity|].
      split; [congruence|]. intros _.
      split; [reflexivity|]. split; [reflexivity|]. split.
      { exists (nc_path plan). split; [reflexivity|]. rewrite Hpath.
        split; [congruence|lia]. }
      split; [auto|congruence].
    + destruct (plan_full_sweep_real (b0 :: bs) (st_robot_pos s) Hne)
        as (sweeps & plan & Hplan & _ & Hlen & _ & Hhd & _ & Hpath).
      destruct (_set_initial_heading_only (A:=real_arith) arctan2
                  (set_trail [st_robot_pos s]
                     (set_path_idx 0
                        (set_smooth_path (Some (opt_path plan))
                           (set_opt_path (Some (opt_path plan))
                              (set_nn_path (Some (nn_path plan))
                                 (set_plan (Some (SweepPlan plan)) s)))))))
        as (h & Hh).
      exists sweeps. eexists. split.
      { intros fuel Hfuel. rewrite (Hplan fuel Hfuel). cbn [bind].
        sim_fields. rewrite Hh. reflexivity. }
      sim_fields.
      destruct (smooth_path_starts (opt_waypoints plan) 20 Hlen ltac:(lia))
        as (Hstart & Hcount).
      split; [reflexivity|]. split; [reflexivity|]. split; [reflexivity|].
      split; [reflexivity|]. split; [reflexivity|]. split; [reflexivity|].
      split; [congruence|]. intros _.
      split; [reflexivity|]. split; [reflexivity|]. split.
      { exists (opt_path plan). split; [reflexivity|]. rewrite Hpath.
        split; [congruence|lia]. }
      split; [congruence|]. intros _.
      split; [reflexivity|]. split; [reflexivity|].
      split; [reflexivity|discriminate].
Qed.


(** ** One step *)

Lemma subseq_filter {T : Type} (f : T -> bool) (l : list T) :
  subseq (filter f l) l.
Proof.
  induction l as [|x l IH]; [constructor|].
  cbn [filter]. destruct (f x); constructor; exact IH.
Qed.

Lemma collect_balls_subseq {A : Arith} (balls : list (point A))
    (collected : ListSet.set nat) (pos : point A) :
  subseq (fst (collect_balls balls collected pos)) balls.
Proof.
  rewrite collect_balls_fst.
  apply (subseq_trans _ (map (at_ balls) (range 0 (length balls)))).
  - apply (subseq_map (at_ balls)). apply subseq_filter.
  - unfold at_. rewrite map_nth_range. apply subseq_refl.
Qed.

Lemma ROBOT_SPEED_pos : (0 < @ROBOT_SPEED real_arith)%R.
Proof. unfold ROBOT_SPEED. real_ops. lra. Qed.

(** X21: in exact arithmetic and for a time step that is not negative,
    [step] returns (given enough sweeps of 2-opt for a replan); the robot
    is displaced by at most [ROBOT_SPEED * dt]; the balls left are a
    subsequence of the balls before; the phase and the pause are kept; a
    state that is paused, idle, done or planning is left as it is; from
    comparing the status stays or becomes executing, from executing it
    stays or becomes done; the count of replans goes up by one at most;
    and when the robot follows a path that is not finished, nothing being
    marked collected, no ball is left within [COLLECTION_RADIUS] of the
    position it reaches. *)
Theorem step_real (arctan2 : R -> R -> R) (dt : R)
    (s : sim_state (A:=real_arith)) :
  (0 <= dt)%R ->
  exists sweeps s',
    (forall fuel, sweeps <= fuel ->
       step (A:=real_arith) arctan2 fuel dt s = Returns s') /\
    (dist_from (st_robot_pos s) (st_robot_pos s') <= @ROBOT_SPEED real_arith * dt)%R /\
    subseq (st_balls s') (st_balls s) /\
    st_phase s' = st_phase s /\ st_paused s' = st_paused s /\
    (st_paused s = true \/ st_status s = Idle \/ st_status s = Done
     \/ st_status s = Planning -> s' = s) /\
    (st_status s = Comparing ->
     st_status s' = Comparing \/ st_status s' = Executing) /\
    (st_status s = Executing ->
     st_status s' = Executing \/ st_status s' = Done) /\
    (st_replan_count s <= st_replan_count s' <= st_replan_count s + 1)%Z /\
    (forall path,
       st_paused s = false -> st_status s = Executing ->
       st_smooth_path s = Some path -> st_path_idx s < length path - 1 ->
       st_collected s = [] ->
       forall b, In b (st_balls s') ->
         (@COLLECTION_RADIUS real_arith <= dist_from (st_robot_pos s') b)%R).
Proof.
  intros Hdt.
  assert (Hspeed : (0 <= @ROBOT_SPEED real_arith * dt)%R).
  { apply Rmult_le_pos; [left; apply ROBOT_SPEED_pos|exact Hdt]. }
  assert (Hsame : forall s0 : sim_state (A:=real_arith),
            (dist_from (st_robot_pos s0) (st_robot_pos s0)
             <= @ROBOT_SPEED real_arith * dt)%R /\
            subseq (st_balls s0) (st_balls s0) /\
            (st_replan_count s0 <= st_replan_count s0
             <= st_replan_count s0 + 1)%Z).
  { intros s0. rewrite dist_from_self.
    split; [exact Hspeed|]. split; [apply subseq_refl|lia]. }
  unfold step.
  destruct (st_paused s) eqn:Hpaused.
  { exists 0, s. cbn [orb]. destruct (Hsame s) as (H1 & H2 & H3).
    split; [reflexivity|].
    repeat split; auto; try lia; intros; congruence. }
  destruct (st_status s) eqn:Hstatus; cbn [orb status_eqb negb].
  - (* idle *)
    exists 0, s. destruct (Hsame s) as (H1 & H2 & H3).
    split; [reflexivity|].
    repeat split; auto; try lia; intros; congruence.
  - (* planning *)
    exists 0, s. destruct (Hsame s) as (H1 & H2 & H3).
    split; [reflexivity|].
    repeat split; auto; try lia; intros; congruence.
  - (* comparing *)
    destruct (Hsame s) as (H1 & H2 & H3). sim_fields.
    destruct (nleb (nsub (st_comparison_timer s) dt) zero);
      (eexists 0, _; split; [reflexivity|]); sim_fields;
      (split; [exact H1|]); (split; [exact H2|]);
      (split; [reflexivity|]); (split; [congruence|]);
      (split; [intros [H|[H|[H|H]]]; discriminate|]);
      (split; [auto|]); (split; [intros H; discriminate|]);
      (split; [lia|intros; discriminate]).
  - (* executing *)
    destruct (st_smooth_path s) as [path|] eqn:Hpath.
    2:{ exists 0, s. destruct (Hsame s) as (H1 & H2 & H3).
        split; [reflexivity|].
        repeat split; auto; try lia; intros; congruence. }
    destruct (Nat.leb_spec (length path - 1) (st_path_idx s)) as [Hfin|Hgo].
    { eexists 0, _. destruct (Hsame s) as (H1 & H2 & H3).
      split; [reflexivity|]. sim_fields.
      split; [exact H1|]. split; [exact H2|]. split; [reflexivity|].
      split; [congruence|].
      split; [intros [H|[H|[H|H]]]; discriminate|].
      split; [intros H; discriminate|]. split; [auto|]. split; [lia|].
      intros path' _ _ E Hidx. injection E as <-. lia. }
    destruct (move_loop_real path (length path + 1) (st_robot_pos s)
                (st_path_idx s) (@ROBOT_SPEED real_arith * dt)%R Hspeed)
      as (pos & idx & budget & Hmove & Hlo & Hhi & Hbud & Hend & Hlen);
      [right; lia|].
    assert (Hmoved : (dist_from (st_robot_pos s) pos
                      <= @ROBOT_SPEED real_arith * dt)%R).
    { pose proof (plen_straight
                    (firstn (idx - st_path_idx s)
                            (skipn (st_path_idx s + 1) path) ++ [pos])
                    (st_robot_pos s)) as Hst.
      rewrite last_last in Hst. lra. }
    real_ops. rewrite Hmove. cbn [bind].
    match goal with
    | |- context [set_trail ?t ?u] => set (s3 := set_trail t u)
    end.
    assert (Hs3 : st_robot_pos s3 = pos /\ st_balls s3 = st_balls s /\
                  st_collected s3 = st_collected s /\
                  st_phase s3 = st_phase s /\ st_paused s3 = st_paused s /\
                  st_status s3 = Executing /\
                  st_replan_count s3 = st_replan_count s).
    { unfold s3.
      destruct (idx <? length path - 1)%nat;
        [destruct (Rltb _ _)|]; sim_fields;
        repeat split; try reflexivity; assumption. }
    destruct Hs3 as (Hp3 & Hb3 & Hc3 & Hph3 & Hpa3 & Hst3 & Hrc3).
    destruct (collect_balls (st_balls s3) (st_collected s3) pos)
      as [balls' collected'] eqn:Hcol.
    set (s4 := set_collected collected' (set_balls balls' s3)).
    assert (Hsub : subseq balls' (st_balls s)).
    { pose proof (collect_balls_subseq (st_balls s3) (st_collected s3) pos)
        as H. rewrite Hcol, Hb3 in H. exact H. }
    assert (Hfar : st_collected s = [] ->
              forall b, In b balls' ->
                (@COLLECTION_RADIUS real_arith <= dist_from pos b)%R).
    { intros Hnone b Hb. rewrite Hc3, Hnone, collect_balls_uncollected in Hcol.
      injection Hcol as <- _. apply filter_In in Hb. destruct Hb as (_ & Hb).
      apply negb_true_iff in Hb. real_ops. apply Rltb_false in Hb. exact Hb. }
    assert (Hs4 : st_robot_pos s4 = pos /\ st_balls s4 = balls' /\
                  st_phase s4 = st_phase s /\ st_paused s4 = st_paused s /\
                  st_status s4 = Executing /\
                  st_replan_count s4 = st_replan_count s).
    { unfold s4. sim_fields. repeat split; try reflexivity; assumption. }
    destruct Hs4 as (Hp4 & Hb4 & Hph4 & Hpa4 & Hst4 & Hrc4).
    destruct (length path - 1 <=? idx)%nat.
    + destruct ((0 <? length (_ball_array s4))%nat
                && ((st_phase s4 =? 1)%Z || (st_phase s4 =? 2)%Z)).
      * destruct (do_replan_facts arctan2 s4)
          as (sweeps & s' & Hrun & Hrp & Hrb & _ & Hrph & Hrpa & _
              & Hnil & Hsome).
        exists sweeps, s'. split; [exact Hrun|].
        rewrite Hrp, Hrb, Hrph, Hrpa, Hp4, Hb4, Hph4, Hpa4.
        split; [exact Hmoved|]. split; [exact Hsub|].
        split; [reflexivity|]. split; [congruence|].
        split; [intros [H|[H|[H|H]]]; discriminate|].
        split; [intros H; discriminate|].
        destruct (_ball_array s4) as [|b0 bs] eqn:E.
        -- destruct (Hnil eq_refl) as (Hd & _ & Hrc).
           split; [intros _; right; exact Hd|]. split; [lia|].
           intros path' _ _ _ _ Hnone. apply Hfar. exact Hnone.
        -- destruct (Hsome ltac:(discriminate)) as (He & _ & Hrc & _).
           split; [intros _; left; exact He|]. split; [lia|].
           intros path' _ _ _ _ Hnone. apply Hfar. exact Hnone.
      * eexists 0, _. split; [reflexivity|]. sim_fields.
        rewrite Hp4, Hb4, Hph4, Hpa4, Hrc4.
        split; [exact Hmoved|]. split; [exact Hsub|].
        split; [reflexivity|]. split; [congruence|].
        split; [intros [H|[H|[H|H]]]; discriminate|].
        split; [intros H; discriminate|]. split; [auto|]. split; [lia|].
        intros path' _ _ _ _ Hnone. apply Hfar. exact Hnone.
    + exists 0, s4. split; [reflexivity|].
      rewrite Hp4, Hb4, Hph4, Hpa4, Hst4, Hrc4.
      split; [exact Hmoved|]. split; [exact Hsub|].
      split; [reflexivity|]. split; [congruence|].
      split; [intros [H|[H|[H|H]]]; discriminate|].
      split; [intros H; discriminate|]. split; [auto|]. split; [lia|].
      intros path' _ _ _ _ Hnone. apply Hfar. exact Hnone.
  - (* done *)
    exists 0, s. destruct (Hsame s) as (H1 & H2 & H3).
    split; [reflexivity|].
    repeat split; auto; try lia; intros; congruence.
Qed.

(** X21 from the initial state, at 30 frames a second. *)
Lemma step_real_witness :
  let s : sim_state (A:=real_arith) := reset in
  (0 <= 1 / 30)%R /\
  exists sweeps s',
    (forall fuel, sweeps <= fuel ->
       step (A:=real_arith) (fun _ _ => 0%R) fuel (1 / 30)%R s = Returns s') /\
    (dist_from (st_robot_pos s) (st_robot_pos s')
     <= @ROBOT_SPEED real_arith * (1 / 30))%R /\
    subseq (st_balls s') (st_balls s) /\
    st_phase s' = st_phase s /\ st_paused s' = st_paused s /\
    (st_paused s = true \/ st_status s = Idle \/ st_status s = Done
     \/ st_status s = Planning -> s' = s) /\
    (st_status s = Comparing ->
     st_status s' = Comparing \/ st_status s' = Executing) /\
    (st_status s = Executing ->
     st_status s' = Executing \/ st_status s' = Done) /\
    (st_replan_count s <= st_replan_count s' <= st_replan_count s + 1)%Z /\
    (forall path,
       st_paused s = false -> st_status s = Executing ->
       st_smooth_path s = Some path -> st_path_idx s < length path - 1 ->
       st_collected s = [] ->
       forall b, In b (st_balls s') ->
         (@COLLECTION_RADIUS real_arith <= dist_from (st_robot_pos s') b)%R).
Proof.
  cbv zeta. split; [lra|]. apply step_real. lra.
Defined.

(** ** Clicks *)

Lemma in_shift_collected (C : ListSet.set nat) (nearest j : nat) :
  In j (shift_collected C nearest) <->
  exists i, In i C /\ i <> nearest /\
            j = (if (nearest <? i)%nat then i - 1 else i).
Proof.
  unfold shift_collected.
  enough (H : forall acc,
            In j (fold_left
                    (fun acc i =>
                       if (i <? nearest)%nat
                       then ListSet.set_add Nat.eq_dec i acc
                       else if (nearest <? i)%nat
                            then ListSet.set_add Nat.eq_dec (i - 1) acc
                            else acc) C acc) <->
            In j acc \/
            exists i, In i C /\ i <> nearest /\
                      j = (if (nearest <? i)%nat then i - 1 else i)).
  { rewrite H. split; [intros [[]|H']; exact H'|intros H'; right; exact H']. }
  induction C as [|c C IH]; intros acc; cbn [fold_left].
  - split; [intros H; left; exact H|intros [H|(i & [] & _)]; exact H].
  - rewrite IH. clear IH.
    destruct (Nat.ltb_spec c nearest) as [Hlt|Hge].
    + rewrite ListSet.set_add_iff. split.
      * intros [[->|H]|(i & Hi & H)].
        -- right. exists c. split; [left; reflexivity|]. split; [lia|].
           destruct (Nat.ltb_spec nearest c); [lia|reflexivity].
        -- left. exact H.
        -- right. exists i. split; [right; exact Hi|exact H].
      * intros [H|(i & [<-|Hi] & Hn & Hj)].
        -- left. right. exact H.
        -- left. left. destruct (Nat.ltb_spec nearest c); [lia|exact Hj].
        -- right. exists i. auto.
    + destruct (Nat.ltb_spec nearest c) as [Hlt|Hle].
      * rewrite ListSet.set_add_iff. split.
        -- intros [[->|H]|(i & Hi & H)].
           ++ right. exists c. split; [left; reflexivity|]. split; [lia|].
              destruct (Nat.ltb_spec nearest c); [reflexivity|lia].
           ++ left. exact H.
           ++ right. exists i. split; [right; exact Hi|exact H].
        -- intros [H|(i & [<-|Hi] & Hn & Hj)].
           ++ left. right. exact H.
           ++ left. left. destruct (Nat.ltb_spec nearest c); [exact Hj|lia].
           ++ right. exists i. auto.
      * assert (c = nearest) by lia. subst c. split.
        -- intros [H|(i & Hi & H)]; [left; exact H|].
           right. exists i. split; [right; exact Hi|exact H].
        -- intros [H|(i & [<-|Hi] & Hn & Hj)]; [left; exact H|congruence|].
           right. exists i. auto.
Qed.

Lemma at_pop_ball {A : Arith} (balls : list (point A)) (k i : nat) :
  k < length balls -> i <> k ->
  at_ (pop_ball balls k) (if (k <? i)%nat then i - 1 else i) = at_ balls i.
Proof.
  intros Hk Hne. unfold at_, pop_ball.
  rewrite <- (firstn_skipn k balls) at 3.
  assert (Hlen : length (firstn k balls) = k)
    by (rewrite length_firstn; lia).
  destruct (Nat.ltb_spec k i) as [Hlt|Hge].
  - rewrite !app_nth2 by lia. rewrite Hlen.
    destruct (skipn k balls) as [|b rest] eqn:E.
    + apply (f_equal (@length _)) in E. rewrite length_skipn in E.
      simpl in E. lia.
    + replace (S k) with (1 + k) by lia. rewrite <- skipn_skipn, E.
      cbn [skipn]. replace (i - k) with (S (i - 1 - k)) by lia. reflexivity.
  - rewrite !app_nth1 by lia. reflexivity.
Qed.

(** X22: [on_click] never raises and changes nothing but the balls and the
    marks; a click outside the axes, without coordinates or with another
    button than 1 or 3 changes nothing, and a click of button 1 appends the
    ball clicked (in any arithmetic).  In exact arithmetic a click of
    button 3 changes nothing when no ball is within [REMOVE_RADIUS] of it,
    and otherwise pops one ball, which is within [REMOVE_RADIUS] and which
    no ball is nearer the click than; the marks are remapped as [step]
    remaps them, and stay on their balls. *)
Theorem on_click_effect :
  (forall (A : Arith) (event : click) (s : sim_state),
      exists s',
        on_click event s = Returns s' /\
        s' = set_collected (st_collected s') (set_balls (st_balls s') s) /\
        (inaxes event = false \/ xdata event = None \/ ydata event = None
         \/ (button event <> 1%Z /\ button event <> 3%Z) -> s' = s) /\
        (forall x y, inaxes event = true -> xdata event = Some x ->
           ydata event = Some y -> button event = 1%Z ->
           s' = set_balls (st_balls s ++ [mkpt x y]) s)) /\
  (forall (x y : R) (s : sim_state (A:=real_arith)),
      let at_click : point real_arith := @mkpt real_arith x y in
      exists s',
        on_click (@mkclick real_arith true (Some x) (Some y) 3%Z) s
        = Returns s' /\
        ((forall b, In b (st_balls s) ->
            (@REMOVE_RADIUS real_arith <= dist_from at_click b)%R) ->
         s' = s) /\
        ((exists b, In b (st_balls s) /\
            (dist_from at_click b < @REMOVE_RADIUS real_arith)%R) ->
         exists k,
           k < length (st_balls s) /\
           st_balls s' = pop_ball (st_balls s) k /\
           (dist_from at_click (at_ (st_balls s) k)
            < @REMOVE_RADIUS real_arith)%R /\
           (forall q, In q (st_balls s) ->
              (dist_from at_click (at_ (st_balls s) k)
               <= dist_from at_click q)%R) /\
           (forall j, In j (st_collected s') <->
              exists i, In i (st_collected s) /\ i <> k /\
                        j = (if (k <? i)%nat then i - 1 else i)) /\
           (forall i, i <> k ->
              at_ (st_balls s') (if (k <? i)%nat then i - 1 else i)
              = at_ (st_balls s) i))).
Proof.
  split.
  - intros A event s. unfold on_click.
    assert (Hsame : s = set_collected (st_collected s) (set_balls (st_balls s) s))
      by (destruct s; reflexivity).
    destruct (inaxes event) eqn:Hin; cbn [negb].
    2:{ exists s. repeat split; auto. intros; congruence. }
    destruct (xdata event) as [x|] eqn:Hx.
    2:{ exists s. repeat split; auto. intros; congruence. }
    destruct (ydata event) as [y|] eqn:Hy.
    2:{ exists s. repeat split; auto. intros; congruence. }
    destruct (Z.eqb_spec (button event) 1) as [Hb1|Hb1].
    { eexists. split; [reflexivity|]. sim_fields. split; [reflexivity|].
      split.
      - intros [H|[H|[H|(H & _)]]]; congruence.
      - intros x' y' _ Ex Ey _. congruence. }
    destruct (Z.eqb_spec (button event) 3) as [Hb3|Hb3].
    2:{ exists s. repeat split; auto. intros; congruence. }
    destruct (st_balls s) as [|b0 bs] eqn:Hballs.
    { exists s. repeat split; auto.
      - rewrite Hballs. exact Hsame.
      - intros; congruence. }
    destruct (argmin_returns
                (map (fun b => norm (psub b (mkpt x y))) (b0 :: bs)))
      as (k & Hk & _); [discriminate|].
    rewrite Hk. cbn [bind].
    destruct (nltb _ REMOVE_RADIUS).
    + eexists. split; [reflexivity|]. sim_fields. split; [reflexivity|].
      split.
      * intros [H|[H|[H|(_ & H)]]]; congruence.
      * intros; congruence.
    + exists s. split; [reflexivity|]. rewrite Hballs.
      split; [exact Hsame|].
      split; [reflexivity|intros; congruence].
  - intros x y s. cbv zeta. unfold on_click.
    cbn [inaxes xdata ydata button negb Z.eqb Pos.eqb].
    destruct (st_balls s) as [|b0 bs] eqn:Hballs.
    { exists s. split; [reflexivity|]. split; [reflexivity|].
      intros (b & [] & _). }
    cbv beta iota.
    set (balls := b0 :: bs) in *.
    change (map (fun b : point real_arith =>
                   norm (A:=real_arith) (psub b (@mkpt real_arith x y)))
                balls)
      with (map (dist_from (@mkpt real_arith x y)) balls).
    destruct (argmin_real (map (dist_from (@mkpt real_arith x y)) balls))
      as (k & Hk & Hlt & Hmin & _); [discriminate|].
    rewrite length_map in Hlt.
    rewrite Hk. cbn [bind].
    rewrite (nth_map_in (dist_from (@mkpt real_arith x y)) balls k
               origin 0%R Hlt) in Hmin.
    unfold zero. real_ops.
    rewrite (nth_map_in (dist_from (@mkpt real_arith x y)) balls k
               origin 0%R Hlt).
    assert (Hnear : forall q, In q balls ->
              (dist_from (@mkpt real_arith x y) (at_ balls k)
               <= dist_from (@mkpt real_arith x y) q)%R).
    { intros q Hq. apply Hmin. apply in_map. exact Hq. }
    destruct (Rltb _ (@REMOVE_RADIUS real_arith)) eqn:Hclose.
    + apply Rltb_true in Hclose. eexists. split; [reflexivity|].
      sim_fields. split.
      * intros Hfar. exfalso.
        assert (Hin : In (at_ balls k) balls) by (apply nth_In; exact Hlt).
        specialize (Hfar _ Hin). unfold at_ in Hfar. lra.
      * intros _. exists k. split; [exact Hlt|]. split; [reflexivity|].
        split; [exact Hclose|]. split; [exact Hnear|]. split.
        -- intros j. apply in_shift_collected.
        -- intros i Hi. apply at_pop_ball; assumption.
    + apply Rltb_false in Hclose. exists s. split; [reflexivity|].
      split; [reflexivity|].
      intros (b & Hb & Hd). specialize (Hnear b Hb). unfold at_ in Hnear. lra.
Qed.

(** ** What every state the simulation reaches holds *)

Section InvariantFacts.

Context {A : Arith} {Pw : Pow A}.
Variable arctan2 : num -> num -> num.

Lemma sim_inv_reset : sim_inv reset.
Proof.
  unfold sim_inv, reset. sim_fields.
  split; [reflexivity|]. split; [discriminate|].
  intros [H|H]; discriminate.
Qed.

(** What [do_plan] returns: the marks as they were, and a state that is
    done, or executing or comparing with a plan and a path. *)
Lemma do_plan_returned (fuel : nat) (s s' : sim_state) :
  do_plan arctan2 fuel s = Returns s' ->
  st_collected s' = st_collected s /\
  (st_status s' = Done \/
   (st_status s' = Executing \/ st_status s' = Comparing) /\
   st_plan s' <> None /\ st_smooth_path s' <> None).
Proof.
  unfold do_plan.
  destruct (length (_ball_array s) =? 0)%nat.
  { intros E. injection E as <-. sim_fields. auto. }
  destruct (st_phase s =? 1)%Z.
  - intros H. apply bind_returns in H. destruct H as ([r|] & _ & H).
    + destruct (_set_initial_heading_only arctan2
                  (set_trail [st_robot_pos s]
                     (set_path_idx 0
                        (set_opt_path None
                           (set_nn_path None
                              (set_smooth_path (Some (nc_path r))
                                 (set_plan (Some (NearestPlan r)) s)))))))
        as (h & Hh).
      sim_fields. rewrite Hh in H. injection H as <-. sim_fields.
      split; [reflexivity|]. right.
      split; [left; reflexivity|]. split; discriminate.
    + injection H as <-. sim_fields. auto.
  - intros H. apply bind_returns in H. destruct H as ([r|] & _ & H).
    + destruct (_set_initial_heading_only arctan2
                  (set_trail [st_robot_pos s]
                     (set_path_idx 0
                        (set_smooth_path (Some (opt_path r))
                           (set_opt_path (Some (opt_path r))
                              (set_nn_path (Some (nn_path r))
                                 (set_plan (Some (SweepPlan r)) s)))))))
        as (h & Hh).
      sim_fields. rewrite Hh in H. injection H as <-. sim_fields.
      split; [reflexivity|]. right.
      split; [right; reflexivity|]. split; discriminate.
    + injection H as <-. sim_fields. auto.
Qed.

Lemma do_replan_returned (fuel : nat) (s s' : sim_state) :
  do_replan arctan2 fuel s = Returns s' ->
  st_collected s' = st_collected s /\
  (st_status s' = Done \/
   st_status s' = Executing /\
   st_plan s' <> None /\ st_smooth_path s' <> None).
Proof.
  unfold do_replan.
  destruct (length (_ball_array s) =? 0)%nat.
  { intros E. injection E as <-. sim_fields. auto. }
  intros H. apply bind_returns in H. destruct H as (planned & Hp & H).
  assert (Hplanned :
            match planned with
            | inl s1 => st_collected s1 = st_collected s /\ st_status s1 = Done
            | inr s1 => st_collected s1 = st_collected s /\
                        st_plan s1 <> None /\ st_smooth_path s1 <> None
            end).
  { destruct (st_phase s =? 1)%Z;
      apply bind_returns in Hp; destruct Hp as ([r|] & _ & Hp);
      injection Hp as <-; sim_fields;
      repeat split; try reflexivity; discriminate. }
  destruct planned as [s1|s1].
  - injection H as <-. destruct Hplanned as (Hc & Hd). auto.
  - destruct Hplanned as (Hc & Hpl & Hsm).
    destruct (_set_initial_heading_only arctan2
                (set_replan_count (st_replan_count (set_path_idx 0 s1) + 1)%Z
                   (set_path_idx 0 s1))) as (h & Hh).
    rewrite Hh in H. injection H as <-. sim_fields.
    split; [exact Hc|]. right. auto.
Qed.

Lemma step_keeps (fuel : nat) (dt : num) (s s' : sim_state) :
  sim_inv s -> step arctan2 fuel dt s = Returns s' -> sim_inv s'.
Proof.
  intros Hinv. pose proof Hinv as (Hc & Hnp & Hpath). unfold step.
  destruct (st_paused s); cbn [orb].
  { intros E. injection E as <-. exact Hinv. }
  destruct (st_status s) eqn:Hstatus; cbn [orb status_eqb negb].
  - (* idle *)
    intros E. injection E as <-. exact Hinv.
  - (* planning *)
    congruence.
  - (* comparing *)
    destruct (Hpath (or_intror eq_refl)) as (Hpl & Hsm).
    cbv zeta. sim_fields.
    destruct (nleb (nsub (st_comparison_timer s) dt) zero);
      intros E; injection E as <-;
      unfold sim_inv; sim_fields; rewrite ?Hstatus;
      (split; [exact Hc|]); (split; [discriminate|]); auto.
  - (* executing *)
    destruct (Hpath (or_introl eq_refl)) as (Hpl & Hsm).
    destruct (st_smooth_path s) as [path|] eqn:Hsmooth; [|congruence].
    destruct (length path - 1 <=? st_path_idx s)%nat.
    { intros E. injection E as <-. sim_fields.
      split; [exact Hc|]. split; [discriminate|].
      intros [H|H]; discriminate. }
    intros H. apply bind_returns in H.
    destruct H as ([[pos idx] budget] & _ & H).
    match type of H with
    | context [set_trail ?t ?u] => set (s3 := set_trail t u) in H
    end.
    assert (Hs3 : st_balls s3 = st_balls s /\ st_collected s3 = [] /\
                  st_status s3 = Executing /\ st_plan s3 = st_plan s /\
                  st_smooth_path s3 = Some path).
    { unfold s3.
      destruct (idx <? length path - 1)%nat;
        [destruct (nltb eps_heading _)|]; sim_fields;
        repeat split; try reflexivity; assumption. }
    destruct Hs3 as (Hb3 & Hc3 & Hst3 & Hpl3 & Hsm3).
    rewrite Hc3, collect_balls_uncollected in H.
    match type of H with
    | context [set_collected [] ?u] => set (s4 := set_collected [] u) in H
    end.
    assert (Hs4 : st_collected s4 = [] /\ st_status s4 = Executing /\
                  st_plan s4 = st_plan s /\ st_smooth_path s4 = Some path).
    { unfold s4. sim_fields. repeat split; try reflexivity; assumption. }
    destruct Hs4 as (Hc4 & Hst4 & Hpl4 & Hsm4).
    destruct (length path - 1 <=? idx)%nat.
    + destruct ((0 <? length (_ball_array s4))%nat
                && ((st_phase s4 =? 1)%Z || (st_phase s4 =? 2)%Z)).
      * apply do_replan_returned in H. destruct H as (Hcr & Hr).
        split; [congruence|].
        destruct Hr as [Hd|(He & Hp & Hs)].
        -- rewrite Hd. split; [discriminate|]. intros [E|E]; discriminate.
        -- rewrite He. split; [discriminate|]. auto.
      * injection H as <-. sim_fields.
        split; [exact Hc4|]. split; [discriminate|].
        intros [E|E]; discriminate.
    + injection H as <-.
      split; [exact Hc4|]. rewrite Hst4. split; [discriminate|].
      intros _. rewrite Hpl4, Hsm4. split; [exact Hpl|discriminate].
  - (* done *)
    intros E. injection E as <-. exact Hinv.
Qed.

Lemma on_click_keeps (event : click) (s s' : sim_state) :
  sim_inv s -> on_click event s = Returns s' -> sim_inv s'.
Proof.
  intros Hinv. pose proof Hinv as (Hc & Hnp & Hpath). unfold on_click.
  destruct (negb (inaxes event)); [intros E; injection E as <-; exact Hinv|].
  destruct (xdata event) as [x|]; [|intros E; injection E as <-; exact Hinv].
  destruct (ydata event) as [y|]; [|intros E; injection E as <-; exact Hinv].
  destruct (button event =? 1)%Z.
  { intros E. injection E as <-. unfold sim_inv. sim_fields. auto. }
  destruct (button event =? 3)%Z; [|intros E; injection E as <-; exact Hinv].
  destruct (st_balls s) as [|b0 bs]; [intros E; injection E as <-; exact Hinv|].
  intros H. apply bind_returns in H. destruct H as (k & _ & H).
  destruct (nltb _ REMOVE_RADIUS); injection H as <-; [|exact Hinv].
  unfold sim_inv. sim_fields. rewrite Hc. auto.
Qed.

Lemma on_key_keeps (fuel : nat) (key : key_name) (n : nat)
    (drawn : nat -> point A) (s s' : sim_state) :
  sim_inv s -> on_key arctan2 fuel key n drawn s = Returns s' -> sim_inv s'.
Proof.
  intros Hinv. pose proof Hinv as (Hc & Hnp & Hpath). unfold on_key.
  destruct key.
  - (* space *)
    destruct (status_eqb (st_status s) Idle || status_eqb (st_status s) Done);
      [|intros E; injection E as <-; exact Hinv].
    intros H. apply do_plan_returned in H. sim_fields.
    destruct H as (Hc' & [Hd|([He|He] & Hp & Hs)]); unfold sim_inv;
      rewrite Hc'; (split; [exact Hc|]); rewrite ?Hd, ?He;
      (split; [discriminate|]); auto; intros [E|E]; discriminate.
  - (* 1 *)
    destruct (status_eqb (st_status s) Idle || status_eqb (st_status s) Done);
      intros E; injection E as <-; unfold sim_inv; sim_fields; auto.
  - (* 2 *)
    intros E. injection E as <-. unfold sim_inv. sim_fields. auto.
  - (* s *)
    intros E. injection E as <-. unfold sim_inv. sim_fields. auto.
  - (* r *)
    intros E. injection E as <-. apply sim_inv_reset.
  - (* p *)
    intros E. injection E as <-. unfold sim_inv. sim_fields. auto.
  - (* n *)
    sim_fields.
    destruct (status_eqb (st_status s) Executing
              && ((st_phase s =? 1)%Z || (st_phase s =? 2)%Z)).
    + intros H. apply do_replan_returned in H. sim_fields.
      destruct H as (Hc' & [Hd|(He & Hp & Hs)]); unfold sim_inv;
        rewrite Hc'; (split; [exact Hc|]); rewrite ?Hd, ?He;
        (split; [discriminate|]); auto; intros [E|E]; discriminate.
    + intros E. injection E as <-. unfold sim_inv. sim_fields. auto.
  - (* d *)
    intros E. injection E as <-. unfold sim_inv. sim_fields. auto.
  - (* another key *)
    intros E. injection E as <-. exact Hinv.
Qed.

End InvariantFacts.

(** X23: in every state the simulation reaches from the initial one by
    frames, clicks and keys, in any arithmetic and whatever the random
    draws: no ball is marked collected, so that [_ball_array] is the list of
    all the balls; the status is not planning; and a state that is
    executing or comparing has a plan and a path to follow. *)
Theorem reachable_invariant {A : Arith} {Pw : Pow A} (arctan2 : num -> num -> num)
    (s : sim_state) :
  reachable arctan2 s ->
  st_collected s = [] /\
  _ball_array s = st_balls s /\
  st_status s <> Planning /\
  (st_status s = Executing \/ st_status s = Comparing ->
   st_plan s <> None /\ st_smooth_path s <> None).
Proof.
  intros Hreach.
  assert (Hinv : sim_inv s).
  { induction Hreach as [|fuel e s s' _ IH Hrun]; [apply sim_inv_reset|].
    destruct e as [|event|key n drawn]; cbn [handle] in Hrun.
    - apply (step_keeps arctan2 _ _ _ _ IH Hrun).
    - apply (on_click_keeps _ _ _ IH Hrun).
    - apply (on_key_keeps arctan2 _ _ _ _ _ _ IH Hrun). }
  destruct Hinv as (Hc & Hnp & Hpath).
  split; [exact Hc|]. split; [|split; assumption].
  apply _ball_array_uncollected. exact Hc.
Qed.

(** X23 at the initial state. *)
Lemma reachable_invariant_witness :
  let arctan2 : float -> float -> float := fun _ _ => 0%float in
  let s : sim_state (A:=float_arith) := reset in
  reachable arctan2 s /\
  st_collected s = [] /\
  _ball_array s = st_balls s /\
  st_status s <> Planning /\
  (st_status s = Executing \/ st_status s = Comparing ->
   st_plan s <> None /\ st_smooth_path s <> None).
Proof.
  cbv zeta. split; [apply reachable_reset|].
  apply (reachable_invariant (A:=float_arith) (fun _ _ => 0%float)).
  apply reachable_reset.
Defined.

(** ** A run in binary64

    Three balls, two of them close together ahead of the robot: planning
    in phase 1 gives a path of 21 points to the nearer cluster; after 20
    frames of 1/30 s the two balls are collected and the robot has
    replanned once; after 120 frames no ball is left and the run is done.
    The heading is not computed. *)

Example simulation_run :
  let s0 : sim_state (A:=float_arith) :=
    set_balls [mkpt 2%float 4.05%float; mkpt 2.5%float 4.05%float;
               mkpt 10%float 1%float] reset in
  let frames (n : nat) (s : sim_state (A:=float_arith)) :=
    Nat.iter n (fun o => let* s := o in
                         step (fun _ _ => 0%float) 5 (1 / 30)%float s)
             (Returns s) in
  exists s1 s2 s3,
    do_plan (fun _ _ => 0%float) 5 s0 = Returns s1 /\
    st_status s1 = Executing /\
    option_map (@length _) (st_smooth_path s1) = Some 21 /\
    frames 20 s1 = Returns s2 /\
    st_balls s2 = [mkpt 10%float 1%float] /\
    st_replan_count s2 = 1%Z /\ st_status s2 = Executing /\
    frames 100 s2 = Returns s3 /\
    st_balls s3 = [] /\ st_status s3 = Done /\
    st_robot_pos s3 = mkpt 10%float 1%float.
Proof.
  cbv zeta. eexists. eexists. eexists.
  split; [vm_compute; reflexivity|].
  split; [reflexivity|]. split; [vm_compute; reflexivity|].
  split; [vm_compute; reflexivity|].
  split; [reflexivity|]. split; [reflexivity|]. split; [reflexivity|].
  split; [vm_compute; reflexivity|].
  split; [reflexivity|]. split; reflexivity.
Qed.
